(** * Navmesh: the navigation mesh of camera-topdown-threejs

    A shallow embedding of [navmesh.js] (classes [Vertex], [Edge], [Face],
    [NavmeshPoint] and [Navmesh]) and the properties of its builder, its point
    locator and its walk.

    JavaScript objects live in a heap of three arenas (vertices, edges,
    faces); a reference is an index into its arena and [null]/[undefined] is
    [None].  Every method is a function in the monad [M] of the mutable state
    with exceptions.  The numbers of THREE.Vector3 and the geometry helpers
    imported from [math.js] are parameters of the development, so that what
    is proved holds for IEEE doubles as well as for exact arithmetic. *)

From Stdlib Require Import ZArith NArith QArith Lia.
From stdpp Require Import base option list gmap strings pretty.

Local Open Scope string_scope.
Local Open Scope list_scope.
Local Open Scope nat_scope.

(** ** Exceptions and references *)

(** The errors a method can raise: a property read on [null]/[undefined],
    [Error("Edge::add error. Edge already has two faces")] and
    [Error("Navmesh::move. Deadlock")]. *)
Inductive exn := TypeError | EdgeAddError | DeadlockError.

#[global] Instance exn_eq_dec : EqDecision exn.
Proof. solve_decision. Defined.

Abbreviation vref := nat (only parsing).
Abbreviation eref := nat (only parsing).
Abbreviation fref := nat (only parsing).

(** The keys of the lookup table [cache.vecnames_to_facenames]. *)
Inductive vecname := Kx | Ky | Kz.
Inductive facename := Pa | Pb | Pc.

Definition vecnames_to_facenames : list (vecname * facename) :=
  [(Kx, Pa); (Ky, Pb); (Kz, Pc)].

Section Navmesh.

(** ** Parameters: numbers, THREE.Vector3 and math.js *)

(** [num] is the JavaScript number of a coordinate, [lt0 v] is [v < 0] and
    [ge0 v] is [v >= 0].  Nothing relates the two tests: both are false on
    NaN. *)
Context {num : Type}.
Variable zero : num.
Variable lt0 : num → bool.
Variable ge0 : num → bool.

Record Vector3 := mkVector3 { v_x : num; v_y : num; v_z : num }.

Definition vget (v : Vector3) (k : vecname) : num :=
  match k with Kx => v_x v | Ky => v_y v | Kz => v_z v end.

(** The helpers imported from [./math.js] and THREE's [distanceTo]; the
    module is not part of the sources at hand, and the embedding takes its
    functions as pure functions of their arguments. *)
Variable project_on_plane : Vector3 → Vector3 → Vector3 → Vector3.
Variable triangle_normal : Vector3 → Vector3 → Vector3 → Vector3.
Variable get_barycentric_coordinates :
  Vector3 → Vector3 → Vector3 → Vector3 → Vector3.
Variable barycentric_to_cartesian :
  Vector3 → Vector3 → Vector3 → Vector3 → Vector3.
Variable project_on_line : Vector3 → Vector3 → Vector3 → Vector3.
Variable distanceTo : Vector3 → Vector3 → num.

(** The keys of the edge and face tables.  [_hash a b c] stands for
    ["h" + Math.round((a + b + c + Math.log(a * b * c + 1)) * 1e8)], with
    [None] for the default [c = 1.1]; the floating-point value is a
    parameter. *)
Context `{Countable K}.
Variable _hash : N → N → option N → K.

(** ** Objects *)

Record Vertex := mkVertex { pos : Vector3 }.

Record Edge := mkEdge {
  e_id : K;
  e_a : option vref;
  e_b : option vref;
  e_left : option fref;
  e_right : option fref;
  e_length : num }.

(** [f_normal] is [None] between the allocation of a face and the last
    statement of its constructor. *)
Record Face := mkFace {
  f_id : K;
  f_pa : option vref;
  f_pb : option vref;
  f_pc : option vref;
  f_ea : option eref;
  f_eb : option eref;
  f_ec : option eref;
  f_normal : option Vector3 }.

Record NavmeshPoint := mkNavmeshPoint {
  p_worldpos : Vector3;
  p_bcpos : Vector3;
  p_id : string;
  p_face : fref }.

Definition fget (F : Face) (kn : facename) : option vref :=
  match kn with Pa => f_pa F | Pb => f_pb F | Pc => f_pc F end.

(** ** State: the heap and the fields of a [Navmesh]

    [faces] is iterated with [for (const k in this.faces)]: its keys start
    with the letter h, so the order is the order of first insertion, and the
    table is an association list.  [cache.v3] and [cache.v3_0] are written
    before they are read in every method and are locals here. *)
Record State := mkState {
  vertex_objs : list Vertex;
  edge_objs : list Edge;
  face_objs : list Face;
  verticies : gmap N vref;
  edges : gmap K eref;
  faces : list (K * fref);
  points : gmap string NavmeshPoint;
  guids : N }.

(** [new Navmesh()] on an empty heap. *)
Definition new_Navmesh : State := mkState [] [] [] ∅ ∅ [] ∅ 0%N.

Definition set_vertex_objs (f : list Vertex → list Vertex) (s : State) :=
  mkState (f (vertex_objs s)) (edge_objs s) (face_objs s) (verticies s)
    (edges s) (faces s) (points s) (guids s).
Definition set_edge_objs (f : list Edge → list Edge) (s : State) :=
  mkState (vertex_objs s) (f (edge_objs s)) (face_objs s) (verticies s)
    (edges s) (faces s) (points s) (guids s).
Definition set_face_objs (f : list Face → list Face) (s : State) :=
  mkState (vertex_objs s) (edge_objs s) (f (face_objs s)) (verticies s)
    (edges s) (faces s) (points s) (guids s).
Definition set_verticies (f : gmap N vref → gmap N vref) (s : State) :=
  mkState (vertex_objs s) (edge_objs s) (face_objs s) (f (verticies s))
    (edges s) (faces s) (points s) (guids s).
Definition set_edges (f : gmap K eref → gmap K eref) (s : State) :=
  mkState (vertex_objs s) (edge_objs s) (face_objs s) (verticies s)
    (f (edges s)) (faces s) (points s) (guids s).
Definition set_faces (f : list (K * fref) → list (K * fref)) (s : State) :=
  mkState (vertex_objs s) (edge_objs s) (face_objs s) (verticies s)
    (edges s) (f (faces s)) (points s) (guids s).
Definition set_points
    (f : gmap string NavmeshPoint → gmap string NavmeshPoint) (s : State) :=
  mkState (vertex_objs s) (edge_objs s) (face_objs s) (verticies s)
    (edges s) (faces s) (f (points s)) (guids s).
Definition set_guids (f : N → N) (s : State) :=
  mkState (vertex_objs s) (edge_objs s) (face_objs s) (verticies s)
    (edges s) (faces s) (points s) (f (guids s)).

(** ** The monad of methods

    [Stuck] is the read of an address outside its arena, which no JavaScript
    state has; [OutOfFuel] is a loop that used up its fuel. *)
Inductive Res (A : Type) :=
  | Ok (a : A) (s : State)
  | Throw (e : exn) (s : State)
  | Stuck
  | OutOfFuel.
Arguments Ok {A} a s.
Arguments Throw {A} e s.
Arguments Stuck {A}.
Arguments OutOfFuel {A}.

Definition M (A : Type) : Type := State → Res A.

#[global] Instance M_ret : MRet M := λ A a s, Ok a s.
#[global] Instance M_bind : MBind M := λ A B k m s,
  match m s with
  | Ok a s' => k a s'
  | Throw e s' => Throw e s'
  | Stuck => Stuck
  | OutOfFuel => OutOfFuel
  end.

Definition throw {A} (e : exn) : M A := λ s, Throw e s.
Definition gets {A} (f : State → A) : M A := λ s, Ok (f s) s.
Definition modify (f : State → State) : M unit := λ s, Ok () (f s).

(** A property read through a reference that may be [null]. *)
Definition nonnull {A} (o : option A) : M A :=
  match o with Some a => mret a | None => throw TypeError end.

Definition deref {A} (arena : State → list A) (r : nat) : M A := λ s,
  match arena s !! r with Some o => Ok o s | None => Stuck end.

Definition alloc_v (o : Vertex) : M vref := λ s,
  Ok (length (vertex_objs s)) (set_vertex_objs (λ l, l ++ [o]) s).
Definition alloc_e (o : Edge) : M eref := λ s,
  Ok (length (edge_objs s)) (set_edge_objs (λ l, l ++ [o]) s).
Definition alloc_f (o : Face) : M fref := λ s,
  Ok (length (face_objs s)) (set_face_objs (λ l, l ++ [o]) s).

Definition store_e (r : eref) (o : Edge) : M unit :=
  modify (set_edge_objs (λ l, <[r := o]> l)).
Definition store_f (r : fref) (o : Face) : M unit :=
  modify (set_face_objs (λ l, <[r := o]> l)).

(** [raises P m]: the method [m] uses no fuel, and an exception it throws
    satisfies [P]. *)
Definition raises {A} (P : exn → Prop) (m : M A) : Prop :=
  ∀ s : State,
    match m s with Throw e _ => P e | OutOfFuel => False | _ => True end.

(** ** class Edge *)

Definition new_Edge (id : K) (a b : vref) : M eref :=
  A ← deref vertex_objs a;
  B ← deref vertex_objs b;
  alloc_e (mkEdge id (Some a) (Some b) None None (distanceTo (pos A) (pos B))).

Definition Edge_has (E : Edge) (v : option vref) : bool :=
  bool_decide (e_a E = v) || bool_decide (e_b E = v).

Definition Edge_add (e : eref) (face : fref) : M unit :=
  E ← deref edge_objs e;
  match e_left E, e_right E with
  | None, _ =>
      store_e e (mkEdge (e_id E) (e_a E) (e_b E) (Some face) (e_right E)
                   (e_length E))
  | Some _, None =>
      store_e e (mkEdge (e_id E) (e_a E) (e_b E) (e_left E) (Some face)
                   (e_length E))
  | Some _, Some _ => throw EdgeAddError
  end.

Definition Edge_other (E : Edge) (face : fref) : option fref :=
  if bool_decide (e_left E = Some face) then e_right E
  else if bool_decide (e_right E = Some face) then e_left E
  else None.

Definition Edge_dispose (e : eref) : M unit :=
  E ← deref edge_objs e;
  store_e e (mkEdge (e_id E) None None None None (e_length E)).

(** ** class Face *)

Definition new_Face (id : K) (pa pb pc : vref) (ea eb ec : eref) : M fref :=
  this ← alloc_f (mkFace id (Some pa) (Some pb) (Some pc)
                    (Some ea) (Some eb) (Some ec) None);
  Edge_add ea this;;
  Edge_add eb this;;
  Edge_add ec this;;
  A ← deref vertex_objs pa;
  B ← deref vertex_objs pb;
  C ← deref vertex_objs pc;
  F ← deref face_objs this;
  store_f this (mkFace (f_id F) (f_pa F) (f_pb F) (f_pc F) (f_ea F) (f_eb F)
                  (f_ec F) (Some (triangle_normal (pos A) (pos B) (pos C))));;
  mret this.

(** [undefined] is [None]. *)
Definition find_opposide_edge (F : Face) (v : option vref)
    : M (option eref) :=
  ea ← nonnull (f_ea F);
  EA ← deref edge_objs ea;
  if negb (Edge_has EA v) then mret (Some ea) else
  eb ← nonnull (f_eb F);
  EB ← deref edge_objs eb;
  if negb (Edge_has EB v) then mret (Some eb) else
  ec ← nonnull (f_ec F);
  EC ← deref edge_objs ec;
  if negb (Edge_has EC v) then mret (Some ec) else
  mret None.

(** [eb] is disposed twice and [ec] not at all, as in the source. *)
Definition Face_dispose (f : fref) : M unit :=
  F ← deref face_objs f;
  ea ← nonnull (f_ea F);
  Edge_dispose ea;;
  eb ← nonnull (f_eb F);
  Edge_dispose eb;;
  eb' ← nonnull (f_eb F);
  Edge_dispose eb';;
  store_f f (mkFace (f_id F) None None None None None None (f_normal F)).

(** ** class Navmesh *)

(** [this.faces[k] = face]: an existing key keeps its place. *)
Fixpoint assoc_set (k : K) (v : fref) (l : list (K * fref))
    : list (K * fref) :=
  match l with
  | [] => [(k, v)]
  | (k', v') :: l' =>
      if decide (k = k') then (k, v) :: l' else (k', v') :: assoc_set k v l'
  end.

(** [this.guids++] on a double: exact below 2^53, absorbed from there on. *)
Definition guids_incr (g : N) : N :=
  if (g <? 2 ^ 53)%N then (g + 1)%N else g.

(** The test of one face in [register] and in [move]: the position projected
    on the plane of the face, and its barycentric coordinates. *)
Definition locate (F : Face) (p : Vector3) : M (Vector3 * Vector3) :=
  normal ← nonnull (f_normal F);
  pa ← nonnull (f_pa F);
  A ← deref vertex_objs pa;
  let projected_pos := project_on_plane p (pos A) normal in
  pb ← nonnull (f_pb F);
  B ← deref vertex_objs pb;
  pc ← nonnull (f_pc F);
  C ← deref vertex_objs pc;
  mret (projected_pos,
        get_barycentric_coordinates (pos A) (pos B) (pos C) projected_pos).

Definition inside (bcpos : Vector3) : bool :=
  ge0 (v_x bcpos) && ge0 (v_y bcpos) && ge0 (v_z bcpos).

(** The loop of [register] over the entries of [this.faces]. *)
Fixpoint register_scan (p : Vector3) (fs : list (K * fref))
    : M (option string) :=
  match fs with
  | [] => mret None
  | (_, face) :: fs' =>
      F ← deref face_objs face;
      '(projected_pos, bcpos) ← locate F p;
      if inside bcpos then
        g ← gets guids;
        let id := "p" +:+ pretty g in
        modify (set_guids guids_incr);;
        modify (set_points
                  <[id := mkNavmeshPoint projected_pos bcpos id face]>);;
        mret (Some id)
      else register_scan p fs'
  end.

Definition register (p : Vector3) : M (option string) :=
  fs ← gets faces;
  register_scan p fs.

(** *** move *)

(** What the [for] loop over [vecnames_to_facenames] leaves behind:
    no edge chosen, the face on the other side of the chosen edge, or a
    chosen edge with no face on its other side ([noface]). *)
Inductive Scan :=
  | NoEdge
  | Crossed (e : eref) (f : fref)
  | Noface (e : eref).

Fixpoint scan (face : fref) (F : Face) (bcpos : Vector3)
    (tested_edges : gmap K eref) (ks : list (vecname * facename))
    : M (gmap K eref * Scan) :=
  match ks with
  | [] => mret (tested_edges, NoEdge)
  | (k, kn) :: ks' =>
      if lt0 (vget bcpos k) then
        oe ← find_opposide_edge F (fget F kn);
        e ← nonnull oe;
        E ← deref edge_objs e;
        if tested_edges !! e_id E is Some _ then
          scan face F bcpos tested_edges ks'
        else
          let tested_edges' := <[e_id E := e]> tested_edges in
          match Edge_other E face with
          | Some f => mret (tested_edges', Crossed e f)
          | None => mret (tested_edges', Noface e)
          end
      else scan face F bcpos tested_edges ks'
  end.

(** The variables of the [while] loop that outlive an iteration. *)
Record Walk := mkWalk {
  np : Vector3;
  tested_edges : gmap K eref;
  deadlock : Z }.

Definition point (id : string) : M NavmeshPoint :=
  ps ← gets points;
  nonnull (ps !! id).

Definition deadlock_check (w : Walk) : M unit :=
  if (10 <? deadlock w)%Z then throw DeadlockError else mret ().

(** [changed] at the end of an iteration, read off what the [for] loop
    found: the loop sets it together with a new face, the correction step
    together with a new target. *)
Definition changed (found : Scan) : bool :=
  match found with NoEdge => false | _ => true end.

(** One iteration of the [while] loop.  It returns the variables of the
    next iteration and what its [for] loop found. *)
Definition move_iter (id : string) (w : Walk) : M (Walk * Scan) :=
  p ← point id;
  let face := p_face p in
  F ← deref face_objs face;
  '(projected_pos, bcpos) ← locate F (np w);
  '(tested, found) ← scan face F bcpos (tested_edges w) vecnames_to_facenames;
  match found with
  | Crossed e f =>
      modify (set_points <[id := mkNavmeshPoint (p_worldpos p) (p_bcpos p)
                                   (p_id p) f]>);;
      let w' := mkWalk (np w) tested (deadlock w) in
      deadlock_check w';;
      mret (w', found)
  | Noface edge =>
      E ← deref edge_objs edge;
      a ← nonnull (e_a E);
      A ← deref vertex_objs a;
      b ← nonnull (e_b E);
      B ← deref vertex_objs b;
      let linepos := project_on_line (pos A) (pos B) projected_pos in
      let w' := mkWalk linepos tested (deadlock w) in
      deadlock_check w';;
      mret (w', found)
  | NoEdge =>
      modify (set_points <[id := mkNavmeshPoint (p_worldpos p) bcpos
                                   (p_id p) (p_face p)]>);;
      p' ← point id;
      F' ← deref face_objs (p_face p');
      pa ← nonnull (f_pa F');
      A ← deref vertex_objs pa;
      pb ← nonnull (f_pb F');
      B ← deref vertex_objs pb;
      pc ← nonnull (f_pc F');
      C ← deref vertex_objs pc;
      modify (set_points
                <[id := mkNavmeshPoint
                          (barycentric_to_cartesian (pos A) (pos B) (pos C)
                             bcpos)
                          (p_bcpos p') (p_id p') (p_face p')]>);;
      let w' := mkWalk (np w) tested (deadlock w) in
      deadlock_check w';;
      mret (w', found)
  end.

(** The [while (changed)] loop, at most [fuel] iterations, and the
    [return p.worldpos] after it. *)
Fixpoint move_loop (fuel : nat) (id : string) (w : Walk) : M Vector3 :=
  match fuel with
  | O => λ _, OutOfFuel
  | S fuel' =>
      '(w', found) ← move_iter id w;
      if changed found then move_loop fuel' id w'
      else p ← point id; mret (p_worldpos p)
  end.

(** The variables of the loop when [move] enters it. *)
Definition walk_start (newpos : Vector3) : Walk := mkWalk newpos ∅ 0%Z.

(** [move]: every iteration that asks for another one has put the id of an
    edge of the heap into [tested_edges] that was not there, so one iteration
    more than the heap has edges is enough ([move_returns]). *)
Definition move (id : string) (newpos : Vector3) : M Vector3 := λ s,
  move_loop (S (length (edge_objs s))) id (walk_start newpos) s.

(** The states of the loop that a walk goes through: [iterates] follows
    every iteration that sets [changed], [crossings] only those that cross
    an edge to the neighbouring face. *)
Inductive iterates (id : string) : Walk → State → Walk → State → Prop :=
  | iterates_refl w s : iterates id w s w s
  | iterates_step w s w1 s1 found w2 s2 :
      iterates id w s w1 s1 →
      move_iter id w1 s1 = Ok (w2, found) s2 →
      changed found = true →
      iterates id w s w2 s2.

Inductive crossings (id : string) : Walk → State → Walk → State → Prop :=
  | crossings_refl w s : crossings id w s w s
  | crossings_step w s w1 s1 e f w2 s2 :
      crossings id w s w1 s1 →
      move_iter id w1 s1 = Ok (w2, Crossed e f) s2 →
      crossings id w s w2 s2.

(** *** What the loops look at, stated on the state *)

(** [located s p face projected bcpos]: [projected] is [p] projected on the
    plane of [face] and [bcpos] its barycentric coordinates in [face]. *)
Definition located (s : State) (p : Vector3) (face : fref)
    (projected bcpos : Vector3) : Prop :=
  ∃ F normal pa A pb B pc C,
    face_objs s !! face = Some F ∧
    f_normal F = Some normal ∧
    f_pa F = Some pa ∧ vertex_objs s !! pa = Some A ∧
    f_pb F = Some pb ∧ vertex_objs s !! pb = Some B ∧
    f_pc F = Some pc ∧ vertex_objs s !! pc = Some C ∧
    projected = project_on_plane p (pos A) normal ∧
    bcpos = get_barycentric_coordinates (pos A) (pos B) (pos C) projected.

(** [register] passes over the entry [kf] of the face table: the projection
    of [p] on the plane of the face has a barycentric coordinate that is
    not [>= 0]. *)
Definition rejects (s : State) (p : Vector3) (kf : K * fref) : Prop :=
  ∃ projected bcpos,
    located s p kf.2 projected bcpos ∧
    (ge0 (v_x bcpos) = false ∨ ge0 (v_y bcpos) = false ∨
     ge0 (v_z bcpos) = false).

(** [opposite s F v e]: [e] is an edge of the face [F] that does not have
    the vertex [v]. *)
Definition opposite (s : State) (F : Face) (v : option vref) (e : eref)
    : Prop :=
  Some e ∈ [f_ea F; f_eb F; f_ec F] ∧
  ∃ E, edge_objs s !! e = Some E ∧ Edge_has E v = false.

(** A face wired as [build] wires a triangle: three different vertices and
    the edges pa-pb, pb-pc and pc-pa. *)
Definition triangle (s : State) (F : Face) : Prop :=
  ∃ pa pb pc ea eb ec EA EB EC,
    f_pa F = Some pa ∧ f_pb F = Some pb ∧ f_pc F = Some pc ∧
    f_ea F = Some ea ∧ f_eb F = Some eb ∧ f_ec F = Some ec ∧
    pa ≠ pb ∧ pb ≠ pc ∧ pc ≠ pa ∧
    edge_objs s !! ea = Some EA ∧
    edge_objs s !! eb = Some EB ∧
    edge_objs s !! ec = Some EC ∧
    (∀ v, Edge_has EA v = bool_decide (v = Some pa ∨ v = Some pb)) ∧
    (∀ v, Edge_has EB v = bool_decide (v = Some pb ∨ v = Some pc)) ∧
    (∀ v, Edge_has EC v = bool_decide (v = Some pc ∨ v = Some pa)).

(** An entry of [vecnames_to_facenames] that the [for] loop passes over:
    the component is not negative, or the edge opposite its vertex is in
    [tested_edges] already. *)
Definition passed (s : State) (F : Face) (bcpos : Vector3)
    (tested : gmap K eref) (kkn : vecname * facename) : Prop :=
  lt0 (vget bcpos kkn.1) = false ∨
  ∃ e E, find_opposide_edge F (fget F kkn.2) s = Ok (Some e) s ∧
         edge_objs s !! e = Some E ∧ is_Some (tested !! e_id E).

(** [chosen s face F bcpos tested ks kkn e other tested']: the [for] loop
    over [ks] stops at the entry [kkn], the first one whose component of
    [bcpos] is negative and whose opposite edge [e], the one that
    [find_opposide_edge] gives, is not in [tested] yet;
    it enters [e] under its id, and [other] is the face [e] has on the side
    away from [face]. *)
Definition chosen (s : State) (face : fref) (F : Face) (bcpos : Vector3)
    (tested : gmap K eref) (ks : list (vecname * facename))
    (kkn : vecname * facename) (e : eref) (other : option fref)
    (tested' : gmap K eref) : Prop :=
  ∃ pre post E,
    ks = pre ++ kkn :: post ∧
    Forall (passed s F bcpos tested) pre ∧
    lt0 (vget bcpos kkn.1) = true ∧
    find_opposide_edge F (fget F kkn.2) s = Ok (Some e) s ∧
    edge_objs s !! e = Some E ∧
    tested !! e_id E = None ∧
    tested' = <[e_id E := e]> tested ∧
    Edge_other E face = other.

(** The edge of a triangle across from a vertex: pb-pc for pa, pc-pa for pb
    and pa-pb for pc. *)
Definition edge_across (F : Face) (kn : facename) : option eref :=
  match kn with Pa => f_eb F | Pb => f_ec F | Pc => f_ea F end.

(** The ids of the edges in the heap. *)
Definition edge_ids (s : State) : gset K :=
  list_to_set (e_id <$> edge_objs s).

(** The ids of edges of the heap that a walk has not tested yet. *)
Definition remaining (s : State) (w : Walk) : nat :=
  size (edge_ids s ∖ dom (tested_edges w)).

(** Every id in the point table was handed out by [register]. *)
Definition points_fresh (s : State) : Prop :=
  ∀ id, is_Some (points s !! id) →
        ∃ n : N, (n < guids s)%N ∧ id = "p" +:+ pretty n.

(** *** build *)

(** The mesh handed to [build]: the triangles of the index buffer and the
    flat array of positions.  A read past the end of the array is
    [undefined], which [new THREE.Vector3] replaces by 0. *)
Record Mesh := mkMesh {
  indices : list (N * N * N);
  positions : list num }.

Definition array_get (p : list num) (i : N) : num :=
  default zero (p !! N.to_nat i).

Definition new_Vertex (x y z : num) : M vref :=
  alloc_v (mkVertex (mkVector3 x y z)).

Definition vertex_of (p : list num) (pid : N) : M vref :=
  vs ← gets verticies;
  match vs !! pid with
  | Some v => mret v
  | None =>
      let id := (pid * 3)%N in
      v ← new_Vertex (array_get p id) (array_get p (id + 1)%N)
                     (array_get p (id + 2)%N);
      modify (set_verticies <[pid := v]>);;
      mret v
  end.

Definition edge_of (hash : K) (a b : vref) : M eref :=
  es ← gets edges;
  match es !! hash with
  | Some e => mret e
  | None =>
      e ← new_Edge hash a b;
      modify (set_edges <[hash := e]>);;
      mret e
  end.

(** The body of the [for] loop of [build]. *)
Definition build_triangle (p : list num) (t : N * N * N) : M unit :=
  let '(pid1, pid2, pid3) := t in
  let id1 := (pid1 * 3)%N in
  let id2 := (pid2 * 3)%N in
  let id3 := (pid3 * 3)%N in
  v1 ← vertex_of p pid1;
  v2 ← vertex_of p pid2;
  v3 ← vertex_of p pid3;
  let hash1 := _hash id1 id2 None in
  let hash2 := _hash id2 id3 None in
  let hash3 := _hash id3 id1 None in
  e1 ← edge_of hash1 v1 v2;
  e2 ← edge_of hash2 v2 v3;
  e3 ← edge_of hash3 v3 v1;
  let hashf := _hash id1 id2 (Some id3) in
  face ← new_Face hashf v1 v2 v3 e1 e2 e3;
  modify (set_faces (assoc_set hashf face)).

Fixpoint build_loop (p : list num) (ts : list (N * N * N)) : M unit :=
  match ts with
  | [] => mret ()
  | t :: ts' => build_triangle p t;; build_loop p ts'
  end.

Definition build (mesh : Mesh) : M unit :=
  build_loop (positions mesh) (indices mesh).

(** The number of faces an edge holds. *)
Definition incident (E : Edge) : nat :=
  (if e_left E is Some _ then 1 else 0) +
  (if e_right E is Some _ then 1 else 0).

Definition incident_at (s : State) (e : eref) : nat :=
  from_option incident 0 (edge_objs s !! e).

(** A face as its constructor leaves it: the normal is set, the three
    vertices and the three edges are objects of the heap. *)
Definition complete (s : State) (face : fref) : Prop :=
  ∃ F normal pa A pb B pc C ea eb ec,
    face_objs s !! face = Some F ∧
    f_normal F = Some normal ∧
    f_pa F = Some pa ∧ vertex_objs s !! pa = Some A ∧
    f_pb F = Some pb ∧ vertex_objs s !! pb = Some B ∧
    f_pc F = Some pc ∧ vertex_objs s !! pc = Some C ∧
    f_ea F = Some ea ∧ ea < length (edge_objs s) ∧
    f_eb F = Some eb ∧ eb < length (edge_objs s) ∧
    f_ec F = Some ec ∧ ec < length (edge_objs s).

(** The face table holds such faces, each one once. *)
Definition faces_ok (s : State) : Prop :=
  Forall (complete s) (faces s).*2 ∧ NoDup (faces s).*2.

(** The references in the vertex and edge tables are objects of the heap. *)
Definition tables_ok (s : State) : Prop :=
  (∀ pid v, verticies s !! pid = Some v → v < length (vertex_objs s)) ∧
  (∀ k e, edges s !! k = Some e → e < length (edge_objs s)).

(** The triangle [t] has the undirected edge between the vertex indices
    [a] and [b], in one direction or the other. *)
Definition references (t : N * N * N) (a b : N) : bool :=
  let '(p1, p2, p3) := t in
  bool_decide
    ((a, b) ∈ [(p1, p2); (p2, p3); (p3, p1); (p2, p1); (p3, p2); (p1, p3)]).

(** How many triangles of [ts] have the edge between [a] and [b]. *)
Fixpoint sharing (ts : list (N * N * N)) (a b : N) : nat :=
  match ts with
  | [] => 0
  | t :: ts' => (if references t a b then 1 else 0) + sharing ts' a b
  end.

(** [extends s s']: [s'] has every vertex, edge and face key that [s] has,
    every edge holds at least as many faces as in [s], the points are those
    of [s], and the vertices and faces of the heap of [s] are as they were. *)
Definition extends (s s' : State) : Prop :=
  verticies s ⊆ verticies s' ∧
  edges s ⊆ edges s' ∧
  (faces s).*1 ⊆ (faces s').*1 ∧
  (∀ e, incident_at s e ≤ incident_at s' e) ∧
  length (vertex_objs s) ≤ length (vertex_objs s') ∧
  length (edge_objs s) ≤ length (edge_objs s') ∧
  points s' = points s ∧ guids s' = guids s ∧
  vertex_objs s `prefix_of` vertex_objs s' ∧
  face_objs s `prefix_of` face_objs s'.

(** The key under which [build] files the edge between [a] and [b]. *)
Definition edge_key (a b : N) : K := _hash (a * 3)%N (b * 3)%N None.

(** *** The mesh that a build leaves *)

(** The vertex that [build] makes for the index [pid] of the position
    array. *)
Definition vertex_at (p : list num) (pid : N) : Vertex :=
  mkVertex (mkVector3 (array_get p (pid * 3)%N) (array_get p (pid * 3 + 1)%N)
              (array_get p (pid * 3 + 2)%N)).

(** The key under which [build] files the face of a triangle. *)
Definition face_key (t : N * N * N) : K :=
  let '(p1, p2, p3) := t in _hash (p1 * 3)%N (p2 * 3)%N (Some (p3 * 3)%N).

(** A triangle with three different vertex indices. *)
Definition nondegenerate (t : N * N * N) : Prop :=
  let '(p1, p2, p3) := t in p1 ≠ p2 ∧ p2 ≠ p3 ∧ p3 ≠ p1.

(** The places in [ts], counted from [i], of the triangles that have the
    edge between [a] and [b]. *)
Fixpoint sides (i : nat) (ts : list (N * N * N)) (a b : N) : list nat :=
  match ts with
  | [] => []
  | t :: ts' =>
      (if references t a b then [i] else []) ++ sides (S i) ts' a b
  end.

(** The face table after [this.faces[hashf] = face] for the triangles of
    [ts] in turn, the face of the first one being [i]. *)
Fixpoint face_table (i : fref) (ts : list (N * N * N))
    (l : list (K * fref)) : list (K * fref) :=
  match ts with
  | [] => l
  | t :: ts' => face_table (S i) ts' (assoc_set (face_key t) i l)
  end.

(** [face_of p s t F]: [F] is the face of the triangle [t], with the
    vertices and the edges that the tables of [s] hold for it. *)
Definition face_of (p : list num) (s : State) (t : N * N * N) (F : Face)
    : Prop :=
  let '(p1, p2, p3) := t in
  ∃ v1 v2 v3 e1 e2 e3,
    verticies s !! p1 = Some v1 ∧ verticies s !! p2 = Some v2 ∧
    verticies s !! p3 = Some v3 ∧
    edges s !! edge_key p1 p2 = Some e1 ∧
    edges s !! edge_key p2 p3 = Some e2 ∧
    edges s !! edge_key p3 p1 = Some e3 ∧
    F = mkFace (face_key t) (Some v1) (Some v2) (Some v3)
          (Some e1) (Some e2) (Some e3)
          (Some (triangle_normal (pos (vertex_at p p1)) (pos (vertex_at p p2))
                   (pos (vertex_at p p3)))).

(** [wired p ts s]: the heap and the tables of [s] are the mesh of the
    triangles [ts] over the position array [p].  Every vertex index of the
    table has its own vertex, at its position of the array; every edge key
    of the table has its own edge, between the vertices of two different
    indices [a] and [b], whose sides [left] and [right] are the first and
    the second triangle of [ts] that have the edge, and no third triangle
    has it; an edge that is not in
    the table is in no triangle; the face at place [i] of the heap is the
    face of the triangle at place [i] of [ts]; and the face table is the one
    that the assignments of the triangles' faces leave. *)
Definition wired (p : list num) (ts : list (N * N * N)) (s : State) : Prop :=
  (∀ pid v, verticies s !! pid = Some v →
            vertex_objs s !! v = Some (vertex_at p pid)) ∧
  (∀ pid pid' v, verticies s !! pid = Some v → verticies s !! pid' = Some v →
                 pid = pid') ∧
  (∀ k e, edges s !! k = Some e →
     ∃ a b va vb E,
       a ≠ b ∧ k = edge_key a b ∧
       verticies s !! a = Some va ∧ verticies s !! b = Some vb ∧
       edge_objs s !! e = Some E ∧
       e_id E = k ∧ e_a E = Some va ∧ e_b E = Some vb ∧
       e_left E = sides 0 ts a b !! 0 ∧ e_right E = sides 0 ts a b !! 1 ∧
       length (sides 0 ts a b) ≤ 2) ∧
  (∀ k k' e, edges s !! k = Some e → edges s !! k' = Some e → k = k') ∧
  (∀ a b, a ≠ b → edges s !! edge_key a b = None → sides 0 ts a b = []) ∧
  Forall2 (face_of p s) ts (face_objs s) ∧
  faces s = face_table 0 ts [].

(** An edge after [add(f)] has filled a free side of it. *)
Definition Edge_added (f : fref) (E : Edge) : Edge :=
  match e_left E with
  | None => mkEdge (e_id E) (e_a E) (e_b E) (Some f) (e_right E) (e_length E)
  | Some _ =>
      mkEdge (e_id E) (e_a E) (e_b E) (e_left E) (Some f) (e_length E)
  end.

(** The ends of the edge of a triangle across from a vertex of it. *)
Definition across (t : N * N * N) (kn : facename) : N * N :=
  let '(p1, p2, p3) := t in
  match kn with Pa => (p2, p3) | Pb => (p3, p1) | Pc => (p1, p2) end.

(** The vertex indices of the triangles of a mesh. *)
Definition occurs (ts : list (N * N * N)) (a : N) : Prop :=
  ∃ p1 p2 p3, (p1, p2, p3) ∈ ts ∧ (a = p1 ∨ a = p2 ∨ a = p3).

(** The vertex indices of the vertex table. *)
Definition indexed (s : State) (a : N) : Prop := is_Some (verticies s !! a).

(** [keys_distinct dom]: the edge keys do not collide on the vertex indices
    [dom].  Two pairs of such indices have the same key only when they are
    the same pair, in one order or the other.  The source rounds its keys,
    so that this holds of some sets of indices and not of others. *)
Definition keys_distinct (dom : N → Prop) : Prop :=
  ∀ a b a' b', dom a → dom b → dom a' → dom b' →
    edge_key a b = edge_key a' b' → a = a' ∧ b = b' ∨ a = b' ∧ b = a'.

(** *** dispose *)

Fixpoint dispose_loop (fs : list (K * fref)) : M unit :=
  match fs with
  | [] => mret ()
  | (_, f) :: fs' => Face_dispose f;; dispose_loop fs'
  end.

Definition dispose : M unit :=
  fs ← gets faces;
  dispose_loop fs;;
  modify (set_verticies (λ _, ∅));;
  modify (set_edges (λ _, ∅));;
  modify (set_faces (λ _, [])).

(** The fields of a face and of an edge after their [dispose]. *)
Definition disposed (F : Face) : Face :=
  mkFace (f_id F) None None None None None None (f_normal F).
Definition cleared (E : Edge) : Edge :=
  mkEdge (e_id E) None None None None (e_length E).

(** *** The states of a navmesh *)

(** [leaves m s s']: the call [m] in the state [s] returns or throws in the
    state [s']. *)
Definition leaves {A} (m : M A) (s s' : State) : Prop :=
  (∃ a, m s = Ok a s') ∨ (∃ e, m s = Throw e s').

(** [keeps R m]: the state that [m] leaves is related by [R] to the state
    it started in. *)
Definition keeps {A} (R : State → State → Prop) (m : M A) : Prop :=
  ∀ s s', leaves m s s' → R s s'.

(** [wrote_point id s s']: [s'] is [s], or [s] with another value of the
    same id for the point [id]. *)
Definition wrote_point (id : string) (s s' : State) : Prop :=
  s' = s ∨
  ∃ p p', points s !! id = Some p ∧ p_id p' = p_id p ∧
          s' = set_points <[id := p']> s.

(** The states a program can bring a navmesh to. *)
Inductive reachable : State → Prop :=
  | reachable_new : reachable new_Navmesh
  | reachable_build mesh s s' :
      reachable s → leaves (build mesh) s s' → reachable s'
  | reachable_register p s s' :
      reachable s → leaves (register p) s s' → reachable s'
  | reachable_move id newpos s s' :
      reachable s → leaves (move id newpos) s s' → reachable s'
  | reachable_dispose s s' :
      reachable s → leaves dispose s s' → reachable s'.

(** What holds in every such state: the vertex and edge tables point into
    the heap, the faces of the face table are as their constructor left
    them, and the points have the ids that [register] gave them, as long as
    the counter of ids is exact. *)
Definition navmesh_ok (s : State) : Prop :=
  tables_ok s ∧ faces_ok s ∧ ((guids s < 2 ^ 53)%N → points_fresh s).

End Navmesh.

Arguments Ok {num K _ _ A} a s.
Arguments Throw {num K _ _ A} e s.
Arguments Stuck {num K _ _ A}.
Arguments OutOfFuel {num K _ _ A}.

(** ** Exact arithmetic

    The instance of the parameters at the rationals, used to run the methods
    on concrete meshes.  On the meshes below every coordinate and every
    intermediate value is a dyadic rational of a few bits, but for the
    rest length of an edge, which no method reads. *)
Module Exact.

Definition num := Q.
Definition zero : num := 0%Q.
Definition lt0 (v : num) : bool := negb (Qle_bool 0 v).
Definition ge0 (v : num) : bool := Qle_bool 0 v.

Definition qadd (a b : Q) : Q := Qred (a + b).
Definition qsub (a b : Q) : Q := Qred (a - b).
Definition qmul (a b : Q) : Q := Qred (a * b).
Definition qdiv (a b : Q) : Q := Qred (a / b).

(** The square root of a rational, exact when the reduced numerator and
    denominator are squares and rounded down on each of them otherwise. *)
Definition qsqrt (a : Q) : Q :=
  let r := Qred a in
  Qred (Qmake (Z.sqrt (Qnum r)) (Z.to_pos (Z.sqrt (Zpos (Qden r))))).

Abbreviation V3 := (@Vector3 Q).

Definition vec (x y z : Q) : V3 := mkVector3 x y z.
Definition vsub (a b : V3) : V3 :=
  vec (qsub (v_x a) (v_x b)) (qsub (v_y a) (v_y b)) (qsub (v_z a) (v_z b)).
Definition vadd (a b : V3) : V3 :=
  vec (qadd (v_x a) (v_x b)) (qadd (v_y a) (v_y b)) (qadd (v_z a) (v_z b)).
Definition vscale (a : V3) (k : Q) : V3 :=
  vec (qmul (v_x a) k) (qmul (v_y a) k) (qmul (v_z a) k).
Definition vdot (a b : V3) : Q :=
  qadd (qadd (qmul (v_x a) (v_x b)) (qmul (v_y a) (v_y b)))
       (qmul (v_z a) (v_z b)).
Definition vcross (a b : V3) : V3 :=
  vec (qsub (qmul (v_y a) (v_z b)) (qmul (v_z a) (v_y b)))
      (qsub (qmul (v_z a) (v_x b)) (qmul (v_x a) (v_z b)))
      (qsub (qmul (v_x a) (v_y b)) (qmul (v_y a) (v_x b))).

(** Modelled from the spec: [distanceTo] of THREE.Vector3, the distance
    between two positions (the rest length of an edge).  The root is the
    one of [qsqrt]: the length is exact when the squared distance is the
    square of a rational, and rounded down otherwise. *)
Definition distanceTo (a b : V3) : Q :=
  qsqrt (vdot (vsub a b) (vsub a b)).

(** Modelled from the spec: [triangle_normal] of math.js, the unit normal
    of a triangle computed from its three vertex positions, its direction
    given by the winding. *)
Definition triangle_normal (a b c : V3) : V3 :=
  let n := vcross (vsub b a) (vsub c a) in
  vscale n (qdiv 1 (qsqrt (vdot n n))).

(** Modelled from the spec: [project_on_plane] of math.js, the projection of
    a point on the plane through [o] along the normal [n] of the plane. *)
Definition project_on_plane (p o n : V3) : V3 :=
  vsub p (vscale n (qdiv (vdot (vsub p o) n) (vdot n n))).

(** Modelled from the spec: [get_barycentric_coordinates] of math.js, the
    triple (u, v, w) with u + v + w = 1 that writes a point of the plane of
    the triangle as u a + v b + w c. *)
Definition get_barycentric_coordinates (a b c p : V3) : V3 :=
  let v0 := vsub b a in
  let v1 := vsub c a in
  let v2 := vsub p a in
  let d00 := vdot v0 v0 in
  let d01 := vdot v0 v1 in
  let d11 := vdot v1 v1 in
  let d20 := vdot v2 v0 in
  let d21 := vdot v2 v1 in
  let denom := qsub (qmul d00 d11) (qmul d01 d01) in
  let v := qdiv (qsub (qmul d11 d20) (qmul d01 d21)) denom in
  let w := qdiv (qsub (qmul d00 d21) (qmul d01 d20)) denom in
  vec (qsub (qsub 1 v) w) v w.

(** Modelled from the spec: [barycentric_to_cartesian] of math.js, the point
    u a + v b + w c. *)
Definition barycentric_to_cartesian (a b c bc : V3) : V3 :=
  vadd (vadd (vscale a (v_x bc)) (vscale b (v_y bc))) (vscale c (v_z bc)).

(** Modelled from the spec: [project_on_line] of math.js, the point of the
    segment from [a] to [b] nearest to [p] (not of the infinite line). *)
Definition project_on_line (a b p : V3) : V3 :=
  let ab := vsub b a in
  let t := qdiv (vdot (vsub p a) ab) (vdot ab ab) in
  let t' := if Qle_bool t 0 then 0%Q else if Qle_bool 1 t then 1%Q else t in
  vadd a (vscale ab t').

(** A key that stands for the one of [_hash a b c].  The source rounds
    a + b + c + log(a b c + 1) to eight decimals; the value before the
    rounding is determined by the sum and the product, which are kept here,
    ten times as large so that the default c = 1.1 is the integer 11.  The
    rounding is not modelled: this key tells apart every two pairs with
    different sums or products, which the key of the source does only as
    long as the rounded values differ.  It is used on the meshes of this
    file only, whose vertex indices are below 14. *)
Definition _hash (a b : N) (c : option N) : N * N :=
  let c10 := match c with Some c => (10 * c)%N | None => 11%N end in
  ((10 * a + 10 * b + c10)%N, (a * b * c10)%N).

Abbreviation State := (@State Q (N * N) _ _).
Abbreviation Walk := (@Walk Q (N * N) _ _).

Definition new_Navmesh : State := new_Navmesh.
Definition build : Mesh → State → Res unit :=
  build zero triangle_normal distanceTo _hash.
Definition register : V3 → State → Res (option string) :=
  register ge0 project_on_plane get_barycentric_coordinates.
Definition move_iter : string → Walk → State → Res (Walk * Scan) :=
  move_iter lt0 project_on_plane get_barycentric_coordinates
    barycentric_to_cartesian project_on_line.
Definition move_loop : nat → string → Walk → State → Res V3 :=
  move_loop lt0 project_on_plane get_barycentric_coordinates
    barycentric_to_cartesian project_on_line.
Definition move : string → V3 → State → Res V3 :=
  move lt0 project_on_plane get_barycentric_coordinates
    barycentric_to_cartesian project_on_line.
Definition dispose : State → Res unit := dispose.
Definition iterates : string → Walk → State → Walk → State → Prop :=
  iterates lt0 project_on_plane get_barycentric_coordinates
    barycentric_to_cartesian project_on_line.

(** The state a call leaves, whether it returns or throws. *)
Definition after {A} (m : State → Res A) (s : State) : State :=
  match m s with Ok _ s' | Throw _ s' => s' | _ => s end.

End Exact.

(** ** Meshes

    The quad of two triangles in the plane z = 0. *)
Definition quad : Mesh :=
  mkMesh [(0, 1, 2); (0, 2, 3)]%N
    [0; 0; 0;  1; 0; 0;  1; 1; 0;  0; 1; 0]%Q.

(** One triangle. *)
Definition single : Mesh :=
  mkMesh [(0, 1, 2)]%N [0; 0; 0;  1; 0; 0;  0; 1; 0]%Q.

(** A floor and a wall: the triangle 0 1 2 in the plane z = 0 and the
    triangle 1 0 3 in the plane y = 0, which meet at a right angle in the
    edge from (0,0,0) to (1,0,0). *)
Definition corner : Mesh :=
  mkMesh [(0, 1, 2); (1, 0, 3)]%N
    [0; 0; 0;  1; 0; 0;  0; 1; 0;  0; 0; 1]%Q.

(** A fan of twelve triangles in the plane z = 0 around the vertex (0,0,0),
    with the other vertices at (1,1,0), (2,1,0), ..., (13,1,0). *)
Definition fan : Mesh :=
  mkMesh
    [(0, 1, 2); (0, 2, 3); (0, 3, 4); (0, 4, 5); (0, 5, 6); (0, 6, 7);
     (0, 7, 8); (0, 8, 9); (0, 9, 10); (0, 10, 11); (0, 11, 12);
     (0, 12, 13)]%N
    [0; 0; 0;  1; 1; 0;  2; 1; 0;  3; 1; 0;  4; 1; 0;  5; 1; 0;  6; 1; 0;
     7; 1; 0;  8; 1; 0;  9; 1; 0;  10; 1; 0;  11; 1; 0;  12; 1; 0;
     13; 1; 0]%Q.

(** Three triangles on the edge between the vertices 0 and 1. *)
Definition three_on_an_edge : Mesh :=
  mkMesh [(0, 1, 2); (1, 0, 3); (0, 1, 4)]%N
    [0; 0; 0;  1; 0; 0;  0; 1; 0;  0; 0; 1;  0; -1; 0]%Q.

(** Two triangles on the edge between the vertices 0 and 1, and a third
    one whose first edge, between 2 and 0, is an edge of the first triangle
    and whose second edge is the one between 0 and 1. *)
Definition late_third : Mesh :=
  mkMesh [(0, 1, 2); (1, 0, 3); (2, 0, 1)]%N
    [0; 0; 0;  1; 0; 0;  0; 1; 0;  0; 0; 1]%Q.

(** Two triangles around the vertex 0 whose other vertex indices have the
    same sum, 1 + 4 and 2 + 3. *)
Definition twins : Mesh :=
  mkMesh [(0, 1, 4); (0, 2, 3)]%N
    [0; 0; 0;  1; 0; 0;  0; 1; 0;  -1; 1; 0;  1; 1; 0]%Q.

(** *** States reached by calls on a new navmesh *)

Definition quad_built : Exact.State :=
  Exact.after (Exact.build quad) Exact.new_Navmesh.
(** A point registered in the triangle 0 1 2 of the quad. *)
Definition quad_registered : Exact.State :=
  Exact.after (Exact.register (Exact.vec (3 # 4) (1 # 4) 0)) quad_built.
(** The first iteration of a move of that point to (1/4, 3/4, 0), in the
    other triangle, and of a move to (5, 1/2, 0), outside the quad. *)
Definition quad_crossing : Exact.Walk :=
  walk_start (Exact.vec (1 # 4) (3 # 4) 0).
Definition quad_crossed : Exact.Walk * Exact.State :=
  match Exact.move_iter "p0" quad_crossing quad_registered with
  | Ok (w, _) s => (w, s)
  | _ => (quad_crossing, quad_registered)
  end.
Definition quad_leaving : Exact.Walk := walk_start (Exact.vec 5 (1 # 2) 0).
Definition quad_clamped : Exact.Walk * Exact.State :=
  match Exact.move_iter "p0" quad_leaving quad_registered with
  | Ok (w, _) s => (w, s)
  | _ => (quad_leaving, quad_registered)
  end.

Definition single_built : Exact.State :=
  Exact.after (Exact.build single) Exact.new_Navmesh.
Definition single_registered : Exact.State :=
  Exact.after (Exact.register (Exact.vec (1 # 4) (1 # 4) 0)) single_built.
Definition single_disposed : Exact.State :=
  Exact.after Exact.dispose single_registered.

Definition corner_built : Exact.State :=
  Exact.after (Exact.build corner) Exact.new_Navmesh.
(** A point registered on the floor. *)
Definition corner_registered : Exact.State :=
  Exact.after (Exact.register (Exact.vec (1 # 4) (1 # 4) 0)) corner_built.
(** A target below the floor and behind the wall. *)
Definition corner_target : Exact.V3 := Exact.vec (1 # 2) (-1) (-1).
Definition corner_moved : Exact.State :=
  Exact.after (Exact.move "p0" corner_target) corner_registered.
Definition corner_moved_again : Exact.State :=
  Exact.after (Exact.move "p0" corner_target) corner_moved.

Definition fan_built : Exact.State :=
  Exact.after (Exact.build fan) Exact.new_Navmesh.
(** A point registered in the first triangle of the fan, and a target in
    the last one. *)
Definition fan_registered : Exact.State :=
  Exact.after (Exact.register (Exact.vec (3 # 4) (1 # 2) 0)) fan_built.
Definition fan_target : Exact.V3 := Exact.vec (25 # 4) (1 # 2) 0.

Definition twins_built : Exact.State :=
  Exact.after (Exact.build twins) Exact.new_Navmesh.

(** * Properties *)

Section Properties.

Set Default Proof Using "Type".

Context {num : Type} (zero : num) (lt0 ge0 : num → bool).
Context (project_on_plane triangle_normal :
           @Vector3 num → @Vector3 num → @Vector3 num → @Vector3 num).
Context (get_barycentric_coordinates barycentric_to_cartesian :
           @Vector3 num → @Vector3 num → @Vector3 num → @Vector3 num →
           @Vector3 num).
Context (project_on_line :
           @Vector3 num → @Vector3 num → @Vector3 num → @Vector3 num).
Context (distanceTo : @Vector3 num → @Vector3 num → num).
Context `{Countable K} (_hash : N → N → option N → K).

Local Abbreviation State := (@State num K _ _).
Local Abbreviation M := (@M num K _ _).
Local Abbreviation raises := (@raises num K _ _ _).
Local Abbreviation Walk := (@Walk num K _ _).
Local Abbreviation Face := (@Face num K).
Local Abbreviation Edge := (@Edge num K).
Local Abbreviation locate :=
  (locate project_on_plane get_barycentric_coordinates).
Local Abbreviation located :=
  (located project_on_plane get_barycentric_coordinates).
Local Abbreviation inside := (inside ge0).
Local Abbreviation rejects :=
  (rejects ge0 project_on_plane get_barycentric_coordinates).
Local Abbreviation points_fresh := (@points_fresh num K _ _).
Local Abbreviation register_scan :=
  (register_scan ge0 project_on_plane get_barycentric_coordinates).
Local Abbreviation register :=
  (register ge0 project_on_plane get_barycentric_coordinates).
Local Abbreviation scan := (scan lt0).
Local Abbreviation passed := (passed lt0).
Local Abbreviation chosen := (chosen lt0).
Local Abbreviation move_iter :=
  (move_iter lt0 project_on_plane get_barycentric_coordinates
     barycentric_to_cartesian project_on_line).
Local Abbreviation move_loop :=
  (move_loop lt0 project_on_plane get_barycentric_coordinates
     barycentric_to_cartesian project_on_line).
Local Abbreviation move :=
  (move lt0 project_on_plane get_barycentric_coordinates
     barycentric_to_cartesian project_on_line).
Local Abbreviation iterates :=
  (iterates lt0 project_on_plane get_barycentric_coordinates
     barycentric_to_cartesian project_on_line).
Local Abbreviation crossings :=
  (crossings lt0 project_on_plane get_barycentric_coordinates
     barycentric_to_cartesian project_on_line).
Local Abbreviation new_Edge := (new_Edge distanceTo).
Local Abbreviation new_Face := (new_Face triangle_normal).
Local Abbreviation vertex_of := (vertex_of zero).
Local Abbreviation edge_of := (edge_of distanceTo).
Local Abbreviation build_triangle :=
  (build_triangle zero triangle_normal distanceTo _hash).
Local Abbreviation build_loop :=
  (build_loop zero triangle_normal distanceTo _hash).
Local Abbreviation build := (build zero triangle_normal distanceTo _hash).
Local Abbreviation edge_key := (edge_key _hash).
Local Abbreviation remaining := (@remaining num K _ _).
Local Abbreviation edge_ids := (@edge_ids num K _ _).
Local Abbreviation extends := (@extends num K _ _).
Local Abbreviation tables_ok := (@tables_ok num K _ _).
Local Abbreviation incident_at := (@incident_at num K _ _).
Local Abbreviation navmesh_ok := (@navmesh_ok num K _ _).
Local Abbreviation complete := (@complete num K _ _).
Local Abbreviation faces_ok := (@faces_ok num K _ _).
Local Abbreviation keeps := (@keeps num K _ _ _).
Local Abbreviation leaves := (@leaves num K _ _ _).
Local Abbreviation wrote_point := (@wrote_point num K _ _).
Local Abbreviation disposed := (@disposed num K).
Local Abbreviation cleared := (@cleared num K).
Local Abbreviation vertex_at := (vertex_at zero).
Local Abbreviation face_key := (face_key _hash).
Local Abbreviation face_table := (face_table _hash).
Local Abbreviation face_of := (face_of zero triangle_normal _hash).
Local Abbreviation wired := (wired zero triangle_normal _hash).
Local Abbreviation indexed := (@indexed num K _ _).
Local Abbreviation keys_distinct := (keys_distinct _hash).
Local Abbreviation reachable :=
  (reachable zero lt0 ge0 project_on_plane triangle_normal
     get_barycentric_coordinates barycentric_to_cartesian project_on_line
     distanceTo _hash).

(** Clears the parameters that a statement does not mention. *)
Ltac tidy := repeat match goal with x : _ |- _ => clear x end.

(** ** The monad *)

Lemma bind_Ok {A B} (m : M A) (k : A → M B) (s : State) b s' :
  (m ≫= k) s = Ok b s' ↔ ∃ a s1, m s = Ok a s1 ∧ k a s1 = Ok b s'.
Proof.
  tidy. unfold mbind, M_bind. destruct (m s); naive_solver.
Qed.

Lemma bind_Throw {A B} (m : M A) (k : A → M B) (s : State) e s' :
  (m ≫= k) s = Throw e s' ↔
  m s = Throw e s' ∨ ∃ a s1, m s = Ok a s1 ∧ k a s1 = Throw e s'.
Proof.
  tidy. unfold mbind, M_bind. destruct (m s); naive_solver.
Qed.

Lemma bind_Ok_eq {A B} (m : M A) (k : A → M B) (s : State) a s1 :
  m s = Ok a s1 → (m ≫= k) s = k a s1.
Proof. unfold mbind, M_bind. by intros ->. Qed.

Lemma bind_Throw_eq {A B} (m : M A) (k : A → M B) (s : State) e s1 :
  m s = Throw e s1 → (m ≫= k) s = Throw e s1.
Proof. unfold mbind, M_bind. by intros ->. Qed.

Lemma nonnull_Ok {A} (o : option A) (s : State) a s' :
  nonnull o s = Ok a s' ↔ o = Some a ∧ s' = s.
Proof.
  tidy. destruct o; unfold nonnull, mret, M_ret, throw; naive_solver.
Qed.

Lemma deref_Ok {A} (arena : State → list A) r (s : State) a s' :
  deref arena r s = Ok a s' ↔ arena s !! r = Some a ∧ s' = s.
Proof.
  tidy. unfold deref. destruct (arena s !! r); naive_solver.
Qed.

(** Unfolds the primitives of the monad in the hypotheses and the goal. *)
Ltac munfold :=
  unfold nonnull, deref, store_e, store_f, alloc_v, alloc_e, alloc_f, throw,
    gets, modify in *;
  unfold mbind, mret, M_bind, M_ret in *.

Ltac mcases := repeat (case_match; simplify_eq/=; try done).

Lemma find_opposide_edge_Ok (F : Face) v (s : State) oe s' :
  find_opposide_edge F v s = Ok oe s' →
  s' = s ∧ ∀ e, oe = Some e → opposite s F v e.
Proof.
  tidy. unfold find_opposide_edge, opposite. munfold. intros Hf.
  mcases. all: split; try done. 
  all: intros ? [= <-]; split; [set_solver|eexists; split; [done|]].
  all: by apply negb_true_iff.
Qed.

Lemma find_opposide_edge_triangle (F : Face) (s : State) :
  triangle s F →
  find_opposide_edge F (f_pa F) s = Ok (f_eb F) s ∧
  find_opposide_edge F (f_pb F) s = Ok (f_ec F) s ∧
  find_opposide_edge F (f_pc F) s = Ok (f_ea F) s.
Proof.
  tidy. intros (pa & pb & pc & ea & eb & ec & EA & EB & EC & Hpa & Hpb & Hpc &
          Hea & Heb & Hec & ? & ? & ? & Ha & Hb & Hc & HA & HB & HC).
  unfold find_opposide_edge. munfold.
  rewrite Hpa, Hpb, Hpc, Hea, Heb, Hec.
  repeat split.
  all: repeat first
    [ rewrite Ha | rewrite Hb | rewrite Hc | rewrite HA | rewrite HB
    | rewrite HC | case_bool_decide | progress cbn -[bool_decide] ].
  all: naive_solver.
Qed.

Lemma chosen_cons (s : State) face F bcpos tested kkn0 ks kkn e other
    tested' :
  passed s F bcpos tested kkn0 →
  chosen s face F bcpos tested ks kkn e other tested' →
  chosen s face F bcpos tested (kkn0 :: ks) kkn e other tested'.
Proof.
  intros Hp (pre & post & E & -> & Hpre & Hrest).
  exists (kkn0 :: pre), post, E. split; [done|].
  split; [by constructor|done].
Qed.

Lemma scan_Ok face (F : Face) bcpos tested ks (s : State) tested' found s' :
  scan face F bcpos tested ks s = Ok (tested', found) s' →
  s' = s ∧
  match found with
  | NoEdge => tested' = tested ∧ Forall (passed s F bcpos tested) ks
  | Crossed e f =>
      ∃ kkn, chosen s face F bcpos tested ks kkn e (Some f) tested'
  | Noface e => ∃ kkn, chosen s face F bcpos tested ks kkn e None tested'
  end.
Proof.
  tidy. revert s'. induction ks as [|[k kn] ks IH]; intros s'; cbn.
  { munfold. intros [= <- <- <-]. split; [done|]. by split. }
  destruct (lt0 (vget bcpos k)) eqn:Hk; cycle 1.
  { intros [-> Hr]%IH. split; [done|].
    assert (passed s F bcpos tested (k, kn)) by (by left).
    destruct found; [naive_solver|..].
    all: destruct Hr as [kkn Hr]; exists kkn; by apply chosen_cons. }
  intros (oe & s1 & Hoe & Hrest)%bind_Ok.
  pose proof (find_opposide_edge_Ok _ _ _ _ _ Hoe) as [-> Hopp].
  apply bind_Ok in Hrest as (e & s1 & [-> ->]%nonnull_Ok & Hrest).
  apply bind_Ok in Hrest as (E & s1 & [HE ->]%deref_Ok & Hrest).
  destruct (tested !! e_id E) as [e'|] eqn:Ht.
  - apply IH in Hrest as [-> Hr]. split; [done|].
    assert (passed s F bcpos tested (k, kn)).
    { right. exists e, E. split_and!; [done|done|by rewrite Ht]. }
    destruct found; [naive_solver|..].
    all: destruct Hr as [kkn Hr]; exists kkn; by apply chosen_cons.
  - destruct (Edge_other E face) as [f|] eqn:Ho; munfold; simplify_eq.
    all: split; [done|]; exists (k, kn), [], ks, E; by split_and!.
Qed.

(** The other way round: where an entry is chosen, the [for] loop stops at
    it. *)
Lemma scan_chosen face (F : Face) bcpos tested ks (s : State) kkn e other
    tested' :
  chosen s face F bcpos tested ks kkn e other tested' →
  scan face F bcpos tested ks s
  = Ok (tested', match other with Some f => Crossed e f | None => Noface e end)
      s.
Proof.
  tidy. intros (pre & post & E & -> & Hpre & Hlt & Hfind & HE & Ht & -> & Ho).
  destruct kkn as [k kn]. cbn [fst snd] in *.
  induction pre as [|[k0 kn0] pre IH]; cbn [app scan].
  - rewrite Hlt, (bind_Ok_eq _ _ _ _ _ Hfind). cbn [nonnull].
    erewrite (bind_Ok_eq (mret e)) by done.
    erewrite (bind_Ok_eq (deref edge_objs e)); [|by apply deref_Ok].
    rewrite Ht, Ho. by destruct other.
  - apply Forall_cons in Hpre as [Hp Hpre]. specialize (IH Hpre).
    destruct (lt0 (vget bcpos k0)) eqn:Hk0; [|done].
    destruct Hp as [Hp|(e0 & E0 & Hfind0 & HE0 & [x Hx])];
      cbn [fst snd] in *; [congruence|].
    rewrite (bind_Ok_eq _ _ _ _ _ Hfind0). cbn [nonnull].
    erewrite (bind_Ok_eq (mret e0)) by done.
    erewrite (bind_Ok_eq (deref edge_objs e0)); [|by apply deref_Ok].
    by rewrite Hx.
Qed.

(** In a triangle the edge without a vertex is the edge across from it. *)
Lemma opposite_triangle (s : State) (F : Face) kn e :
  triangle s F → opposite s F (fget F kn) e → edge_across F kn = Some e.
Proof.
  tidy. intros (pa & pb & pc & ea & eb & ec & EA & EB & EC & Hpa & Hpb & Hpc &
          Hea & Heb & Hec & ? & ? & ? & Ha & Hb & Hc & HA & HB & HC).
  intros [Hin (E & HE & Hhas)].
  rewrite Hea, Heb, Hec in Hin.
  assert (e = ea ∨ e = eb ∨ e = ec) as Hcases by set_solver.
  destruct kn; cbn in *; rewrite ?Hpa, ?Hpb, ?Hpc, ?Hea, ?Heb, ?Hec in *.
  all: destruct Hcases as [->|[->| ->]]; simplify_eq; try done.
  all: rewrite ?HA, ?HB, ?HC in Hhas.
  all: apply bool_decide_eq_false in Hhas; naive_solver.
Qed.

Lemma gets_Ok {A} (f : State → A) (s : State) a s' :
  gets f s = Ok a s' ↔ a = f s ∧ s' = s.
Proof.
  tidy. unfold gets. naive_solver.
Qed.

Lemma modify_Ok (f : State → State) (s : State) u s' :
  modify f s = Ok u s' ↔ s' = f s.
Proof.
  tidy. unfold modify. destruct u. naive_solver.
Qed.

Lemma point_Ok id (s : State) p s' :
  point id s = Ok p s' ↔ points s !! id = Some p ∧ s' = s.
Proof.
  tidy. unfold point. rewrite bind_Ok. setoid_rewrite gets_Ok.
  setoid_rewrite nonnull_Ok. naive_solver.
Qed.

(** Peels the binds off a hypothesis [H : m s = Ok a s']. *)
Ltac minv H :=
  repeat lazymatch type of H with
  | (nonnull _ ≫= _) _ = Ok _ _ =>
      let E := fresh "E" in
      apply bind_Ok in H as (? & ? & [E ->]%nonnull_Ok & H)
  | (deref _ _ ≫= _) _ = Ok _ _ =>
      let E := fresh "E" in
      apply bind_Ok in H as (? & ? & [E ->]%deref_Ok & H)
  | (point _ ≫= _) _ = Ok _ _ =>
      let E := fresh "E" in
      apply bind_Ok in H as (? & ? & [E ->]%point_Ok & H)
  | (gets _ ≫= _) _ = Ok _ _ =>
      apply bind_Ok in H as (? & ? & [-> ->]%gets_Ok & H)
  | (modify _ ≫= _) _ = Ok _ _ =>
      apply bind_Ok in H as (? & ? & ->%modify_Ok & H)
  end.

Lemma locate_Ok (F : Face) p face (s : State) projected bcpos s' :
  face_objs s !! face = Some F →
  locate F p s = Ok (projected, bcpos) s' →
  s' = s ∧ located s p face projected bcpos.
Proof.
  tidy. intros HF Hl. unfold locate in Hl. minv Hl.
  unfold mret, M_ret in Hl. simplify_eq. split; [done|].
  unfold located. naive_solver.
Qed.

Lemma locate_located (F : Face) p face (s : State) projected bcpos :
  face_objs s !! face = Some F →
  located s p face projected bcpos →
  locate F p s = Ok (projected, bcpos) s.
Proof.
  tidy. intros HF (F' & normal & pa & A & pb & B & pc & C & HF' & Hn & Hpa
                   & HA & Hpb & HB & Hpc & HC & -> & ->).
  assert (F' = F) as -> by congruence.
  unfold locate. munfold. by rewrite Hn, Hpa, HA, Hpb, HB, Hpc, HC.
Qed.

Lemma deadlock_check_Ok (w : Walk) (s : State) u s' :
  deadlock_check w s = Ok u s' ↔ (deadlock w ≤ 10)%Z ∧ s' = s.
Proof.
  tidy. unfold deadlock_check. destruct (Z.ltb_spec 10 (deadlock w)).
  - unfold throw. split; [done|lia].
  - unfold mret, M_ret. destruct u. split; [naive_solver lia|naive_solver].
Qed.

(** ** One iteration of the walk *)

(** What an iteration that completes has done, by what its [for] loop
    found. *)
Lemma move_iter_Ok id (w : Walk) (s : State) w' found s' :
  move_iter id w s = Ok (w', found) s' →
  ∃ p F projected bcpos,
    points s !! id = Some p ∧
    face_objs s !! p_face p = Some F ∧
    located s (np w) (p_face p) projected bcpos ∧
    deadlock w' = deadlock w ∧ (deadlock w ≤ 10)%Z ∧
    match found with
    | NoEdge =>
        tested_edges w' = tested_edges w ∧
        Forall (passed s F bcpos (tested_edges w)) vecnames_to_facenames ∧
        np w' = np w ∧
        ∃ pa A pb B pc C,
          f_pa F = Some pa ∧ vertex_objs s !! pa = Some A ∧
          f_pb F = Some pb ∧ vertex_objs s !! pb = Some B ∧
          f_pc F = Some pc ∧ vertex_objs s !! pc = Some C ∧
          s' = set_points
                 <[id := mkNavmeshPoint
                           (barycentric_to_cartesian (pos A) (pos B) (pos C)
                              bcpos)
                           bcpos (p_id p) (p_face p)]> s
    | Crossed e f =>
        (∃ kkn, chosen s (p_face p) F bcpos (tested_edges w)
                  vecnames_to_facenames kkn e (Some f) (tested_edges w')) ∧
        np w' = np w ∧
        s' = set_points
               <[id := mkNavmeshPoint (p_worldpos p) (p_bcpos p) (p_id p) f]>
               s
    | Noface e =>
        (∃ kkn, chosen s (p_face p) F bcpos (tested_edges w)
                  vecnames_to_facenames kkn e None (tested_edges w')) ∧
        s' = s ∧
        ∃ E a A b B,
          edge_objs s !! e = Some E ∧
          e_a E = Some a ∧ vertex_objs s !! a = Some A ∧
          e_b E = Some b ∧ vertex_objs s !! b = Some B ∧
          np w' = project_on_line (pos A) (pos B) projected
    end.
Proof.
  tidy. intros Hi. unfold move_iter in Hi.
  apply bind_Ok in Hi as (p & s1 & [Hp ->]%point_Ok & Hi).
  apply bind_Ok in Hi as (F & s1 & [HF ->]%deref_Ok & Hi).
  apply bind_Ok in Hi as ([projected bcpos] & s1 & Hl & Hi).
  eapply locate_Ok in Hl as [-> Hl]; [|done].
  apply bind_Ok in Hi as ([tested fnd] & s1 & Hs & Hi).
  apply scan_Ok in Hs as [-> Hs].
  exists p, F, projected, bcpos. do 3 (split; [done|]).
  destruct fnd as [|e f|e].
  - apply bind_Ok in Hi as ([] & s1 & ->%modify_Ok & Hi).
    apply bind_Ok in Hi as (p' & s1 & [Hp' ->]%point_Ok & Hi).
    cbn in Hp'. rewrite lookup_insert_eq in Hp'. injection Hp' as <-.
    cbn [p_face p_bcpos p_id] in Hi. minv Hi.
    apply bind_Ok in Hi as (? & ? & [? ->]%deadlock_check_Ok & Hi).
    unfold mret, M_ret in Hi. simplify_eq/=.
    destruct Hs as [-> Hs]. do 5 (split; [done|]).
    eexists _, _, _, _, _, _. split_and!; try done.
    unfold set_points; cbn. by rewrite insert_insert_eq.
  - minv Hi.
    apply bind_Ok in Hi as (? & ? & [? ->]%deadlock_check_Ok & Hi).
    unfold mret, M_ret in Hi. by simplify_eq/=.
  - minv Hi.
    apply bind_Ok in Hi as (? & ? & [? ->]%deadlock_check_Ok & Hi).
    unfold mret, M_ret in Hi. simplify_eq/=.
    do 4 (split; [done|]). naive_solver.
Qed.

(** ** Which exceptions a method raises *)

Lemma raises_bind {A B} P (m : M A) (k : A → M B) :
  raises P m → (∀ a, raises P (k a)) → raises P (m ≫= k).
Proof.
  intros Hm Hk s. unfold mbind, M_bind. specialize (Hm s).
  destruct (m s) as [a s1| | |]; try done. apply Hk.
Qed.

Lemma raises_ret {A} P (a : A) : raises P (mret a : M A).
Proof. by intros s. Qed.

Lemma raises_gets {A} P (f : State → A) : raises P (gets f).
Proof. by intros s. Qed.

Lemma raises_modify P (f : State → State) : raises P (modify f).
Proof. by intros s. Qed.

Lemma raises_deref {A} P (arena : State → list A) r :
  raises P (deref arena r).
Proof. intros s. unfold deref. by destruct (arena s !! r). Qed.

Lemma raises_throw {A} (P : exn → Prop) e : P e → raises P (throw e : M A).
Proof. by intros He s. Qed.

Lemma raises_nonnull {A} (P : exn → Prop) (o : option A) :
  P TypeError → raises P (nonnull o).
Proof. intros He s. by destruct o. Qed.

Lemma raises_weaken {A} (P Q : exn → Prop) (m : M A) :
  (∀ e, P e → Q e) → raises P m → raises Q m.
Proof.
  intros HPQ Hm s. specialize (Hm s). destruct (m s); auto.
Qed.

Create HintDb raises.
Create HintDb keeps.
#[local] Hint Resolve raises_ret raises_gets raises_modify raises_deref
  raises_throw raises_nonnull : raises.

(** Goes through a method bind by bind. *)
Ltac raises_tac :=
  repeat first
    [ apply raises_bind; [|intros ?]
    | progress eauto with raises
    | match goal with
      | |- raises _ (match ?x with _ => _ end) => destruct x
      | |- raises _ (if ?b then _ else _) => destruct b
      | |- raises _ (let '(_, _) := ?x in _) => destruct x
      | |- raises _ ((λ '(_, _), _) ?x) => destruct x
      end ].

Lemma raises_point P id : P TypeError → raises P (point id).
Proof. intros. unfold point. raises_tac. Qed.

Lemma raises_find_opposide_edge P (F : Face) v :
  P TypeError → raises P (find_opposide_edge F v).
Proof. intros. unfold find_opposide_edge. raises_tac. Qed.

Lemma raises_locate P (F : Face) p : P TypeError → raises P (locate F p).
Proof. intros. unfold locate. raises_tac. Qed.

#[local] Hint Resolve raises_point raises_find_opposide_edge raises_locate
  : raises.

Lemma raises_scan P face (F : Face) bcpos tested ks :
  P TypeError → raises P (scan face F bcpos tested ks).
Proof.
  intros. revert tested. induction ks as [|[k kn] ks IH]; intros; cbn.
  - raises_tac.
  - destruct (lt0 _); [|done]. raises_tac.
Qed.

#[local] Hint Resolve raises_scan : raises.

Lemma raises_deadlock_check (w : Walk) :
  raises (λ e, e = DeadlockError ∧ (10 < deadlock w)%Z) (deadlock_check w).
Proof.
  intros s. unfold deadlock_check.
  destruct (Z.ltb_spec 10 (deadlock w)); cbn; [done|done].
Qed.

(** An iteration raises a [TypeError], or the deadlock error when the
    counter is above 10. *)
Lemma raises_move_iter id (w : Walk) :
  raises (λ e, e = TypeError ∨ e = DeadlockError ∧ (10 < deadlock w)%Z)
    (move_iter id w).
Proof.
  unfold move_iter. raises_tac.
  all: try by left.
  all: eapply raises_weaken; [|apply raises_deadlock_check]; cbn; auto.
Qed.

(** ** The walk *)

Lemma iterates_deadlock id (w : Walk) (s : State) w' s' :
  iterates id w s w' s' → deadlock w' = deadlock w.
Proof.
  induction 1 as [|w s w1 s1 found w2 s2 _ IH Hi _]; [done|].
  apply move_iter_Ok in Hi as (? & ? & ? & ? & ? & ? & ? & ? & ?).
  congruence.
Qed.

Lemma move_loop_Throw fuel id (w : Walk) (s : State) e s' :
  (deadlock w ≤ 10)%Z →
  move_loop fuel id w s = Throw e s' → e = TypeError.
Proof.
  revert w s. induction fuel as [|fuel IH]; intros w s Hd; [done|]. cbn.
  intros [Hi|([w' found] & s1 & Hi & Hrest)]%bind_Throw.
  - pose proof (raises_move_iter id w s) as Hr. rewrite Hi in Hr.
    destruct Hr as [?|[_ ?]]; [done|lia].
  - apply move_iter_Ok in Hi as (? & ? & ? & ? & ? & ? & ? & Hd' & ? & ?).
    destruct (changed found).
    + eapply IH; [|done]. lia.
    + pose proof (raises_point (λ e, e = TypeError) id eq_refl) as Hr.
      apply bind_Throw in Hrest as [Hp|(? & ? & _ & ?)]; [|done].
      specialize (Hr s1). by rewrite Hp in Hr.
Qed.

Lemma size_list_to_set_le (l : list K) :
  size (list_to_set l : gset K) ≤ length l.
Proof.
  induction l as [|k l IH]; cbn; [by rewrite size_empty|].
  rewrite size_union_alt, size_singleton.
  assert (size (list_to_set l ∖ {[k]} : gset K) ≤ size (list_to_set l : gset K))
    by (apply subseteq_size; set_solver).
  lia.
Qed.

Lemma edge_ids_lookup (s : State) e E :
  edge_objs s !! e = Some E → e_id E ∈ edge_ids s.
Proof.
  intros He. unfold edge_ids. apply elem_of_list_to_set.
  apply list_elem_of_fmap. exists E. split; [done|].
  by eapply list_elem_of_lookup_2.
Qed.

(** An iteration that sets [changed] leaves the edges of the heap as they
    are and has one edge id less to test. *)
Lemma move_iter_remaining id (w : Walk) (s : State) w' found s' :
  move_iter id w s = Ok (w', found) s' →
  changed found = true →
  remaining s' w' < remaining s w.
Proof.
  tidy. intros Hi Hc.
  apply move_iter_Ok in Hi as (p & F & pr & bc & _ & _ & _ & _ & _ & Hf).
  assert (∃ kkn e other,
    chosen s (p_face p) F bc (tested_edges w) vecnames_to_facenames kkn e
      other (tested_edges w') ∧ edge_objs s' = edge_objs s)
    as (kkn & e & other & Hch & Hs).
  { destruct found as [|e f|e]; [done|..].
    - destruct Hf as ([kkn ?] & ? & ->). by exists kkn, e, (Some f).
    - destruct Hf as ([kkn ?] & -> & ?). by exists kkn, e, None. }
  destruct Hch as (? & ? & E & _ & _ & _ & _ & HE & Hn & Ht & _).
  unfold remaining, edge_ids. rewrite Hs, Ht, dom_insert_L.
  apply edge_ids_lookup in HE. apply not_elem_of_dom in Hn.
  apply subset_size. unfold edge_ids in HE. set_solver.
Qed.

Lemma move_loop_fuel fuel id (w : Walk) (s : State) :
  remaining s w < fuel → move_loop fuel id w s ≠ OutOfFuel.
Proof.
  revert w s. induction fuel as [|fuel IH]; intros w s Hr; [lia|]. cbn.
  unfold mbind, M_bind.
  pose proof (raises_move_iter id w s) as Hi.
  destruct (move_iter _ _ _) as [[w' found] s1| | |] eqn:Hm; try done.
  destruct (changed found) eqn:Hc.
  - apply IH. eapply move_iter_remaining in Hm; [|done]. lia.
  - pose proof (raises_point (λ _, True) id I s1) as Hp.
    by destruct (point id s1).
Qed.

(** [move] returns or throws: the fuel it gives its loop is never used up. *)
Lemma move_returns id newpos (s : State) : move id newpos s ≠ OutOfFuel.
Proof.
  apply move_loop_fuel. unfold remaining, edge_ids.
  assert (size (list_to_set (e_id <$> edge_objs s) ∖ dom (tested_edges (walk_start newpos)) : gset K)
          ≤ size (list_to_set (e_id <$> edge_objs s) : gset K))
    by (apply subseteq_size; set_solver).
  pose proof (size_list_to_set_le (e_id <$> edge_objs s)) as Hl.
  rewrite length_fmap in Hl. lia.
Qed.

(** More fuel does not change what the loop returns. *)
Lemma move_loop_more_fuel fuel fuel' id (w : Walk) (s : State) :
  move_loop fuel id w s ≠ OutOfFuel → fuel ≤ fuel' →
  move_loop fuel' id w s = move_loop fuel id w s.
Proof.
  revert fuel' w s. induction fuel as [|fuel IH]; intros fuel' w s; [done|].
  destruct fuel' as [|fuel']; [lia|]. cbn. unfold mbind, M_bind.
  destruct (move_iter _ _ _) as [[w' found] s1| | |]; try done.
  destruct (changed found); [|done]. intros. apply IH; [done|lia].
Qed.

Lemma crossings_target id (w : Walk) (s : State) w' s' :
  crossings id w s w' s' → np w' = np w.
Proof.
  induction 1 as [|w s w1 s1 e f w2 s2 _ IH Hi]; [done|].
  apply move_iter_Ok in Hi as (? & ? & ? & ? & ? & ? & ? & ? & ? & ? & ? & ?).
  congruence.
Qed.

Lemma move_loop_step fuel id (w : Walk) (s : State) w' found s' :
  move_iter id w s = Ok (w', found) s' →
  changed found = true →
  move_loop (S fuel) id w s = move_loop fuel id w' s'.
Proof.
  intros Hi Hc. cbn. unfold mbind, M_bind. by rewrite Hi, Hc.
Qed.

(** C3: the counter [deadlock] is 0 in every state of the loop that a walk
    reaches, the guard [deadlock > 10] is false there, and neither the loop
    run from there nor [move] throws the deadlock error; the call ends
    within the iterations the model gives its loop. *)
Theorem move_never_deadlocks id newpos (s : State) w s1 :
  iterates id (walk_start newpos) s w s1 →
  deadlock w = 0%Z ∧
  (10 <? deadlock w)%Z = false ∧
  (∀ fuel s', move_loop fuel id w s1 ≠ Throw DeadlockError s') ∧
  (∀ s', move id newpos s ≠ Throw DeadlockError s') ∧
  move id newpos s ≠ OutOfFuel.
Proof.
  intros Hw. apply iterates_deadlock in Hw as Hd. cbn in Hd.
  rewrite Hd. split; [done|]. split; [done|]. split; [|split].
  - intros fuel s' Ht. by apply move_loop_Throw in Ht; [|lia].
  - intros s' Ht. by apply move_loop_Throw in Ht.
  - apply move_returns.
Qed.

(** C7: an iteration of the walk crosses an edge [e] to the face [f]
    exactly when the [for] loop stops at an entry [kkn] of
    [x → pa, y → pb, z → pc] whose component of the barycentric coordinates
    of the projected target is negative, [e] is the edge that
    [find_opposide_edge] gives for the vertex of the entry and was not tested
    in this walk, every entry before it has a component that is not negative
    or an edge that was tested, and [f] is the face on the other side of [e];
    it binds the point to [f] and keeps the target [np].  In that case [e]
    does not have the vertex of the entry, in a triangle it is the edge
    across from it, and the next iteration projects the same target, which
    is the [newpos] handed to [move] when the walk has only crossed edges so
    far. *)
Theorem move_crosses_opposite_edge id (w : Walk) (s : State) w' e f s' :
  (deadlock w ≤ 10)%Z →
  (move_iter id w s = Ok (w', Crossed e f) s' ↔
   ∃ p F projected bcpos kkn,
     points s !! id = Some p ∧
     face_objs s !! p_face p = Some F ∧
     located s (np w) (p_face p) projected bcpos ∧
     chosen s (p_face p) F bcpos (tested_edges w) vecnames_to_facenames
       kkn e (Some f) (tested_edges w') ∧
     np w' = np w ∧
     deadlock w' = deadlock w ∧
     s' = set_points
            <[id := mkNavmeshPoint (p_worldpos p) (p_bcpos p) (p_id p) f]>
            s) ∧
  (move_iter id w s = Ok (w', Crossed e f) s' →
   ∃ p F k kn,
     points s !! id = Some p ∧
     face_objs s !! p_face p = Some F ∧
     (k, kn) ∈ vecnames_to_facenames ∧
     opposite s F (fget F kn) e ∧
     (triangle s F → edge_across F kn = Some e) ∧
     points s' !! id =
       Some (mkNavmeshPoint (p_worldpos p) (p_bcpos p) (p_id p) f) ∧
     (∀ newpos s0, crossings id (walk_start newpos) s0 w s → np w' = newpos) ∧
     (∀ fuel, move_loop (S fuel) id w s = move_loop fuel id w' s')).
Proof.
  tidy. intros Hd. split; [split|].
  - intros Hi.
    pose proof (move_iter_Ok _ _ _ _ _ _ Hi)
      as (p & F & projected & bcpos & Hp & HF & Hl & ? & _ & [kkn Hch] & Hnp
          & ->).
    by exists p, F, projected, bcpos, kkn.
  - intros (p & F & projected & bcpos & kkn & Hp & HF & Hl & Hch & Hnp & Hdw
            & ->).
    unfold move_iter.
    erewrite (bind_Ok_eq (point id)); [|by apply point_Ok].
    erewrite (bind_Ok_eq (deref face_objs _)); [|by apply deref_Ok].
    erewrite (bind_Ok_eq (locate _ _)); [|by eapply locate_located].
    cbv beta iota.
    erewrite (bind_Ok_eq (scan _ _ _ _ _)); [|by eapply scan_chosen].
    cbv beta iota.
    unfold deadlock_check. cbn [deadlock].
    replace (10 <? deadlock w)%Z with false by lia.
    munfold. destruct w'; cbn in *. by subst.
  - intros Hi.
    pose proof (move_iter_Ok _ _ _ _ _ _ Hi)
      as (p & F & projected & bcpos & Hp & HF & Hl & _ & _ & [[k kn] Hch]
          & Hnp & ->).
    assert (opposite s F (fget F kn) e) as Hopp.
    { destruct Hch as (? & ? & ? & _ & _ & _ & Hfind & _).
      by eapply find_opposide_edge_Ok in Hfind as [_ Hfind]; eauto. }
    exists p, F, k, kn. split_and!; try done.
    + destruct Hch as (pre & post & _ & -> & _). set_solver.
    + intros Ht. by eapply opposite_triangle.
    + cbn. by rewrite lookup_insert_eq.
    + intros newpos s0 Hc%crossings_target. by rewrite Hnp, Hc.
    + intros fuel. by eapply move_loop_step.
Qed.

(** C8: an iteration of the walk clamps the target at an edge [e] exactly
    when the [for] loop stops at an entry whose edge [e] has no face on its
    other side.  The target [np] of the next iteration is [project_on_line]
    of the two ends of [e] and the projected target, nothing in the state is
    written, so the point stays bound to its face, and the loop goes on. *)
Theorem move_clamps_at_boundary id (w : Walk) (s : State) w' e s' :
  (deadlock w ≤ 10)%Z →
  (move_iter id w s = Ok (w', Noface e) s' ↔
   ∃ p F projected bcpos kkn E a A b B,
     points s !! id = Some p ∧
     face_objs s !! p_face p = Some F ∧
     located s (np w) (p_face p) projected bcpos ∧
     chosen s (p_face p) F bcpos (tested_edges w) vecnames_to_facenames
       kkn e None (tested_edges w') ∧
     edge_objs s !! e = Some E ∧
     e_a E = Some a ∧ vertex_objs s !! a = Some A ∧
     e_b E = Some b ∧ vertex_objs s !! b = Some B ∧
     np w' = project_on_line (pos A) (pos B) projected ∧
     deadlock w' = deadlock w ∧
     s' = s) ∧
  (move_iter id w s = Ok (w', Noface e) s' →
   ∃ p E,
     points s !! id = Some p ∧
     edge_objs s !! e = Some E ∧
     Edge_other E (p_face p) = None ∧
     points s' !! id = Some p ∧
     (∀ fuel, move_loop (S fuel) id w s = move_loop fuel id w' s')).
Proof.
  tidy. intros Hd. split; [split|].
  - intros Hi.
    pose proof (move_iter_Ok _ _ _ _ _ _ Hi)
      as (p & F & projected & bcpos & Hp & HF & Hl & ? & _ & [kkn Hch] & ->
          & E & a & A & b & B & HE & Ha & HA & Hb & HB & Hnp).
    by exists p, F, projected, bcpos, kkn, E, a, A, b, B.
  - intros (p & F & projected & bcpos & kkn & E & a & A & b & B & Hp & HF
            & Hl & Hch & HE & Ha & HA & Hb & HB & Hnp & Hdw & ->).
    unfold move_iter.
    erewrite (bind_Ok_eq (point id)); [|by apply point_Ok].
    erewrite (bind_Ok_eq (deref face_objs _)); [|by apply deref_Ok].
    erewrite (bind_Ok_eq (locate _ _)); [|by eapply locate_located].
    cbv beta iota.
    erewrite (bind_Ok_eq (scan _ _ _ _ _)); [|by eapply scan_chosen].
    cbv beta iota.
    erewrite (bind_Ok_eq (deref edge_objs _)); [|by apply deref_Ok].
    rewrite Ha, Hb. cbn [nonnull].
    erewrite (bind_Ok_eq (mret a)) by done.
    erewrite (bind_Ok_eq (deref vertex_objs _)); [|by apply deref_Ok].
    erewrite (bind_Ok_eq (mret b)) by done.
    erewrite (bind_Ok_eq (deref vertex_objs _)); [|by apply deref_Ok].
    unfold deadlock_check. cbn [deadlock].
    replace (10 <? deadlock w)%Z with false by lia.
    munfold. destruct w'; cbn in *. by subst.
  - intros Hi.
    pose proof (move_iter_Ok _ _ _ _ _ _ Hi)
      as (p & F & projected & bcpos & Hp & HF & Hl & _ & _ & [kkn Hch] & ->
          & E & a & A & b & B & HE & Ha & HA & Hb & HB & Hnp).
    exists p, E. split_and!; try done.
    + destruct Hch as (? & ? & E' & _ & _ & _ & _ & HE' & _ & _ & Ho).
      by simplify_eq.
    + intros fuel. by eapply move_loop_step.
Qed.

(** What [move] has stored when it returns: the coordinates of the last
    projection in the face the point is bound to, the position rebuilt from
    them and the three vertices of that face, and a component is negative
    only if the edge opposite its vertex had been tested. *)
Lemma move_loop_Ok fuel id (w : Walk) (s : State) v s' :
  move_loop fuel id w s = Ok v s' →
  ∃ w1 s1 w2 p F pa A pb B pc C projected,
    iterates id w s w1 s1 ∧
    move_iter id w1 s1 = Ok (w2, NoEdge) s' ∧
    points s' !! id = Some p ∧ v = p_worldpos p ∧
    face_objs s' !! p_face p = Some F ∧
    f_pa F = Some pa ∧ vertex_objs s' !! pa = Some A ∧
    f_pb F = Some pb ∧ vertex_objs s' !! pb = Some B ∧
    f_pc F = Some pc ∧ vertex_objs s' !! pc = Some C ∧
    located s' (np w1) (p_face p) projected (p_bcpos p) ∧
    p_worldpos p =
      barycentric_to_cartesian (pos A) (pos B) (pos C) (p_bcpos p) ∧
    Forall (passed s1 F (p_bcpos p) (tested_edges w1)) vecnames_to_facenames.
Proof.
  revert w s. induction fuel as [|fuel IH]; intros w s; [done|]. cbn.
  intros ([w' found] & s1 & Hi & Hrest)%bind_Ok.
  destruct (changed found) eqn:Hc.
  - apply IH in Hrest
      as (w1 & s2 & w2 & p & F & pa & A & pb & B & pc & C & pr & Hit & Hrest).
    exists w1, s2, w2, p, F, pa, A, pb, B, pc, C, pr. split; [|done].
    clear Hrest. induction Hit as [|? ? ? ? ? ? ? _ IH' Hi' Hc'].
    + eapply iterates_step; [apply iterates_refl|done..].
    + eapply iterates_step; [by apply IH'|done..].
  - destruct found; try done.
    apply bind_Ok in Hrest as (p' & ? & [Hp' ->]%point_Ok & [= <- <-]).
    pose proof (move_iter_Ok _ _ _ _ _ _ Hi)
      as (p & F & pr & bc & Hp & HF & Hl & _ & _ & _ & Hps & _
          & pa & A & pb & B & pc & C & ? & ? & ? & ? & ? & ? & ->).
    cbn in Hp'. rewrite lookup_insert_eq in Hp'. simplify_eq.
    eexists w, s, w', _, F, pa, A, pb, B, pc, C, pr.
    split; [apply iterates_refl|].
    split; [done|]. split; [cbn; by rewrite lookup_insert_eq|].
    split_and!; try done.
Qed.

(** ** A target inside the face of the point *)

Lemma scan_nothing_negative face (F : Face) bcpos tested ks (s : State) :
  (∀ k, lt0 (vget bcpos k) = false) →
  scan face F bcpos tested ks s = Ok (tested, NoEdge) s.
Proof.
  intros Hk. induction ks as [|[k kn] ks IH]; cbn; [done|].
  by rewrite Hk.
Qed.

(** When no barycentric coordinate of the projected target is negative in
    the face of the point, [move] commits in its first iteration: it stores
    these coordinates and the position rebuilt from them, and leaves the
    face. *)
Lemma move_inside_settles id newpos (s : State) p projected bcpos :
  points s !! id = Some p →
  located s newpos (p_face p) projected bcpos →
  (∀ k, lt0 (vget bcpos k) = false) →
  ∃ F pa A pb B pc C,
    face_objs s !! p_face p = Some F ∧
    f_pa F = Some pa ∧ vertex_objs s !! pa = Some A ∧
    f_pb F = Some pb ∧ vertex_objs s !! pb = Some B ∧
    f_pc F = Some pc ∧ vertex_objs s !! pc = Some C ∧
    let v := barycentric_to_cartesian (pos A) (pos B) (pos C) bcpos in
    move id newpos s
    = Ok v (set_points <[id := mkNavmeshPoint v bcpos (p_id p) (p_face p)]>
              s).
Proof.
  intros Hp (F & normal & pa & A & pb & B & pc & C & HF & Hn & Hpa & HA & Hpb
             & HB & Hpc & HC & -> & ->) Hk.
  exists F, pa, A, pb, B, pc, C. split_and!; try done.
  unfold move. cbn [move_loop].
  erewrite (bind_Ok_eq (move_iter id _)).
  2:{ unfold move_iter.
      erewrite (bind_Ok_eq (point id)); [|by apply point_Ok].
      erewrite (bind_Ok_eq (deref face_objs _)); [|by apply deref_Ok].
      erewrite (bind_Ok_eq (locate _ _)).
      2:{ unfold locate. rewrite Hn, Hpa, Hpb, Hpc. cbn [nonnull].
          unfold mbind, M_bind, mret, M_ret, deref.
          by rewrite HA, HB, HC. }
      cbn beta iota.
      erewrite (bind_Ok_eq (scan _ _ _ _ _)) by by apply scan_nothing_negative.
      cbn beta iota.
      rewrite (bind_Ok_eq (modify _) _ s () _) by done.
      erewrite (bind_Ok_eq (point id));
        [|apply point_Ok; split; [cbn; apply lookup_insert_eq|done]].
      erewrite (bind_Ok_eq (deref face_objs _)); [|by apply deref_Ok].
      cbn [p_face p_bcpos p_id]. rewrite Hpa, Hpb, Hpc. cbn [nonnull].
      erewrite (bind_Ok_eq (mret pa)) by done.
      erewrite (bind_Ok_eq (deref vertex_objs pa)); [|by apply deref_Ok].
      erewrite (bind_Ok_eq (mret pb)) by done.
      erewrite (bind_Ok_eq (deref vertex_objs pb)); [|by apply deref_Ok].
      erewrite (bind_Ok_eq (mret pc)) by done.
      erewrite (bind_Ok_eq (deref vertex_objs pc)); [|by apply deref_Ok].
      erewrite (bind_Ok_eq (modify _)) by done.
      erewrite (bind_Ok_eq (deadlock_check _)) by done.
      reflexivity. }
  cbn beta iota. cbn [changed].
  erewrite (bind_Ok_eq (point id));
    [|apply point_Ok; split; [cbn; apply lookup_insert_eq|done]].
  unfold mret, M_ret. f_equal.
  unfold set_points; cbn. by rewrite insert_insert_eq.
Qed.

(** After such a [move], the same [move] once more changes nothing. *)
Lemma move_settled_again id newpos (s : State) p projected bcpos v s' :
  points s !! id = Some p →
  located s newpos (p_face p) projected bcpos →
  (∀ k, lt0 (vget bcpos k) = false) →
  move id newpos s = Ok v s' →
  move id newpos s' = Ok v s'.
Proof.
  intros Hp Hl Hk Hm.
  destruct (move_inside_settles id newpos s p projected bcpos Hp Hl Hk)
    as (F & pa & A & pb & B & pc & C & HF & Hpa & HA & Hpb & HB & Hpc & HC
        & Hm').
  cbn zeta in Hm'. rewrite Hm' in Hm. injection Hm as <- <-.
  set (v := barycentric_to_cartesian (pos A) (pos B) (pos C) bcpos) in *.
  set (p' := mkNavmeshPoint v bcpos (p_id p) (p_face p)).
  destruct (move_inside_settles id newpos (set_points <[id := p']> s) p'
              projected bcpos)
    as (F2 & pa2 & A2 & pb2 & B2 & pc2 & C2 & HF2 & Hpa2 & HA2 & Hpb2 & HB2
        & Hpc2 & HC2 & Hm2); [cbn; apply lookup_insert_eq|exact Hl|done|].
  cbn in HF2, HA2, HB2, HC2. simplify_eq.
  cbn zeta in Hm2. rewrite Hm2. fold v. f_equal.
  unfold set_points; cbn. by rewrite insert_insert_eq.
Qed.

(** ** build *)

Lemma incident_le_2 (E : Edge) : incident E ≤ 2.
Proof. unfold incident. repeat case_match; lia. Qed.

Lemma incident_at_le_2 (s : State) e : incident_at s e ≤ 2.
Proof.
  unfold incident_at. destruct (edge_objs s !! e); cbn; [|lia].
  apply incident_le_2.
Qed.

Lemma extends_refl (s : State) : extends s s.
Proof. unfold extends; split_and!; done. Qed.

Lemma extends_trans (s1 s2 s3 : State) :
  extends s1 s2 → extends s2 s3 → extends s1 s3.
Proof.
  intros (? & ? & ? & Hi & ? & ? & ? & ? & ? & ?)
    (? & ? & ? & Hi' & ? & ? & ? & ? & ? & ?).
  unfold extends; split_and!; try (by etrans); try lia; try congruence.
  intros e. specialize (Hi e). specialize (Hi' e). lia.
Qed.

(** [Edge.add] on an edge of the heap fills a free slot, or throws on an
    edge that holds two faces and writes nothing. *)
Lemma Edge_add_outcome e f (s : State) :
  e < length (edge_objs s) →
  (∃ s', Edge_add e f s = Ok () s' ∧
         incident_at s' e = S (incident_at s e) ∧
         (∀ e', e' ≠ e → incident_at s' e' = incident_at s e') ∧
         length (edge_objs s') = length (edge_objs s) ∧
         vertex_objs s' = vertex_objs s ∧ face_objs s' = face_objs s ∧
         verticies s' = verticies s ∧ edges s' = edges s ∧
         faces s' = faces s ∧ points s' = points s ∧ guids s' = guids s) ∨
  (Edge_add e f s = Throw EdgeAddError s ∧ incident_at s e = 2).
Proof.
  intros He. apply lookup_lt_is_Some_2 in He as [E HE].
  unfold Edge_add, incident_at. munfold. rewrite HE. cbn.
  destruct (e_left E) eqn:Hl, (e_right E) eqn:Hr.
  - right. unfold incident. by rewrite Hl, Hr.
  - left. eexists. split; [done|]. cbn.
    rewrite list_lookup_insert_eq by by eapply lookup_lt_Some.
    unfold incident; cbn. rewrite Hl, Hr, length_insert.
    split_and!; try done. intros e' ?. by rewrite list_lookup_insert_ne.
  - left. eexists. split; [done|]. cbn.
    rewrite list_lookup_insert_eq by by eapply lookup_lt_Some.
    unfold incident; cbn. rewrite Hl, Hr, length_insert.
    split_and!; try done. intros e' ?. by rewrite list_lookup_insert_ne.
  - left. eexists. split; [done|]. cbn.
    rewrite list_lookup_insert_eq by by eapply lookup_lt_Some.
    unfold incident; cbn. rewrite Hl, Hr, length_insert.
    split_and!; try done. intros e' ?. by rewrite list_lookup_insert_ne.
Qed.

Lemma incident_at_app (s : State) (E : Edge) e :
  incident E = 0 →
  from_option incident 0 ((edge_objs s ++ [E]) !! e) = incident_at s e.
Proof.
  intros HE. unfold incident_at.
  destruct (decide (e < length (edge_objs s))).
  - by rewrite lookup_app_l.
  - rewrite lookup_app_r by lia. rewrite (lookup_ge_None_2 (edge_objs s)) by lia.
    destruct (e - length (edge_objs s)); by cbn.
Qed.

Lemma vertex_of_outcome p pid (s : State) :
  tables_ok s →
  ∃ v s', vertex_of p pid s = Ok v s' ∧ tables_ok s' ∧ extends s s' ∧
          verticies s' !! pid = Some v ∧ v < length (vertex_objs s') ∧
          faces s' = faces s ∧ edge_objs s' = edge_objs s ∧
          edges s' = edges s.
Proof.
  intros [Hv He]. unfold vertex_of, new_Vertex. munfold. cbn.
  destruct (verticies s !! pid) as [v|] eqn:Hpid.
  - exists v, s. split_and!; try done; try apply extends_refl.
    by eapply Hv.
  - eexists _, _. split; [done|]. cbn. split_and!; try done.
    + split; cbn; [|done]. intros pid' v'. rewrite length_app. cbn.
      intros [[-> <-]|[_ ?%Hv]]%lookup_insert_Some; lia.
    + unfold extends; cbn. split_and!; try done.
      * by apply insert_subseteq.
      * rewrite length_app. lia.
      * by apply prefix_app_r.
    + by rewrite lookup_insert_eq.
    + rewrite length_app. cbn. lia.
Qed.

Lemma edge_of_outcome k a b (s : State) :
  tables_ok s →
  a < length (vertex_objs s) → b < length (vertex_objs s) →
  ∃ e s', edge_of k a b s = Ok e s' ∧ tables_ok s' ∧ extends s s' ∧
          edges s' !! k = Some e ∧ e < length (edge_objs s') ∧
          vertex_objs s' = vertex_objs s ∧ verticies s' = verticies s ∧
          faces s' = faces s ∧ (∀ e', incident_at s' e' = incident_at s e').
Proof.
  intros [Hv He] [A HA]%lookup_lt_is_Some_2 [B HB]%lookup_lt_is_Some_2.
  unfold edge_of, new_Edge. munfold. cbn.
  destruct (edges s !! k) as [e|] eqn:Hk.
  - exists e, s. split_and!; try done; try apply extends_refl.
    by eapply He.
  - rewrite HA, HB. eexists _, _. split; [done|]. cbn. split_and!; try done.
    + split; cbn; [done|]. intros k' e'. rewrite length_app. cbn.
      intros [[-> <-]|[_ ?%He]]%lookup_insert_Some; lia.
    + unfold extends; cbn. split_and!; try done.
      * by apply insert_subseteq.
      * intros e'. unfold incident_at at 2. cbn. by rewrite incident_at_app.
      * rewrite length_app. lia.
    + by rewrite lookup_insert_eq.
    + rewrite length_app. cbn. lia.
    + intros e'. unfold incident_at at 1. cbn. by rewrite incident_at_app.
Qed.

(** The constructor of [Face] gives each of its three edges one more face,
    or throws out of [Edge.add] with the edges before the full one already
    holding the new face. *)
Lemma new_Face_outcome id pa pb pc ea eb ec (s : State) :
  pa < length (vertex_objs s) → pb < length (vertex_objs s) →
  pc < length (vertex_objs s) →
  ea < length (edge_objs s) → eb < length (edge_objs s) →
  ec < length (edge_objs s) →
  ∃ s',
    (new_Face id pa pb pc ea eb ec s = Ok (length (face_objs s)) s' ∧
       S (incident_at s ea) ≤ incident_at s' ea ∧
       S (incident_at s eb) ≤ incident_at s' eb ∧
       S (incident_at s ec) ≤ incident_at s' ec ∧
       complete s' (length (face_objs s)) ∨
     new_Face id pa pb pc ea eb ec s = Throw EdgeAddError s') ∧
    (∀ e, incident_at s e ≤ incident_at s' e) ∧
    length (edge_objs s') = length (edge_objs s) ∧
    vertex_objs s' = vertex_objs s ∧ verticies s' = verticies s ∧
    edges s' = edges s ∧ faces s' = faces s ∧
    points s' = points s ∧ guids s' = guids s ∧
    face_objs s `prefix_of` face_objs s'.
Proof.
  intros [A HA]%lookup_lt_is_Some_2 [B HB]%lookup_lt_is_Some_2
    [C HC]%lookup_lt_is_Some_2 Hea Heb Hec.
  unfold new_Face.
  set (F := mkFace _ _ _ _ _ _ _ _).
  set (s0 := set_face_objs (λ l, l ++ [F]) s).
  rewrite (bind_Ok_eq (alloc_f F) _ s (length (face_objs s)) s0) by done.
  assert (∀ e, incident_at s0 e = incident_at s e) as H0 by done.
  assert (vertex_objs s0 = vertex_objs s ∧ edge_objs s0 = edge_objs s ∧
          verticies s0 = verticies s ∧ edges s0 = edges s ∧
          faces s0 = faces s ∧ face_objs s0 = face_objs s ++ [F] ∧
          points s0 = points s ∧ guids s0 = guids s)
    as (? & He0 & ? & ? & ? & Hf0 & ? & ?) by done.
  clearbody s0.
  destruct (Edge_add_outcome ea (length (face_objs s)) s0)
    as [(s1 & E1 & Ha1 & Hn1 & Hl1 & Hv1 & Hf1 & Ht1 & Hk1 & Hfs1 & Hp1
         & Hg1)|[E1 _]]; [by rewrite He0| |]; cycle 1.
  { exists s0. rewrite (bind_Throw_eq _ _ _ _ _ E1). split; [by right|].
    split_and!; try congruence.
    - intros e. by rewrite H0.
    - rewrite Hf0. by apply prefix_app_r. }
  rewrite (bind_Ok_eq _ _ _ _ _ E1).
  assert (∀ e, incident_at s e ≤ incident_at s1 e) as Hm1.
  { intros e. rewrite <-H0. destruct (decide (e = ea)) as [->|];
      [rewrite Ha1|rewrite Hn1 by done]; lia. }
  destruct (Edge_add_outcome eb (length (face_objs s)) s1)
    as [(s2 & E2 & Ha2 & Hn2 & Hl2 & Hv2 & Hf2 & Ht2 & Hk2 & Hfs2 & Hp2
         & Hg2)|[E2 _]]; [by rewrite Hl1, He0| |]; cycle 1.
  { exists s1. rewrite (bind_Throw_eq _ _ _ _ _ E2). split; [by right|].
    split_and!; try congruence; [done|].
    rewrite Hf1, Hf0. by apply prefix_app_r. }
  rewrite (bind_Ok_eq _ _ _ _ _ E2).
  assert (∀ e, incident_at s1 e ≤ incident_at s2 e) as Hm2.
  { intros e. destruct (decide (e = eb)) as [->|];
      [rewrite Ha2|rewrite Hn2 by done]; lia. }
  destruct (Edge_add_outcome ec (length (face_objs s)) s2)
    as [(s3 & E3 & Ha3 & Hn3 & Hl3 & Hv3 & Hf3 & Ht3 & Hk3 & Hfs3 & Hp3
         & Hg3)|[E3 _]]; [by rewrite Hl2, Hl1, He0| |]; cycle 1.
  { exists s2. rewrite (bind_Throw_eq _ _ _ _ _ E3). split; [by right|].
    split_and!; try congruence.
    - intros e. specialize (Hm1 e). specialize (Hm2 e). lia.
    - rewrite Hf2, Hf1, Hf0. by apply prefix_app_r. }
  rewrite (bind_Ok_eq _ _ _ _ _ E3).
  assert (∀ e, incident_at s2 e ≤ incident_at s3 e) as Hm3.
  { intros e. destruct (decide (e = ec)) as [->|];
      [rewrite Ha3|rewrite Hn3 by done]; lia. }
  assert (vertex_objs s3 = vertex_objs s) as Hv by congruence.
  assert (face_objs s3 = face_objs s ++ [F]) as Hf by congruence.
  assert (length (edge_objs s3) = length (edge_objs s)) as Hl by congruence.
  rewrite (bind_Ok_eq (deref vertex_objs pa) _ s3 A s3)
    by (apply deref_Ok; by rewrite Hv).
  rewrite (bind_Ok_eq (deref vertex_objs pb) _ s3 B s3)
    by (apply deref_Ok; by rewrite Hv).
  rewrite (bind_Ok_eq (deref vertex_objs pc) _ s3 C s3)
    by (apply deref_Ok; by rewrite Hv).
  rewrite (bind_Ok_eq (deref face_objs _) _ s3 F s3)
    by (apply deref_Ok; by rewrite Hf, lookup_app_r, Nat.sub_diag by lia).
  munfold. cbn [f_id f_pa f_pb f_pc f_ea f_eb f_ec F].
  set (F1 := mkFace _ _ _ _ _ _ _ _).
  assert (<[length (face_objs s) := F1]> (face_objs s3) = face_objs s ++ [F1])
    as Hins.
  { rewrite Hf, insert_app_r_alt, Nat.sub_diag by lia. done. }
  eexists. split; [left; split; [done|]|].
  - unfold incident_at in *. cbn.
    pose proof (Hm1 ea). pose proof (Hm2 ea). pose proof (Hm3 ea).
    pose proof (Hm1 eb). pose proof (Hm2 eb). pose proof (Hm3 eb).
    pose proof (Hm1 ec). pose proof (Hm2 ec). pose proof (Hm3 ec).
    specialize (H0 ea). cbn in *. split_and!; try lia.
    exists F1, (triangle_normal (pos A) (pos B) (pos C)), pa, A, pb, B, pc,
      C, ea, eb, ec.
    cbn. rewrite Hins, lookup_app_r, Nat.sub_diag, Hv, Hl by lia.
    by split_and!.
  - unfold incident_at in *. cbn. rewrite Hins. split_and!; try congruence.
    + intros e. specialize (Hm1 e). specialize (Hm2 e). specialize (Hm3 e).
      lia.
    + by apply prefix_app_r.
Qed.

Lemma assoc_set_keys (k : K) v (l : list (K * nat)) :
  l.*1 ⊆ (assoc_set k v l).*1.
Proof.
  tidy. induction l as [|[k' v'] l IH]; cbn; [set_solver|].
  destruct (decide (k = k')) as [->|]; cbn; set_solver.
Qed.

Lemma incident_at_edge_objs (s s' : State) e :
  edge_objs s' = edge_objs s → incident_at s' e = incident_at s e.
Proof. unfold incident_at. by intros ->. Qed.

Lemma complete_extends (s s' : State) f :
  extends s s' → complete s f → complete s' f.
Proof.
  intros (_ & _ & _ & _ & _ & Hl & _ & _ & Hv & Hf)
    (F & normal & pa & A & pb & B & pc & C & ea & eb & ec & HF & ? & ? & HA
     & ? & HB & ? & HC & ? & ? & ? & ? & ? & ?).
  exists F, normal, pa, A, pb, B, pc, C, ea, eb, ec.
  split_and!; try done; try lia.
  all: by eapply prefix_lookup_Some.
Qed.

Lemma complete_lt (s : State) f : complete s f → f < length (face_objs s).
Proof. intros (F & ? & ? & ? & ? & ? & ? & ? & ? & ? & ? & HF & _). by eapply lookup_lt_Some. Qed.

Lemma assoc_set_refs (k : K) v (l : list (K * nat)) (P : nat → Prop) :
  Forall P l.*2 → NoDup l.*2 → P v → v ∉ l.*2 →
  Forall P (assoc_set k v l).*2 ∧ NoDup (assoc_set k v l).*2.
Proof.
  intros HP Hnd Hv Hnin. induction l as [|[k' v'] l IH]; cbn in *.
  { split; [by constructor|]. apply NoDup_singleton. }
  apply Forall_cons in HP as [? ?]. apply NoDup_cons in Hnd as [? ?].
  apply not_elem_of_cons in Hnin as [? ?].
  destruct (decide (k = k')) as [->|]; cbn.
  - split; [by constructor|]. by apply NoDup_cons.
  - destruct IH as [IH1 IH2]; try done. split; [by constructor|].
    apply NoDup_cons. split; [|done]. intros Hin.
    assert (∀ x, x ∈ (assoc_set k v l).*2 → x = v ∨ x ∈ l.*2) as Hsub.
    { clear. induction l as [|[k2 v2] l IH]; cbn; [set_solver|].
      destruct (decide (k = k2)); cbn; set_solver. }
    apply Hsub in Hin as [->|?]; done.
Qed.

Lemma faces_ok_extends (s s' : State) :
  extends s s' → faces s' = faces s → faces_ok s → faces_ok s'.
Proof.
  intros Hx Hf [Hc Hnd]. unfold faces_ok. rewrite Hf. split; [|done].
  eapply Forall_impl; [done|]. intros f. by apply complete_extends.
Qed.

(** One round of the loop of [build] on tables that point into the heap:
    the three edges of the triangle each take one more face, or the
    constructor of the face throws before the face reaches the table. *)
Lemma build_triangle_outcome p p1 p2 p3 (s : State) :
  tables_ok s →
  ∃ s',
    ((build_triangle p (p1, p2, p3) s = Ok () s' ∧
      ∀ k, k ∈ [edge_key p1 p2; edge_key p2 p3; edge_key p3 p1] →
           ∃ e, edges s' !! k = Some e ∧
                S (incident_at s e) ≤ incident_at s' e) ∨
     (build_triangle p (p1, p2, p3) s = Throw EdgeAddError s' ∧
      faces s' = faces s)) ∧
    tables_ok s' ∧ extends s s' ∧
    (∀ pid, pid ∈ [p1; p2; p3] → is_Some (verticies s' !! pid)) ∧
    (∀ k, k ∈ [edge_key p1 p2; edge_key p2 p3; edge_key p3 p1] →
          is_Some (edges s' !! k)) ∧
    (faces_ok s → faces_ok s').
Proof.
  intros Hok. unfold build_triangle.
  destruct (vertex_of_outcome p p1 s Hok)
    as (v1 & s1 & E1 & Hok1 & Hx1 & Hv1 & Hl1 & Hf1 & Ho1 & Hk1).
  rewrite (bind_Ok_eq _ _ _ _ _ E1).
  destruct (vertex_of_outcome p p2 s1 Hok1)
    as (v2 & s2 & E2 & Hok2 & Hx2 & Hv2 & Hl2 & Hf2 & Ho2 & Hk2).
  rewrite (bind_Ok_eq _ _ _ _ _ E2).
  destruct (vertex_of_outcome p p3 s2 Hok2)
    as (v3 & s3 & E3 & Hok3 & Hx3 & Hv3 & Hl3 & Hf3 & Ho3 & Hk3).
  rewrite (bind_Ok_eq _ _ _ _ _ E3).
  assert (v1 < length (vertex_objs s3) ∧ v2 < length (vertex_objs s3))
    as [Hl1' Hl2'].
  { destruct Hx2 as (_ & _ & _ & _ & ? & _), Hx3 as (_ & _ & _ & _ & ? & _).
    lia. }
  destruct (edge_of_outcome (edge_key p1 p2) v1 v2 s3 Hok3 Hl1' Hl2')
    as (e1 & s4 & E4 & Hok4 & Hx4 & He1 & Hle1 & Ho4 & Ht4 & Hf4 & Hi4).
  fold (edge_key p1 p2). rewrite (bind_Ok_eq _ _ _ _ _ E4).
  rewrite <-Ho4 in Hl1', Hl2', Hl3.
  destruct (edge_of_outcome (edge_key p2 p3) v2 v3 s4 Hok4 Hl2' Hl3)
    as (e2 & s5 & E5 & Hok5 & Hx5 & He2 & Hle2 & Ho5 & Ht5 & Hf5 & Hi5).
  fold (edge_key p2 p3). rewrite (bind_Ok_eq _ _ _ _ _ E5).
  rewrite <-Ho5 in Hl1', Hl2', Hl3.
  destruct (edge_of_outcome (edge_key p3 p1) v3 v1 s5 Hok5 Hl3 Hl1')
    as (e3 & s6 & E6 & Hok6 & Hx6 & He3 & Hle3 & Ho6 & Ht6 & Hf6 & Hi6).
  fold (edge_key p3 p1). rewrite (bind_Ok_eq _ _ _ _ _ E6).
  rewrite <-Ho6 in Hl1', Hl2', Hl3.
  assert (edges s6 !! edge_key p1 p2 = Some e1 ∧
          edges s6 !! edge_key p2 p3 = Some e2) as [He1' He2'].
  { destruct Hx5 as (_ & Hs5 & _), Hx6 as (_ & Hs6 & _). split.
    - eapply lookup_weaken, Hs6. eapply lookup_weaken, Hs5. done.
    - eapply lookup_weaken, Hs6. done. }
  assert (e1 < length (edge_objs s6) ∧ e2 < length (edge_objs s6))
    as [Hle1' Hle2'].
  { destruct Hx5 as (_ & _ & _ & _ & _ & ? & _), Hx6 as (_ & _ & _ & _ & _ & ? & _).
    lia. }
  assert (extends s s6) as Hx.
  { eapply extends_trans, Hx6. eapply extends_trans, Hx5.
    eapply extends_trans, Hx4. eapply extends_trans, Hx3.
    eapply extends_trans, Hx2. done. }
  assert (∀ pid, pid ∈ [p1; p2; p3] → is_Some (verticies s6 !! pid)) as Hvs.
  { destruct Hx2 as (Hs2 & _), Hx3 as (Hs3 & _). rewrite Ht6, Ht5, Ht4.
    intros pid [->|[->|[->|[]%elem_of_nil]%elem_of_cons]%elem_of_cons]%elem_of_cons;
      eexists.
    - eapply lookup_weaken, Hs3. eapply lookup_weaken, Hs2. done.
    - eapply lookup_weaken, Hs3. done.
    - done. }
  assert (∀ e, incident_at s6 e = incident_at s e) as Hi.
  { intros e. rewrite Hi6, Hi5, Hi4.
    rewrite (incident_at_edge_objs s2 s3), (incident_at_edge_objs s1 s2) by done.
    by apply incident_at_edge_objs. }
  destruct (new_Face_outcome (_hash (p1 * 3)%N (p2 * 3)%N (Some (p3 * 3)%N))
              v1 v2 v3 e1 e2 e3 s6)
    as (s7 & Hnf & Hm & Hle & Ho7 & Ht7 & Hk7 & Hf7 & Hp7 & Hg7 & Hpre7);
    try done.
  assert (tables_ok s7) as Hok7.
  { destruct Hok6 as [Hv He]. split.
    - intros pid v. rewrite Ht7, Ho7. apply Hv.
    - intros k e. rewrite Hk7, Hle. apply He. }
  assert (extends s s7) as Hx7.
  { eapply extends_trans; [exact Hx|]. unfold extends.
    split_and!; try done.
    all: by rewrite ?Ht7, ?Hk7, ?Hf7, ?Ho7, ?Hle, ?Hp7, ?Hg7. }
  assert (faces s7 = faces s) as Hfs7 by congruence.
  destruct Hnf as [(E7 & Ha & Hb & Hc & Hnew)|E7].
  - rewrite (bind_Ok_eq _ _ _ _ _ E7). eexists. split; [left; split; [done|]|].
    + cbn. rewrite Hk7.
      intros k [->|[->|[->|[]%elem_of_nil]%elem_of_cons]%elem_of_cons]%elem_of_cons.
      * exists e1. split; [done|]. by rewrite <-Hi.
      * exists e2. split; [done|]. by rewrite <-Hi.
      * exists e3. split; [done|]. by rewrite <-Hi.
    + split_and!.
      * done.
      * eapply extends_trans; [exact Hx7|]. unfold extends; cbn.
        split_and!; try done. apply assoc_set_keys.
      * cbn. by rewrite Ht7.
      * cbn. rewrite Hk7.
        intros k [->|[->|[->|[]%elem_of_nil]%elem_of_cons]%elem_of_cons]%elem_of_cons;
          by eexists.
      * intros Hfok.
        pose proof (faces_ok_extends s s7 Hx7 Hfs7 Hfok) as [Hc7 Hnd7].
        unfold faces_ok. cbn [faces set_faces].
        apply (assoc_set_refs _ _ _ (complete s7)); try done.
        rewrite Hfs7. intros Hin. destruct Hfok as [Hcs _].
        eapply Forall_forall in Hcs; [|done]. apply complete_lt in Hcs.
        destruct Hx as (_ & _ & _ & _ & _ & _ & _ & _ & _ & Hpre).
        apply prefix_length in Hpre. lia.
  - rewrite (bind_Throw_eq _ _ _ _ _ E7). exists s7. split; [right|].
    + split; [done|]. congruence.
    + split_and!; try done.
      * by rewrite Ht7.
      * rewrite Hk7.
        intros k [->|[->|[->|[]%elem_of_nil]%elem_of_cons]%elem_of_cons]%elem_of_cons;
          by eexists.
      * by apply faces_ok_extends.
Qed.

Lemma references_key p1 p2 p3 a b :
  (∀ x y, _hash x y None = _hash y x None) →
  references (p1, p2, p3) a b = true →
  edge_key a b ∈ [edge_key p1 p2; edge_key p2 p3; edge_key p3 p1].
Proof.
  tidy.
  intros Hsym Hr. unfold references in Hr. apply bool_decide_eq_true in Hr.
  unfold edge_key.
  repeat (apply elem_of_cons in Hr as [[= -> ->]|Hr]; [set_solver|]);
    [by apply elem_of_nil in Hr|..].
  all: rewrite (Hsym (a * 3)%N); set_solver.
Qed.

Lemma build_loop_cons p t ts (s : State) :
  build_loop p (t :: ts) s = (build_triangle p t ≫= λ _, build_loop p ts) s.
Proof. done. Qed.

Lemma build_loop_Ok p ts (s : State) s' :
  tables_ok s → build_loop p ts s = Ok () s' →
  tables_ok s' ∧ extends s s' ∧ (faces_ok s → faces_ok s').
Proof.
  revert s. induction ts as [|[[p1 p2] p3] ts IH]; intros s Hok.
  { intros [= <-]. split; [done|]. split; [apply extends_refl|done]. }
  rewrite build_loop_cons. intros (? & s1 & E1 & E2)%bind_Ok.
  destruct (build_triangle_outcome p p1 p2 p3 s Hok)
    as (s1' & [[E _]|[E _]] & Hok1 & Hx1 & _ & _ & Hf1); [|congruence].
  assert (s1' = s1) as -> by congruence.
  apply IH in E2 as (? & ? & ?); [|done]. split; [done|].
  split; [by eapply extends_trans|auto].
Qed.

(** A build that throws has built the triangles before the one whose
    constructor threw. *)
Lemma build_loop_Throw p ts (s : State) e s' :
  build_loop p ts s = Throw e s' →
  ∃ pre t post s1,
    ts = pre ++ t :: post ∧
    build_loop p pre s = Ok () s1 ∧
    build_triangle p t s1 = Throw e s'.
Proof.
  revert s. induction ts as [|t ts IH]; intros s; [done|].
  rewrite build_loop_cons. intros [E|([] & s1 & E1 & E2)]%bind_Throw.
  - by exists [], t, ts, s.
  - apply IH in E2 as (pre & t' & post & s2 & -> & Epre & Et).
    exists (t :: pre), t', post, s2. split; [done|]. split; [|done].
    by rewrite build_loop_cons, (bind_Ok_eq _ _ _ _ _ E1).
Qed.

Lemma build_loop_sharing p a b ts (s : State) c :
  (∀ x y, _hash x y None = _hash y x None) →
  tables_ok s →
  c = 0 ∨ (∃ e, edges s !! edge_key a b = Some e ∧ c ≤ incident_at s e) →
  3 ≤ c + sharing ts a b →
  ∃ pre t post s1 s',
    ts = pre ++ t :: post ∧
    c + sharing pre a b < 3 ∧
    build_loop p pre s = Ok () s1 ∧
    build_triangle p t s1 = Throw EdgeAddError s' ∧
    build_loop p ts s = Throw EdgeAddError s'.
Proof.
  intros Hsym. revert s c.
  induction ts as [|[[p1 p2] p3] ts IH]; intros s c Hok Hc Hn;
    cbn [sharing] in *.
  { destruct Hc as [->|(e & _ & Hc)]; [lia|].
    pose proof (incident_at_le_2 s e). lia. }
  assert (c < 3) as Hc3.
  { destruct Hc as [->|(e & _ & Hc)]; [lia|].
    pose proof (incident_at_le_2 s e). lia. }
  destruct (build_triangle_outcome p p1 p2 p3 s Hok)
    as (s1 & [[E Hinc]|[E _]] & Hok1 & Hx1 & _); cycle 1.
  { exists [], (p1, p2, p3), ts, s, s1. split_and!; try done.
    - cbn. lia.
    - by rewrite build_loop_cons, (bind_Throw_eq _ _ _ _ _ E). }
  set (c' := c + (if references (p1, p2, p3) a b then 1 else 0)).
  destruct (IH s1 c') as (pre & t & post & s2 & s' & -> & Hlt & Epre & Et & Ets).
  - done.
  - destruct Hx1 as (_ & Hedges & _ & Hmono & _).
    destruct (references (p1, p2, p3) a b) eqn:Hr.
    + right. apply references_key in Hr; [|done].
      apply Hinc in Hr as (e & He & Hi). exists e. split; [done|].
      destruct Hc as [->|(e0 & He0 & Hc)]; [unfold c'; lia|].
      eapply lookup_weaken in He0; [|done]. simplify_eq. unfold c'. lia.
    + destruct Hc as [->|(e0 & He0 & Hc)]; [by left|right].
      exists e0. split; [by eapply lookup_weaken|].
      specialize (Hmono e0). unfold c'. lia.
  - unfold c'. lia.
  - exists ((p1, p2, p3) :: pre), t, post, s2, s'. split_and!; try done.
    + cbn [sharing]. unfold c' in Hlt. lia.
    + by rewrite build_loop_cons, (bind_Ok_eq _ _ _ _ _ E).
    + by rewrite build_loop_cons, (bind_Ok_eq _ _ _ _ _ E).
Qed.

(** C4: a mesh in which three or more triangles have the edge between [a]
    and [b].  The build throws the error of [Edge.add]: it builds the
    triangles before some triangle [t], of which fewer than three have the
    edge, the constructor of the face of [t] throws, and nothing catches the
    error or skips the triangle.  No edge holds more than two faces. *)
Theorem build_rejects_third_face p ts a b (s : State) :
  (∀ x y, _hash x y None = _hash y x None) →
  tables_ok s →
  3 ≤ sharing ts a b →
  ∃ pre t post s1 s',
    ts = pre ++ t :: post ∧
    sharing pre a b < 3 ∧
    build_loop p pre s = Ok () s1 ∧
    build_triangle p t s1 = Throw EdgeAddError s' ∧
    build (mkMesh ts p) s = Throw EdgeAddError s' ∧
    (∀ e, incident_at s1 e ≤ 2 ∧ incident_at s' e ≤ 2).
Proof.
  intros Hsym Hok Hn.
  destruct (build_loop_sharing p a b ts s 0 Hsym Hok)
    as (pre & t & post & s1 & s' & ? & ? & ? & ? & ?); [by left|done|].
  exists pre, t, post, s1, s'. split_and!; try done.
  intros e. split; apply incident_at_le_2.
Qed.

(** *** A build that fails *)

(** [Edge.add] returns on an edge with a free side, which takes the face,
    and throws on an edge that holds two faces, which it leaves alone. *)
Lemma Edge_add_Ok e f (s : State) u s' :
  Edge_add e f s = Ok u s' →
  ∃ E, edge_objs s !! e = Some E ∧
       s' = set_edge_objs (λ l, <[e := Edge_added f E]> l) s.
Proof.
  tidy. unfold Edge_add. munfold.
  destruct (edge_objs s !! e) as [E|] eqn:HE; [|done]. cbn.
  destruct (e_left E) eqn:Hl, (e_right E) eqn:Hr; intros [= <-]; exists E;
    unfold Edge_added; by rewrite Hl, ?Hr.
Qed.

Lemma Edge_add_Throw e f (s : State) x s' :
  Edge_add e f s = Throw x s' →
  x = EdgeAddError ∧ s' = s ∧ incident_at s e = 2.
Proof.
  tidy. unfold Edge_add, incident_at, incident. munfold.
  destruct (edge_objs s !! e) as [E|] eqn:HE; [|done]. cbn.
  destruct (e_left E), (e_right E); by intros [= <- <-].
Qed.

Lemma Edge_added_holds f (E : Edge) :
  e_left (Edge_added f E) = Some f ∨ e_right (Edge_added f E) = Some f.
Proof. tidy. unfold Edge_added. destruct (e_left E); cbn; auto. Qed.

(** The constructor of [Face] throws out of an [Edge.add] only.  The face is
    on the heap by then, without a normal; the edges before the one that
    threw hold it, and the other edges are as they were. *)
Lemma new_Face_Throw id pa pb pc ea eb ec (s : State) x s' :
  new_Face id pa pb pc ea eb ec s = Throw x s' →
  x = EdgeAddError ∧
  face_objs s' = face_objs s ++ [mkFace id (Some pa) (Some pb) (Some pc)
                                   (Some ea) (Some eb) (Some ec) None] ∧
  (∃ added full rest,
     [ea; eb; ec] = added ++ full :: rest ∧
     incident_at s' full = 2 ∧
     (∀ e, e ∈ added →
           ∃ E, edge_objs s' !! e = Some E ∧
                (e_left E = Some (length (face_objs s)) ∨
                 e_right E = Some (length (face_objs s)))) ∧
     (∀ e, e ∉ added → edge_objs s' !! e = edge_objs s !! e)) ∧
  vertex_objs s' = vertex_objs s ∧ verticies s' = verticies s ∧
  edges s' = edges s ∧ faces s' = faces s ∧
  points s' = points s ∧ guids s' = guids s.
Proof.
  tidy. unfold new_Face.
  set (F := mkFace _ _ _ _ _ _ _ _).
  set (f := length (face_objs s)).
  set (s0 := set_face_objs (λ l, l ++ [F]) s).
  rewrite (bind_Ok_eq (alloc_f F) _ s f s0) by done.
  intros [Ha|([] & s1 & Ha & Hb)]%bind_Throw.
  { apply Edge_add_Throw in Ha as (-> & -> & Hi).
    split_and!; try done. exists [], ea, [eb; ec].
    split_and!; [done|done|set_solver|done]. }
  apply Edge_add_Ok in Ha as (EA & HEA & ->).
  assert (ea < length (edge_objs s)) as Hla by by eapply lookup_lt_Some.
  apply bind_Throw in Hb as [Hb|([] & s2 & Hb & Hc)].
  { apply Edge_add_Throw in Hb as (-> & -> & Hi).
    split_and!; try done. exists [ea], eb, [ec]. split_and!; [done|done| |].
    - intros e ->%list_elem_of_singleton. exists (Edge_added f EA).
      split; [|apply Edge_added_holds]. cbn.
      by rewrite list_lookup_insert_eq.
    - intros e He. cbn. rewrite list_lookup_insert_ne; [done|set_solver]. }
  apply Edge_add_Ok in Hb as (EB & HEB & ->).
  assert (eb < length (edge_objs s)) as Hlb.
  { apply lookup_lt_Some in HEB. cbn in HEB. by rewrite length_insert in HEB. }
  apply bind_Throw in Hc as [Hc|([] & s3 & Hc & Hd)].
  { apply Edge_add_Throw in Hc as (-> & -> & Hi).
    split_and!; try done. exists [ea; eb], ec, []. split_and!; [done|done| |].
    - intros e He. cbn. destruct (decide (e = eb)) as [->|Hne].
      + exists (Edge_added f EB). split; [|apply Edge_added_holds].
        by rewrite list_lookup_insert_eq by by rewrite length_insert.
      + assert (e = ea) as -> by set_solver. exists (Edge_added f EA).
        split; [|apply Edge_added_holds].
        rewrite list_lookup_insert_ne by done.
        by rewrite list_lookup_insert_eq.
    - intros e He. cbn. rewrite !list_lookup_insert_ne; [done|set_solver..]. }
  apply Edge_add_Ok in Hc as (EC & HEC & ->). exfalso. revert Hd. munfold.
  cbn. repeat (case_match; try done).
Qed.

(** The constructor of [Face] that returns has put one face on the heap. *)
Lemma new_Face_Ok id pa pb pc ea eb ec (s : State) f s' :
  new_Face id pa pb pc ea eb ec s = Ok f s' →
  f = length (face_objs s) ∧
  length (face_objs s') = S (length (face_objs s)) ∧ faces s' = faces s.
Proof.
  tidy. unfold new_Face.
  set (F := mkFace _ _ _ _ _ _ _ _).
  set (s0 := set_face_objs (λ l, l ++ [F]) s).
  rewrite (bind_Ok_eq (alloc_f F) _ s (length (face_objs s)) s0) by done.
  intros ([] & s1 & (EA & _ & ->)%Edge_add_Ok & Hb)%bind_Ok.
  apply bind_Ok in Hb as ([] & s2 & (EB & _ & ->)%Edge_add_Ok & Hc).
  apply bind_Ok in Hc as ([] & s3 & (EC & _ & ->)%Edge_add_Ok & Hd).
  minv Hd. revert Hd. munfold. intros [= <- <-]. cbn.
  rewrite length_insert, length_app. cbn. split_and!; [done|lia|done].
Qed.

(** A vertex and an edge out of their tables, made when they are not
    there: what the lookup leaves. *)
Lemma vertex_of_Ok p pid (s : State) v s' :
  vertex_of p pid s = Ok v s' →
  verticies s' !! pid = Some v ∧ verticies s ⊆ verticies s' ∧
  vertex_objs s `prefix_of` vertex_objs s' ∧
  edge_objs s' = edge_objs s ∧ face_objs s' = face_objs s ∧
  edges s' = edges s ∧ faces s' = faces s ∧
  points s' = points s ∧ guids s' = guids s.
Proof.
  tidy. unfold vertex_of, new_Vertex. munfold.
  destruct (verticies s !! pid) as [v0|] eqn:Hpid; intros [= <- <-]; cbn.
  - by split_and!.
  - rewrite lookup_insert_eq. split_and!; try done.
    + by apply insert_subseteq.
    + by apply prefix_app_r.
Qed.

Lemma vertex_of_Throw p pid (s : State) x s' :
  vertex_of p pid s = Throw x s' → False.
Proof.
  tidy. unfold vertex_of, new_Vertex. munfold.
  by destruct (verticies s !! pid).
Qed.

Lemma edge_of_Ok k a b (s : State) e s' :
  edge_of k a b s = Ok e s' →
  edges s' !! k = Some e ∧ edges s ⊆ edges s' ∧
  edge_objs s `prefix_of` edge_objs s' ∧
  vertex_objs s' = vertex_objs s ∧ face_objs s' = face_objs s ∧
  verticies s' = verticies s ∧ faces s' = faces s ∧
  points s' = points s ∧ guids s' = guids s.
Proof.
  tidy. unfold edge_of, new_Edge. munfold.
  destruct (edges s !! k) as [e0|] eqn:Hk.
  { intros [= <- <-]. by split_and!. }
  destruct (vertex_objs s !! a); [|done]. cbn.
  destruct (vertex_objs s !! b); [|done]. cbn.
  intros [= <- <-]; cbn. rewrite lookup_insert_eq. split_and!; try done.
  - by apply insert_subseteq.
  - by apply prefix_app_r.
Qed.

Lemma edge_of_Throw k a b (s : State) x s' :
  edge_of k a b s = Throw x s' → False.
Proof.
  tidy. unfold edge_of, new_Edge. munfold.
  destruct (edges s !! k); [done|].
  destruct (vertex_objs s !! a); [|done]. cbn.
  by destruct (vertex_objs s !! b).
Qed.

(** One round of the loop of [build] that returns has assigned the face it
    made to the key of the triangle. *)
Lemma build_triangle_Ok p t (s : State) u s' :
  build_triangle p t s = Ok u s' →
  faces s' = assoc_set (face_key t) (length (face_objs s)) (faces s) ∧
  length (face_objs s') = S (length (face_objs s)).
Proof.
  tidy. destruct t as [[p1 p2] p3]. unfold build_triangle.
  intros (v1 & s1 & (_ & _ & _ & _ & F1 & _ & T1 & _)%vertex_of_Ok & Hb)%bind_Ok.
  apply bind_Ok in Hb
    as (v2 & s2 & (_ & _ & _ & _ & F2 & _ & T2 & _)%vertex_of_Ok & Hb).
  apply bind_Ok in Hb
    as (v3 & s3 & (_ & _ & _ & _ & F3 & _ & T3 & _)%vertex_of_Ok & Hb).
  apply bind_Ok in Hb
    as (e1 & s4 & (_ & _ & _ & _ & F4 & _ & T4 & _)%edge_of_Ok & Hb).
  apply bind_Ok in Hb
    as (e2 & s5 & (_ & _ & _ & _ & F5 & _ & T5 & _)%edge_of_Ok & Hb).
  apply bind_Ok in Hb
    as (e3 & s6 & (_ & _ & _ & _ & F6 & _ & T6 & _)%edge_of_Ok & Hb).
  apply bind_Ok in Hb as (f & s7 & (-> & L7 & T7)%new_Face_Ok & Hb).
  apply modify_Ok in Hb as ->. cbn.
  rewrite L7, T7, F6, F5, F4, F3, F2, F1, T6, T5, T4, T3, T2, T1. done.
Qed.

(** The rounds of a build that returns have assigned their faces, which
    follow one another on the heap, in the order of the triangles. *)
Lemma build_loop_faces p ts (s : State) s' :
  build_loop p ts s = Ok () s' →
  faces s' = face_table (length (face_objs s)) ts (faces s) ∧
  length (face_objs s') = length (face_objs s) + length ts.
Proof.
  tidy. revert s. induction ts as [|t ts IH]; intros s.
  { intros [= <-]. cbn. split; [done|lia]. }
  rewrite build_loop_cons.
  intros ([] & s1 & [T1 L1]%build_triangle_Ok & [T2 L2]%IH)%bind_Ok.
  cbn [face_table length]. rewrite T2, L2, L1, T1. split; [done|lia].
Qed.

(** One round of the loop of [build] that throws: the vertices and the
    edges of the triangle are in the tables, the face table is as it was,
    and the face that the constructor left is on the heap. *)
Lemma build_triangle_Throw p p1 p2 p3 (s : State) x s' :
  build_triangle p (p1, p2, p3) s = Throw x s' →
  ∃ v1 v2 v3 e1 e2 e3 added full rest,
    x = EdgeAddError ∧
    verticies s' !! p1 = Some v1 ∧ verticies s' !! p2 = Some v2 ∧
    verticies s' !! p3 = Some v3 ∧
    edges s' !! edge_key p1 p2 = Some e1 ∧
    edges s' !! edge_key p2 p3 = Some e2 ∧
    edges s' !! edge_key p3 p1 = Some e3 ∧
    faces s' = faces s ∧
    face_objs s' = face_objs s ++
                   [mkFace (face_key (p1, p2, p3)) (Some v1) (Some v2)
                      (Some v3) (Some e1) (Some e2) (Some e3) None] ∧
    [e1; e2; e3] = added ++ full :: rest ∧
    incident_at s' full = 2 ∧
    (∀ e, e ∈ added →
          ∃ E, edge_objs s' !! e = Some E ∧
               (e_left E = Some (length (face_objs s)) ∨
                e_right E = Some (length (face_objs s)))) ∧
    (∀ e E, e ∉ added → edge_objs s !! e = Some E →
            edge_objs s' !! e = Some E).
Proof.
  tidy. unfold build_triangle.
  intros [[]%vertex_of_Throw|(v1 & s1 & R1 & Hb)]%bind_Throw.
  apply vertex_of_Ok in R1 as (V1 & _ & _ & O1 & F1 & _ & T1 & _).
  apply bind_Throw in Hb as [[]%vertex_of_Throw|(v2 & s2 & R2 & Hb)].
  apply vertex_of_Ok in R2 as (V2 & S2 & _ & O2 & F2 & _ & T2 & _).
  apply bind_Throw in Hb as [[]%vertex_of_Throw|(v3 & s3 & R3 & Hb)].
  apply vertex_of_Ok in R3 as (V3 & S3 & _ & O3 & F3 & _ & T3 & _).
  apply bind_Throw in Hb as [[]%edge_of_Throw|(e1 & s4 & R4 & Hb)].
  apply edge_of_Ok in R4 as (K4 & _ & P4 & _ & F4 & U4 & T4 & _).
  apply bind_Throw in Hb as [[]%edge_of_Throw|(e2 & s5 & R5 & Hb)].
  apply edge_of_Ok in R5 as (K5 & S5 & P5 & _ & F5 & U5 & T5 & _).
  apply bind_Throw in Hb as [[]%edge_of_Throw|(e3 & s6 & R6 & Hb)].
  apply edge_of_Ok in R6 as (K6 & S6 & P6 & _ & F6 & U6 & T6 & _).
  apply bind_Throw in Hb as [Hb|(f & s7 & _ & Hb)]; [|done].
  apply new_Face_Throw in Hb
    as (-> & F7 & (added & full & rest & Hl & Hi & Ha & Hn) & _ & U7 & K7
        & T7 & _).
  exists v1, v2, v3, e1, e2, e3, added, full, rest.
  assert (face_objs s6 = face_objs s) as Hf by congruence.
  rewrite Hf in F7, Ha. split_and!; try done.
  - rewrite U7, U6, U5, U4. eapply lookup_weaken, S3.
    eapply lookup_weaken, S2. done.
  - rewrite U7, U6, U5, U4. eapply lookup_weaken, S3. done.
  - by rewrite U7, U6, U5, U4.
  - rewrite K7. eapply lookup_weaken, S6. eapply lookup_weaken, S5. done.
  - rewrite K7. eapply lookup_weaken, S6. done.
  - by rewrite K7.
  - congruence.
  - intros e E He HE. rewrite Hn by done.
    eapply prefix_lookup_Some, P6. eapply prefix_lookup_Some, P5.
    eapply prefix_lookup_Some, P4. by rewrite O3, O2, O1.
Qed.

(** C5, as the code has it: a build that fails leaves the graph partly
    wired and takes nothing back.  The triangles before the offending one
    are built, and the face table is the one that the assignments of their
    faces leave.  The vertices and the edges of the offending triangle are
    in the tables.  Its face is on the heap after the faces of the earlier
    triangles, with its vertices and edges and without a normal, and it is
    not in the face table.  Of its three edges, those before the one whose
    [add] threw already hold it, and the one that threw holds two faces; an
    edge that the earlier triangles left and that is not among the former
    is as they left it.  Whatever vertex index, edge key or face key the
    tables held before the call is still there, and no edge has lost a
    face. *)
Theorem build_failure_keeps_prefix p ts (s : State) e s' :
  tables_ok s →
  build (mkMesh ts p) s = Throw e s' →
  ∃ pre p1 p2 p3 post s1 v1 v2 v3 e1 e2 e3 added full rest,
    ts = pre ++ (p1, p2, p3) :: post ∧
    e = EdgeAddError ∧
    build_loop p pre s = Ok () s1 ∧
    build_triangle p (p1, p2, p3) s1 = Throw e s' ∧
    extends s s1 ∧ extends s1 s' ∧
    faces s1 = face_table (length (face_objs s)) pre (faces s) ∧
    length (face_objs s1) = length (face_objs s) + length pre ∧
    verticies s' !! p1 = Some v1 ∧ verticies s' !! p2 = Some v2 ∧
    verticies s' !! p3 = Some v3 ∧
    edges s' !! edge_key p1 p2 = Some e1 ∧
    edges s' !! edge_key p2 p3 = Some e2 ∧
    edges s' !! edge_key p3 p1 = Some e3 ∧
    faces s' = faces s1 ∧
    face_objs s' = face_objs s1 ++
                   [mkFace (face_key (p1, p2, p3)) (Some v1) (Some v2)
                      (Some v3) (Some e1) (Some e2) (Some e3) None] ∧
    [e1; e2; e3] = added ++ full :: rest ∧
    incident_at s' full = 2 ∧
    (∀ x, x ∈ added →
          ∃ E, edge_objs s' !! x = Some E ∧
               (e_left E = Some (length (face_objs s1)) ∨
                e_right E = Some (length (face_objs s1)))) ∧
    (∀ x E, x ∉ added → edge_objs s1 !! x = Some E →
            edge_objs s' !! x = Some E).
Proof.
  intros Hok Hb. unfold build in Hb. cbn [positions indices] in Hb.
  apply build_loop_Throw in Hb
    as (pre & [[p1 p2] p3] & post & s1 & -> & Epre & Et).
  apply build_loop_Ok in Epre as Hs1; [|done].
  destruct Hs1 as (Hok1 & Hx1 & _).
  destruct (build_triangle_outcome p p1 p2 p3 s1 Hok1)
    as (s2 & [[E _]|[E Hf]] & Hok2 & Hx2 & _); [congruence|].
  assert (s2 = s') as -> by congruence.
  destruct (build_loop_faces p pre s s1 Epre) as [Ht Hl].
  destruct (build_triangle_Throw p p1 p2 p3 s1 e s' Et)
    as (v1 & v2 & v3 & e1 & e2 & e3 & added & full & rest & -> & Hr).
  destruct_and!.
  exists pre, p1, p2, p3, post, s1, v1, v2, v3, e1, e2, e3, added, full, rest.
  by split_and!.
Qed.

(** ** register *)

Lemma locate_outcome (F : Face) p (s : State) :
  match locate F p s with
  | Ok _ s' => s' = s
  | Throw e s' => e = TypeError ∧ s' = s
  | Stuck => True
  | OutOfFuel => False
  end.
Proof. unfold locate. munfold. by mcases. Qed.

Lemma guids_fresh (s : State) :
  points_fresh s → points s !! ("p" +:+ pretty (guids s)) = None.
Proof.
  intros Hf. apply eq_None_not_Some. intros (n & Hn & Heq)%Hf.
  cbn in Heq. injection Heq as Heq.
  assert (guids s = n) by apply pretty_N_inj, Heq. lia.
Qed.

(** The test of [register]: [bcpos.x >= 0 && bcpos.y >= 0 && bcpos.z >= 0]. *)
Lemma inside_true bcpos :
  inside bcpos = true ↔
  ge0 (v_x bcpos) = true ∧ ge0 (v_y bcpos) = true ∧ ge0 (v_z bcpos) = true.
Proof. tidy. unfold inside. rewrite !andb_true_iff. tauto. Qed.

Lemma inside_false bcpos :
  inside bcpos = false ↔
  ge0 (v_x bcpos) = false ∨ ge0 (v_y bcpos) = false ∨
  ge0 (v_z bcpos) = false.
Proof. tidy. unfold inside. rewrite !andb_false_iff. tauto. Qed.

Lemma register_scan_outcome p fs (s : State) :
  match register_scan p fs s with
  | Ok (Some id) s' =>
      ∃ pre k face post projected bcpos,
        fs = pre ++ (k, face) :: post ∧
        Forall (rejects s p) pre ∧
        located s p face projected bcpos ∧
        inside bcpos = true ∧
        id = "p" +:+ pretty (guids s) ∧
        s' = set_points <[id := mkNavmeshPoint projected bcpos id face]>
               (set_guids guids_incr s)
  | Ok None s' => s' = s ∧ Forall (rejects s p) fs
  | Throw e s' => e = TypeError ∧ s' = s
  | Stuck => True
  | OutOfFuel => False
  end.
Proof.
  induction fs as [|[k face] fs IH]; [by cbn|]. cbn.
  unfold mbind at 1, M_bind at 1, deref at 1.
  destruct (face_objs s !! face) as [F|] eqn:HF; [|done].
  unfold mbind at 1, M_bind at 1.
  pose proof (locate_outcome F p s) as Hl.
  destruct (locate F p s) as [[projected bcpos] s1| | |] eqn:El;
    try done. subst s1.
  eapply locate_Ok in El as [_ El]; [|done].
  destruct (inside bcpos) eqn:Hin.
  - munfold. exists [], k, face, fs, projected, bcpos. by split_and!.
  - destruct (register_scan p fs s) as [[id|] s'| | |]; try done.
    + destruct IH as (pre & k' & face' & post & pr & bc & -> & Hpre & ?).
      exists ((k, face) :: pre), k', face', post, pr, bc. split; [done|].
      split; [|done]. constructor; [|done].
      exists projected, bcpos. split; [done|]. by apply inside_false.
    + destruct IH as [-> IH]. split; [done|]. constructor; [|done].
      exists projected, bcpos. split; [done|]. by apply inside_false.
Qed.

(** What [register] does in any state: the outcomes of a call and what each
    one leaves. *)
Lemma register_outcome p (s : State) :
  points_fresh s →
  (guids s < 2 ^ 53)%N →
  match register p s with
  | Ok (Some id) s' =>
      ∃ pre k face post projected bcpos,
        faces s = pre ++ (k, face) :: post ∧
        Forall (rejects s p) pre ∧
        located s p face projected bcpos ∧
        inside bcpos = true ∧
        id = "p" +:+ pretty (guids s) ∧
        points s !! id = None ∧
        points s' = <[id := mkNavmeshPoint projected bcpos id face]>
                      (points s) ∧
        guids s' = (guids s + 1)%N ∧
        points_fresh s'
  | Ok None s' => s' = s ∧ Forall (rejects s p) (faces s)
  | Throw e s' => e = TypeError ∧ s' = s
  | Stuck => True
  | OutOfFuel => False
  end.
Proof.
  intros Hf Hg. unfold register. unfold mbind, M_bind, gets.
  pose proof (register_scan_outcome p (faces s) s) as Hr.
  destruct (register_scan p (faces s) s) as [[id|] s'| | |]; try done.
  destruct Hr as (pre & k & face & post & pr & bc & Hfs & Hpre & Hl & Hin
                  & -> & ->).
  assert (guids_incr (guids s) = (guids s + 1)%N) as Hincr.
  { unfold guids_incr. by destruct (N.ltb_spec (guids s) (2 ^ 53)); [|lia]. }
  exists pre, k, face, post, pr, bc. split_and!; try done.
  - by apply guids_fresh.
  - intros id. cbn. rewrite Hincr.
    intros [<-|(n & ? & ->)%Hf]%lookup_insert_is_Some'.
    + exists (guids s). split; [lia|done].
    + exists n. split; [lia|done].
Qed.

(** On a face as its constructor left it [locate] returns. *)
Lemma locate_complete (F : Face) face p (s : State) :
  complete s face → face_objs s !! face = Some F →
  ∃ projected bcpos, locate F p s = Ok (projected, bcpos) s.
Proof.
  intros (F' & normal & pa & A & pb & B & pc & C & ea & eb & ec & HF & Hn
          & Hpa & HA & Hpb & HB & Hpc & HC & _) HF'.
  assert (F' = F) as -> by congruence.
  unfold locate. munfold. rewrite Hn, Hpa, HA, Hpb, HB, Hpc, HC.
  by eexists _, _.
Qed.

Lemma register_scan_total p fs (s : State) :
  Forall (complete s) fs.*2 → ∃ r s', register_scan p fs s = Ok r s'.
Proof.
  induction fs as [|[k face] fs IH]; cbn; [by eexists _, _|].
  intros [Hc Hfs]%Forall_cons.
  pose proof Hc as (F & HF).
  assert (face_objs s !! face = Some F) as HF' by (by destruct HF as (? & ? & ? & ? & ? & ? & ? & ? & ? & ? & ? & _)).
  destruct (locate_complete F face p s Hc HF') as (pr & bc & El).
  erewrite (bind_Ok_eq (deref face_objs face)); [|by apply deref_Ok].
  rewrite (bind_Ok_eq _ _ _ _ _ El).
  destruct (inside bc); [|by apply IH].
  munfold. by eexists _, _.
Qed.

(** On the faces that [build] makes [register] returns. *)
Lemma register_total p (s : State) :
  faces_ok s → ∃ r s', register p s = Ok r s'.
Proof.
  intros [Hc _]. destruct (register_scan_total p (faces s) s Hc) as (r & s' & E).
  exists r, s'. unfold register.
  by rewrite (bind_Ok_eq (gets faces) _ s (faces s) s).
Qed.

(** C6: [register] returns.  It goes through the face table in its order and
    takes the first face in which the three barycentric coordinates of the
    projected position pass the test [>= 0]; every face before it has a
    coordinate that fails the test.  It stores a point bound to that face,
    with the projected position and these coordinates, under the id ["p"]
    followed by the counter, which no point had before, returns the id, and
    writes nothing else.  When every face has a coordinate that fails the
    test it returns [null] and stores nothing. *)
Theorem register_first_accepting p (s : State) :
  faces_ok s →
  points_fresh s →
  (guids s < 2 ^ 53)%N →
  ∃ r s',
    register p s = Ok r s' ∧
    match r with
    | Some id =>
        ∃ pre k face post projected bcpos,
          faces s = pre ++ (k, face) :: post ∧
          Forall (rejects s p) pre ∧
          located s p face projected bcpos ∧
          ge0 (v_x bcpos) = true ∧
          ge0 (v_y bcpos) = true ∧
          ge0 (v_z bcpos) = true ∧
          id = "p" +:+ pretty (guids s) ∧
          points s !! id = None ∧
          s' = set_points <[id := mkNavmeshPoint projected bcpos id face]>
                 (set_guids (λ g, (g + 1)%N) s) ∧
          points_fresh s'
    | None => s' = s ∧ Forall (rejects s p) (faces s)
    end.
Proof.
  intros Hfo Hf Hg. destruct (register_total p s Hfo) as (r & s' & E).
  exists r, s'. split; [done|].
  pose proof (register_outcome p s Hf Hg) as Hr. rewrite E in Hr.
  destruct r as [id|]; [|done].
  destruct Hr as (pre & k & face & post & pr & bc & Hfs & Hpre & Hl
                  & (Hx & Hy & Hz)%inside_true & Hid & Hn & Hps & Hgs & Hfr).
  exists pre, k, face, post, pr, bc. split_and!; try done.
  unfold register in E.
  apply bind_Ok in E as (fs & ? & [-> ->]%gets_Ok & E).
  pose proof (register_scan_outcome p (faces s) s) as Ho. rewrite E in Ho.
  destruct Ho as (pre' & k' & face' & post' & pr' & bc' & _ & _ & _ & _ & _
                  & ->).
  cbn in Hps, Hgs. unfold set_points, set_guids in *. cbn.
  by rewrite Hps, Hgs.
Qed.

(** ** dispose *)

Lemma dispose_loop_points fs (s : State) s' :
  dispose_loop fs s = Ok () s' → points s' = points s ∧ guids s' = guids s.
Proof.
  revert s. induction fs as [|[k f] fs IH]; intros s; cbn.
  { by intros [= <-]. }
  intros ([] & s1 & Hf & Hrest)%bind_Ok.
  apply IH in Hrest as [-> ->].
  unfold Face_dispose, Edge_dispose in Hf. munfold. mcases.
Qed.

(** [dispose] empties the vertex, edge and face tables and leaves the point
    table and the counter of ids as they are. *)
Lemma dispose_Ok (s : State) s' :
  dispose s = Ok () s' →
  verticies s' = ∅ ∧ edges s' = ∅ ∧ faces s' = [] ∧
  points s' = points s ∧ guids s' = guids s.
Proof.
  unfold dispose. intros (fs & s1 & [-> ->]%gets_Ok & Hd)%bind_Ok.
  apply bind_Ok in Hd as ([] & s1 & [Hp Hg]%dispose_loop_points & Hd).
  munfold. by simplify_eq.
Qed.

(** ** The states of a navmesh *)

Lemma keeps_bind {A B} (R : State → State → Prop) `{!PreOrder R}
    (m : M A) (k : A → M B) :
  keeps R m → (∀ a, keeps R (k a)) → keeps R (m ≫= k).
Proof.
  intros Hm Hk s s' [[b Hb]|[e He]].
  - apply bind_Ok in Hb as (a & s1 & Ha & Hb).
    trans s1; [apply Hm|apply (Hk a)]; left; eauto.
  - apply bind_Throw in He as [He|(a & s1 & Ha & He)].
    + apply Hm. right; eauto.
    + trans s1; [apply Hm; left|apply (Hk a); right]; eauto.
Qed.

Lemma keeps_ret {A} (R : State → State → Prop) `{!PreOrder R} (a : A) :
  keeps R (mret a : M A).
Proof. intros s s' [[? [= _ <-]]|[? [=]]]. done. Qed.

Lemma keeps_gets {A} (R : State → State → Prop) `{!PreOrder R}
    (f : State → A) :
  keeps R (gets f).
Proof. intros s s' [[? [= _ <-]]|[? [=]]]. done. Qed.

Lemma keeps_throw {A} (R : State → State → Prop) `{!PreOrder R} e :
  keeps R (throw e : M A).
Proof. intros s s' [[? [=]]|[? [= _ <-]]]. done. Qed.

Lemma keeps_nonnull {A} (R : State → State → Prop) `{!PreOrder R}
    (o : option A) :
  keeps R (nonnull o).
Proof. destruct o; [by apply keeps_ret|by apply keeps_throw]. Qed.

Lemma keeps_deref {A} (R : State → State → Prop) `{!PreOrder R}
    (arena : State → list A) r :
  keeps R (deref arena r).
Proof.
  intros s s' [[? Hd]|[? Hd]]; unfold deref in Hd;
    destruct (arena s !! r); by simplify_eq.
Qed.

Lemma keeps_modify (R : State → State → Prop) (f : State → State) :
  (∀ s, R s (f s)) → keeps R (modify f).
Proof.
  intros Hf s s' [[? Hm]|[? [=]]]. unfold modify in Hm.
  simplify_eq. apply Hf.
Qed.

#[local] Hint Resolve keeps_ret keeps_gets keeps_throw keeps_nonnull
  keeps_deref : keeps.
#[local] Hint Extern 1 (PreOrder _) => apply _ : keeps.

(** Goes through a method bind by bind. *)
Ltac keeps_tac :=
  repeat first
    [ apply keeps_bind; [apply _| |intros ?]
    | progress eauto with keeps
    | match goal with
      | |- keeps _ (match ?x with _ => _ end) => destruct x
      | |- keeps _ (if ?b then _ else _) => destruct b
      | |- keeps _ ((λ '(_, _), _) ?x) => destruct x
      end ].

(** Reading the point, the face and the edges writes nothing. *)
Lemma keeps_point id : keeps eq (point id).
Proof. unfold point. keeps_tac. Qed.

Lemma keeps_find_opposide_edge (F : Face) v :
  keeps eq (find_opposide_edge F v).
Proof. unfold find_opposide_edge. keeps_tac. Qed.

Lemma keeps_locate (F : Face) p : keeps eq (locate F p).
Proof. unfold locate. keeps_tac. Qed.

Lemma keeps_deadlock_check (w : Walk) : keeps eq (deadlock_check w).
Proof. unfold deadlock_check. keeps_tac. Qed.

#[local] Hint Resolve keeps_point keeps_find_opposide_edge keeps_locate
  keeps_deadlock_check : keeps.

Lemma keeps_scan face (F : Face) bcpos tested ks :
  keeps eq (scan face F bcpos tested ks).
Proof.
  revert tested. induction ks as [|[k kn] ks IH]; intros; cbn.
  - keeps_tac.
  - destruct (lt0 _); [|done]. keeps_tac.
Qed.

(** An iteration that throws has written nothing: every read of the commit
    step repeats a read that the iteration has already made. *)
Lemma move_iter_Throw id (w : Walk) (s : State) e s' :
  (deadlock w ≤ 10)%Z →
  move_iter id w s = Throw e s' → s' = s.
Proof.
  intros Hd. unfold move_iter.
  assert (∀ tested (s1 : State),
            deadlock_check (mkWalk (np w) tested (deadlock w)) s1 = Ok () s1)
    as Hdc.
  { intros. unfold deadlock_check. cbn.
    by destruct (Z.ltb_spec 10 (deadlock w)); [lia|]. }
  intros [Hp|(p & s1 & [Hp ->]%point_Ok & Hi)]%bind_Throw.
  { symmetry. apply (keeps_point id). right; eauto. }
  apply bind_Throw in Hi as [Hf|(F & s1 & [HF ->]%deref_Ok & Hi)].
  { symmetry. eapply (keeps_deref eq). right; eauto. }
  apply bind_Throw in Hi as [Hl|([projected bcpos] & s1 & Hl & Hi)].
  { symmetry. apply (keeps_locate F (np w)). right; eauto. }
  eapply locate_Ok in Hl as [-> Hl]; [|done].
  apply bind_Throw in Hi as [Hs|([tested found] & s1 & Hs & Hi)].
  { symmetry. eapply keeps_scan. right; eauto. }
  apply scan_Ok in Hs as [-> _].
  destruct found as [|e' f|e'].
  - destruct Hl as (F' & normal & pa & A & pb & B & pc & C & HF' & _ & Hpa
                    & HA & Hpb & HB & Hpc & HC & _).
    simplify_eq. exfalso. revert Hi.
    rewrite (bind_Ok_eq (modify _) _ s () _) by done.
    erewrite (bind_Ok_eq (point id));
      [|apply point_Ok; split; [cbn; apply lookup_insert_eq|done]].
    erewrite (bind_Ok_eq (deref face_objs _)); [|by apply deref_Ok].
    rewrite Hpa, Hpb, Hpc. cbn [nonnull].
    erewrite (bind_Ok_eq (mret pa)) by done.
    erewrite (bind_Ok_eq (deref vertex_objs pa)); [|by apply deref_Ok].
    erewrite (bind_Ok_eq (mret pb)) by done.
    erewrite (bind_Ok_eq (deref vertex_objs pb)); [|by apply deref_Ok].
    erewrite (bind_Ok_eq (mret pc)) by done.
    erewrite (bind_Ok_eq (deref vertex_objs pc)); [|by apply deref_Ok].
    erewrite (bind_Ok_eq (modify _)) by done.
    by erewrite (bind_Ok_eq (deadlock_check _)) by apply Hdc.
  - exfalso. revert Hi.
    rewrite (bind_Ok_eq (modify _) _ s () _) by done.
    by erewrite (bind_Ok_eq (deadlock_check _)) by apply Hdc.
  - symmetry.
    assert (keeps eq
      (E ← deref edge_objs e';
       a ← nonnull (e_a E);
       A ← deref vertex_objs a;
       b ← nonnull (e_b E);
       B ← deref vertex_objs b;
       deadlock_check
         (mkWalk (project_on_line (pos A) (pos B) projected) tested
            (deadlock w));;
       mret (mkWalk (project_on_line (pos A) (pos B) projected) tested
               (deadlock w), Noface e'))) as Hk by keeps_tac.
    apply Hk. right; eauto.
Qed.

Lemma navmesh_ok_set_point (s : State) id p x :
  points s !! id = Some p →
  navmesh_ok s → navmesh_ok (set_points <[id := x]> s).
Proof.
  intros Hp (Hok & Hfo & Hf). split; [done|]. split; [done|].
  intros Hg id'. cbn.
  intros [<-|?]%lookup_insert_is_Some'; apply (Hf Hg); [by eexists|done].
Qed.

Lemma move_iter_leaves id (w : Walk) (s s' : State) :
  (deadlock w ≤ 10)%Z →
  leaves (move_iter id w) s s' → navmesh_ok s → navmesh_ok s'.
Proof.
  intros Hd [[[w' found] Hi]|[e Hi]].
  - apply move_iter_Ok in Hi as (p & F & pr & bc & Hp & _ & _ & _ & _ & Hf).
    destruct found.
    + destruct Hf as (_ & _ & _ & ? & ? & ? & ? & ? & ? & _ & _ & _ & _ & _
                      & _ & ->).
      by eapply navmesh_ok_set_point.
    + destruct Hf as (_ & _ & ->). by eapply navmesh_ok_set_point.
    + by destruct Hf as (_ & -> & _).
  - by apply move_iter_Throw in Hi as ->.
Qed.

Lemma move_loop_leaves fuel id (w : Walk) (s s' : State) :
  (deadlock w ≤ 10)%Z →
  leaves (move_loop fuel id w) s s' → navmesh_ok s → navmesh_ok s'.
Proof.
  revert w s. induction fuel as [|fuel IH]; intros w s Hd.
  { by intros [[? ?]|[? ?]]. }
  cbn. intros Hl Hok.
  assert (∀ w' found s1,
            move_iter id w s = Ok (w', found) s1 →
            navmesh_ok s1 ∧ (deadlock w' ≤ 10)%Z) as Hstep.
  { intros w' found s1 Hi. split.
    - eapply move_iter_leaves; [done| |done]. left; eauto.
    - apply move_iter_Ok in Hi as (? & ? & ? & ? & _ & _ & _ & -> & _).
      done. }
  destruct Hl as [[v Hv]|[e He]].
  - apply bind_Ok in Hv as ([w' found] & s1 & Hi & Hv).
    destruct (Hstep _ _ _ Hi) as [Hok1 Hd1]. destruct (changed found).
    + eapply IH; [done| |done]. left; eauto.
    + by apply bind_Ok in Hv as (? & ? & [_ ->]%point_Ok & [= _ <-]).
  - apply bind_Throw in He as [He|([w' found] & s1 & Hi & He)].
    { eapply move_iter_leaves; [done| |done]. right; eauto. }
    destruct (Hstep _ _ _ Hi) as [Hok1 Hd1]. destruct (changed found).
    + eapply IH; [done| |done]. right; eauto.
    + apply bind_Throw in He as [He|(? & ? & _ & [=])].
      assert (s1 = s') as <-; [|done].
      apply (keeps_point id). right; eauto.
Qed.

Lemma build_leaves mesh (s s' : State) :
  tables_ok s → leaves (build mesh) s s' →
  tables_ok s' ∧ extends s s' ∧ (faces_ok s → faces_ok s').
Proof.
  intros Hok [[[] Hb]|[e Hb]]; [by eapply build_loop_Ok|].
  apply build_loop_Throw
    in Hb as (pre & [[p1 p2] p3] & post & s1 & _ & Epre & Et).
  apply build_loop_Ok in Epre as (Hok1 & Hx1 & Hf1); [|done].
  destruct (build_triangle_outcome (positions mesh) p1 p2 p3 s1 Hok1)
    as (s2 & [[E _]|[E _]] & Hok2 & Hx2 & _ & _ & Hf2); [congruence|].
  assert (s2 = s') as -> by congruence.
  split; [done|]. split; [by eapply extends_trans|auto].
Qed.

Lemma points_fresh_register (s : State) x :
  points_fresh s → (guids s < 2 ^ 53)%N →
  points_fresh (set_points <["p" +:+ pretty (guids s) := x]>
                  (set_guids guids_incr s)).
Proof.
  intros Hf Hg id. cbn.
  assert (guids_incr (guids s) = (guids s + 1)%N) as ->.
  { unfold guids_incr. by destruct (N.ltb_spec (guids s) (2 ^ 53)); [|lia]. }
  intros [<-|(n & ? & ->)%Hf]%lookup_insert_is_Some'.
  - exists (guids s). split; [lia|done].
  - exists n. split; [lia|done].
Qed.

Lemma register_leaves p (s s' : State) :
  leaves (register p) s s' → navmesh_ok s → navmesh_ok s'.
Proof.
  intros Hl (Hok & Hfo & Hf).
  unfold leaves, register, mbind, M_bind, gets in Hl.
  pose proof (register_scan_outcome p (faces s) s) as Hr.
  destruct (register_scan p (faces s) s) as [[id|] s1|e s1| |].
  - destruct Hr as (pre & k & face & post & pr & bc & _ & _ & _ & _ & ->
                    & ->).
    assert (s' = set_points
                   <["p" +:+ pretty (guids s)
                     := mkNavmeshPoint pr bc ("p" +:+ pretty (guids s)) face]>
                   (set_guids guids_incr s)) as ->
      by (destruct Hl as [[? ?]|[? ?]]; congruence).
    split; [done|]. split; [done|]. cbn. intros Hg.
    assert (guids s < 2 ^ 53)%N as Hg'.
    { unfold guids_incr in Hg.
      by destruct (N.ltb_spec (guids s) (2 ^ 53)); [|lia]. }
    by apply points_fresh_register; [apply Hf|].
  - destruct Hr as [-> _]. by destruct Hl as [[? [= _ <-]]|[? [=]]].
  - destruct Hr as [-> ->]. by destruct Hl as [[? [=]]|[? [= _ <-]]].
  - by destruct Hl as [[? [=]]|[? [=]]].
  - done.
Qed.

Lemma Edge_dispose_Ok e (s : State) :
  e < length (edge_objs s) →
  ∃ s', Edge_dispose e s = Ok () s' ∧
        length (edge_objs s') = length (edge_objs s) ∧
        vertex_objs s' = vertex_objs s ∧ face_objs s' = face_objs s ∧
        verticies s' = verticies s ∧ edges s' = edges s ∧
        faces s' = faces s ∧ points s' = points s ∧ guids s' = guids s.
Proof.
  intros [E HE]%lookup_lt_is_Some_2. unfold Edge_dispose. munfold.
  rewrite HE. eexists. split; [done|]. cbn. by rewrite length_insert.
Qed.

(** [Face.dispose] on a face as its constructor left it returns; it writes
    this face and edges, and no other face. *)
Lemma Face_dispose_Ok f (s : State) :
  complete s f →
  ∃ s', Face_dispose f s = Ok () s' ∧
        length (edge_objs s') = length (edge_objs s) ∧
        vertex_objs s' = vertex_objs s ∧
        (∀ f', f' ≠ f → face_objs s' !! f' = face_objs s !! f') ∧
        verticies s' = verticies s ∧ edges s' = edges s ∧
        faces s' = faces s ∧ points s' = points s ∧ guids s' = guids s.
Proof.
  intros (F & normal & pa & A & pb & B & pc & C & ea & eb & ec & HF & _ & _
          & _ & _ & _ & _ & _ & Hea & Hlea & Heb & Hleb & _).
  unfold Face_dispose.
  erewrite (bind_Ok_eq (deref face_objs f)); [|by apply deref_Ok].
  rewrite Hea, Heb. cbn [nonnull].
  erewrite (bind_Ok_eq (mret ea)) by done.
  destruct (Edge_dispose_Ok ea s Hlea)
    as (s1 & E1 & Hl1 & Hv1 & Hf1 & Ht1 & Hk1 & Hfs1 & Hp1 & Hg1).
  rewrite (bind_Ok_eq _ _ _ _ _ E1).
  erewrite (bind_Ok_eq (mret eb)) by done.
  destruct (Edge_dispose_Ok eb s1)
    as (s2 & E2 & Hl2 & Hv2 & Hf2 & Ht2 & Hk2 & Hfs2 & Hp2 & Hg2);
    [by rewrite Hl1|].
  rewrite (bind_Ok_eq _ _ _ _ _ E2).
  erewrite (bind_Ok_eq (mret eb)) by done.
  destruct (Edge_dispose_Ok eb s2)
    as (s3 & E3 & Hl3 & Hv3 & Hf3 & Ht3 & Hk3 & Hfs3 & Hp3 & Hg3);
    [by rewrite Hl2, Hl1|].
  rewrite (bind_Ok_eq _ _ _ _ _ E3).
  munfold. eexists. split; [done|]. cbn. split_and!; try congruence.
  intros f' ?. rewrite list_lookup_insert_ne by done. congruence.
Qed.

Lemma dispose_loop_Ok fs (s : State) :
  Forall (complete s) fs.*2 → NoDup fs.*2 →
  ∃ s', dispose_loop fs s = Ok () s'.
Proof.
  revert s. induction fs as [|[k f] fs IH]; intros s Hc Hnd; cbn in *.
  { by eexists. }
  apply Forall_cons in Hc as [Hf Hc]. apply NoDup_cons in Hnd as [Hnin Hnd].
  destruct (Face_dispose_Ok f s Hf)
    as (s1 & E1 & Hl1 & Hv1 & Hfo1 & _).
  rewrite (bind_Ok_eq _ _ _ _ _ E1). apply IH; [|done].
  apply Forall_forall. intros f' Hin.
  eapply Forall_forall in Hc; [|done].
  destruct Hc as (F & normal & pa & A & pb & B & pc & C & ea & eb & ec & HF
                  & ? & ? & ? & ? & ? & ? & ? & ? & ? & ? & ? & ? & ?).
  exists F, normal, pa, A, pb, B, pc, C, ea, eb, ec.
  rewrite Hfo1, Hv1, Hl1; [by split_and!|]. by intros ->.
Qed.

(** On faces as their constructor left them, [dispose] returns. *)
Lemma dispose_total (s : State) :
  faces_ok s → ∃ s', dispose s = Ok () s'.
Proof.
  intros [Hc Hnd]. destruct (dispose_loop_Ok (faces s) s Hc Hnd) as [s1 E1].
  unfold dispose. rewrite (bind_Ok_eq (gets faces) _ s (faces s) s) by done.
  rewrite (bind_Ok_eq _ _ _ _ _ E1). by eexists.
Qed.

Lemma dispose_leaves (s s' : State) :
  leaves dispose s s' → navmesh_ok s → navmesh_ok s'.
Proof.
  intros Hl (Hok & Hfo & Hf). destruct (dispose_total s Hfo) as [s1 Hd].
  assert (s1 = s') as -> by (destruct Hl as [[? ?]|[? ?]]; congruence).
  apply dispose_Ok in Hd as (Hv & He & Hfs & Hp & Hg).
  split; [|split].
  - split; intros ? ?; by rewrite ?Hv, ?He, lookup_empty.
  - unfold faces_ok. rewrite Hfs. split; [by constructor|apply NoDup_nil_2].
  - rewrite Hg. intros Hlt id. rewrite Hp. intros Hid.
    destruct (Hf Hlt id Hid) as (n & ? & ?). exists n. by rewrite Hg.
Qed.

Lemma new_Navmesh_ok : navmesh_ok (new_Navmesh : State).
Proof.
  split; [split; intros ? ?; cbn; by rewrite lookup_empty|]. split.
  - split; [by constructor|apply NoDup_nil_2].
  - intros _ id. cbn. rewrite lookup_empty. by intros [? ?].
Qed.

(** Every state of a navmesh has its vertex and edge tables pointing into
    the heap and its points under the ids that [register] gave them. *)
Lemma reachable_ok (s : State) : reachable s → navmesh_ok s.
Proof.
  induction 1 as [|mesh s s' _ IH Hl|p s s' _ IH Hl|id newpos s s' _ IH Hl
                  |s s' _ IH Hl].
  - apply new_Navmesh_ok.
  - destruct IH as (Hok & Hfo & Hf).
    apply build_leaves in Hl
      as (Hok' & (_ & _ & _ & _ & _ & _ & Hp & Hg & _) & Hfo'); [|done].
    split; [done|]. split; [auto|].
    intros Hlt id. rewrite Hp, Hg in *. by apply Hf.
  - by eapply register_leaves.
  - eapply move_loop_leaves; [|exact Hl|done]. done.
  - by eapply dispose_leaves.
Qed.

(** * More of what the methods do *)

(** ** move *)

(** [move] ends on every state, id and target.  The loop needs at most one
    iteration for each edge of the heap and one more: any fuel above the
    number of edges gives the result of [move], the fuel is never used up,
    and an exception that leaves [move] is a [TypeError]. *)
Theorem move_terminates id newpos (s : State) :
  (∀ fuel, length (edge_objs s) < fuel →
     move_loop fuel id (walk_start newpos) s = move id newpos s) ∧
  move id newpos s ≠ OutOfFuel ∧
  (∀ e s', move id newpos s = Throw e s' → e = TypeError).
Proof.
  split; [|split].
  - intros fuel Hf. unfold move.
    apply move_loop_more_fuel; [apply move_returns|lia].
  - apply move_returns.
  - intros e s' Ht. by apply move_loop_Throw in Ht.
Qed.

(** [move] of an id that is not in the point table: [p] is [undefined] and
    the first read of [p.face] throws a [TypeError]; nothing is written. *)
Theorem move_unknown_id id newpos (s : State) :
  points s !! id = None →
  move id newpos s = Throw TypeError s.
Proof.
  intros Hp. unfold move. cbn [move_loop]. apply bind_Throw_eq.
  unfold move_iter. apply bind_Throw_eq.
  unfold point. munfold. by rewrite Hp.
Qed.

Lemma wrote_point_trans id (s1 s2 s3 : State) :
  wrote_point id s1 s2 → wrote_point id s2 s3 → wrote_point id s1 s3.
Proof.
  intros [->|(p & p' & Hp & Hid & ->)]; [done|].
  intros [->|(q & q' & Hq & Hid' & ->)].
  - right. by exists p, p'.
  - right. exists p, q'. cbn in Hq. rewrite lookup_insert_eq in Hq.
    simplify_eq. split; [done|]. split; [congruence|].
    unfold set_points; cbn. by rewrite insert_insert_eq.
Qed.

Lemma move_iter_wrote id (w : Walk) (s s' : State) :
  (deadlock w ≤ 10)%Z →
  leaves (move_iter id w) s s' → wrote_point id s s'.
Proof.
  intros Hd [[[w' found] Hi]|[e Hi]].
  - apply move_iter_Ok in Hi as (p & F & pr & bc & Hp & _ & _ & _ & _ & Hf).
    destruct found.
    + destruct Hf as (_ & _ & _ & ? & ? & ? & ? & ? & ? & _ & _ & _ & _ & _
                      & _ & ->).
      right. eexists p, _. split; [done|]. split; [|reflexivity]. done.
    + destruct Hf as (_ & _ & ->). right. eexists p, _.
      split; [done|]. split; [|reflexivity]. done.
    + destruct Hf as (_ & -> & _). by left.
  - apply move_iter_Throw in Hi as ->; [by left|done].
Qed.

Lemma move_loop_wrote fuel id (w : Walk) (s s' : State) :
  (deadlock w ≤ 10)%Z →
  leaves (move_loop fuel id w) s s' → wrote_point id s s'.
Proof.
  revert w s. induction fuel as [|fuel IH]; intros w s Hd.
  { by intros [[? ?]|[? ?]]. }
  cbn. intros Hl.
  assert (∀ w' found s1,
            move_iter id w s = Ok (w', found) s1 →
            wrote_point id s s1 ∧ (deadlock w' ≤ 10)%Z) as Hstep.
  { intros w' found s1 Hi. split.
    - eapply move_iter_wrote; [done|]. left; eauto.
    - apply move_iter_Ok in Hi as (? & ? & ? & ? & _ & _ & _ & -> & _).
      done. }
  destruct Hl as [[v Hv]|[e He]].
  - apply bind_Ok in Hv as ([w' found] & s1 & Hi & Hv).
    destruct (Hstep _ _ _ Hi) as [Hw1 Hd1]. destruct (changed found).
    + eapply wrote_point_trans; [done|]. eapply IH; [done|]. left; eauto.
    + by apply bind_Ok in Hv as (? & ? & [_ ->]%point_Ok & [= _ <-]).
  - apply bind_Throw in He as [He|([w' found] & s1 & Hi & He)].
    { eapply move_iter_wrote; [done|]. right; eauto. }
    destruct (Hstep _ _ _ Hi) as [Hw1 Hd1]. destruct (changed found).
    + eapply wrote_point_trans; [done|]. eapply IH; [done|]. right; eauto.
    + apply bind_Throw in He as [He|(? & ? & _ & [=])].
      assert (s1 = s') as <-; [|done].
      apply (keeps_point id). right; eauto.
Qed.

(** What a call of [move] can have written when it returns or throws: the
    entry of its point in the point table, and nothing else; the heap, the
    vertex, edge and face tables, the other points and the counter of ids
    are as they were, and the point keeps its id. *)
Theorem move_writes_only_its_point id newpos (s s' : State) :
  leaves (move id newpos) s s' →
  vertex_objs s' = vertex_objs s ∧ edge_objs s' = edge_objs s ∧
  face_objs s' = face_objs s ∧ verticies s' = verticies s ∧
  edges s' = edges s ∧ faces s' = faces s ∧ guids s' = guids s ∧
  (∀ id', id' ≠ id → points s' !! id' = points s !! id') ∧
  (∀ p, points s !! id = Some p →
        ∃ p', points s' !! id = Some p' ∧ p_id p' = p_id p) ∧
  (points s !! id = None → s' = s).
Proof.
  intros Hl. apply move_loop_wrote in Hl; [|done].
  destruct Hl as [->|(p & p' & Hp & Hid & ->)].
  - split_and!; try done. intros p Hp. by exists p.
  - cbn. split_and!; try done.
    + intros id' ?. by rewrite lookup_insert_ne.
    + intros q Hq. exists p'. rewrite lookup_insert_eq. split; congruence.
    + congruence.
Qed.


(** A target whose projection has no negative barycentric coordinate in the
    face of the point: [move] commits in its first iteration, stores these
    coordinates and the position rebuilt from them in the same face and
    returns that position; the same call once more returns the same
    position and changes nothing. *)
Theorem move_inside_is_idempotent id newpos (s : State) p projected bcpos :
  points s !! id = Some p →
  located s newpos (p_face p) projected bcpos →
  (∀ k, lt0 (vget bcpos k) = false) →
  ∃ F pa A pb B pc C v s',
    face_objs s !! p_face p = Some F ∧
    f_pa F = Some pa ∧ vertex_objs s !! pa = Some A ∧
    f_pb F = Some pb ∧ vertex_objs s !! pb = Some B ∧
    f_pc F = Some pc ∧ vertex_objs s !! pc = Some C ∧
    v = barycentric_to_cartesian (pos A) (pos B) (pos C) bcpos ∧
    s' = set_points <[id := mkNavmeshPoint v bcpos (p_id p) (p_face p)]> s ∧
    move id newpos s = Ok v s' ∧
    move id newpos s' = Ok v s'.
Proof.
  intros Hp Hl Hk.
  destruct (move_inside_settles id newpos s p projected bcpos Hp Hl Hk)
    as (F & pa & A & pb & B & pc & C & HF & Hpa & HA & Hpb & HB & Hpc & HC
        & Hm).
  cbn zeta in Hm.
  eexists F, pa, A, pb, B, pc, C, _, _. split_and!; try done.
  by eapply move_settled_again.
Qed.

(** ** register, then move *)

(** A point that [register] has just stored for a position is inside its
    face for [move] as well, when no number passes both tests [>= 0] and
    [< 0]: [move] to the registered position commits at once in the face
    that [register] chose, with the coordinates that [register] stored, and
    returns the position rebuilt from them. *)
Theorem register_then_move_stays target (s : State) id s1 :
  (∀ v, ge0 v = true → lt0 v = false) →
  register target s = Ok (Some id) s1 →
  ∃ p F pa A pb B pc C v,
    points s1 !! id = Some p ∧
    face_objs s1 !! p_face p = Some F ∧
    f_pa F = Some pa ∧ vertex_objs s1 !! pa = Some A ∧
    f_pb F = Some pb ∧ vertex_objs s1 !! pb = Some B ∧
    f_pc F = Some pc ∧ vertex_objs s1 !! pc = Some C ∧
    v = barycentric_to_cartesian (pos A) (pos B) (pos C) (p_bcpos p) ∧
    move id target s1
    = Ok v (set_points
              <[id := mkNavmeshPoint v (p_bcpos p) id (p_face p)]> s1).
Proof.
  intros Hge Hr. unfold register in Hr.
  apply bind_Ok in Hr as (fs & ? & [-> ->]%gets_Ok & Hr).
  pose proof (register_scan_outcome target (faces s) s) as Ho.
  rewrite Hr in Ho.
  destruct Ho as (pre & k & face & post & pr & bc & _ & _ & Hl & Hin & Hid
                  & ->).
  set (p := mkNavmeshPoint pr bc id face).
  assert (∀ k, lt0 (vget bc k) = false) as Hk.
  { unfold inside in Hin. apply andb_true_iff in Hin as [Hin Hz].
    apply andb_true_iff in Hin as [Hx Hy].
    intros []; cbn; by apply Hge. }
  destruct (move_inside_settles id target
              (set_points <[id := p]> (set_guids guids_incr s)) p pr bc)
    as (F & pa & A & pb & B & pc & C & HF & Hpa & HA & Hpb & HB & Hpc & HC
        & Hm); [cbn; apply lookup_insert_eq|exact Hl|done|].
  cbn zeta in Hm.
  exists p, F, pa, A, pb, B, pc, C,
    (barycentric_to_cartesian (pos A) (pos B) (pos C) bc).
  split; [cbn; apply lookup_insert_eq|]. by split_and!.
Qed.

(** ** Edge *)

(** [other] is its own inverse on the two sides of an edge: the face that
    [other] gives for a face is a face for which [other] gives that face
    back, and the two are the sides [left] and [right] of the edge. *)
Theorem Edge_other_involutive (E : Edge) f g :
  Edge_other E f = Some g →
  Edge_other E g = Some f ∧
  (e_left E = Some f ∧ e_right E = Some g ∨
   e_right E = Some f ∧ e_left E = Some g).
Proof.
  tidy. unfold Edge_other. intros Ho.
  repeat case_bool_decide; simplify_eq; split; auto; congruence.
Qed.

(** [add] and then [other]: the face added to an edge has, across the
    edge, the face that the edge held before, and none when the edge was
    free; the ends, the id and the length of the edge and every other edge
    are as they were. *)
Theorem Edge_add_then_other e f (s : State) E s' :
  edge_objs s !! e = Some E →
  Edge_add e f s = Ok () s' →
  ∃ E',
    edge_objs s' = <[e := E']> (edge_objs s) ∧
    Edge_other E' f = (if e_left E is Some g then Some g else e_right E) ∧
    (∀ g, e_left E = Some g → Edge_other E' g = Some f) ∧
    incident E' = S (incident E) ∧
    e_id E' = e_id E ∧ e_a E' = e_a E ∧ e_b E' = e_b E ∧
    e_length E' = e_length E.
Proof.
  tidy. intros HE. unfold Edge_add. munfold. rewrite HE. cbn.
  unfold Edge_other, incident.
  destruct (e_left E) as [g|] eqn:Hl, (e_right E) as [h|] eqn:Hr;
    intros [= <-]; eexists; (split; [reflexivity|]); cbn;
    rewrite ?Hl, ?Hr; split_and!; try done.
  all: try (intros g' [= <-]).
  all: repeat case_bool_decide; simplify_eq; done.
Qed.


(** ** dispose *)

Lemma Edge_dispose_cleared e (s : State) E :
  edge_objs s !! e = Some E →
  Edge_dispose e s
  = Ok () (set_edge_objs (λ l, <[e := cleared E]> l) s).
Proof. intros HE. unfold Edge_dispose. munfold. by rewrite HE. Qed.

(** [Face.dispose] on a face with three edges of the heap: the state it
    leaves. *)
Lemma Face_dispose_state f (s : State) F ea eb ec EA EB :
  face_objs s !! f = Some F →
  f_ea F = Some ea → f_eb F = Some eb → f_ec F = Some ec →
  edge_objs s !! ea = Some EA →
  <[ea := cleared EA]> (edge_objs s) !! eb = Some EB →
  Face_dispose f s
  = Ok () (set_face_objs (λ l, <[f := disposed F]> l)
             (set_edge_objs
                (λ l, <[eb := cleared EB]> (<[ea := cleared EA]> l)) s)).
Proof.
  intros HF Hea Heb Hec HEA HEB. unfold Face_dispose.
  erewrite (bind_Ok_eq (deref face_objs f)); [|by apply deref_Ok].
  rewrite Hea, Heb. cbn [nonnull].
  erewrite (bind_Ok_eq (mret ea)) by done.
  erewrite (bind_Ok_eq (Edge_dispose ea)) by by apply Edge_dispose_cleared.
  erewrite (bind_Ok_eq (mret eb)) by done.
  erewrite (bind_Ok_eq (Edge_dispose eb)) by by apply Edge_dispose_cleared.
  erewrite (bind_Ok_eq (mret eb)) by done.
  erewrite (bind_Ok_eq (Edge_dispose eb)).
  2:{ apply Edge_dispose_cleared. cbn.
      apply list_lookup_insert_eq. eapply lookup_lt_Some, HEB. }
  unfold store_f, modify, set_face_objs, set_edge_objs, disposed, cleared.
  cbn. by rewrite list_insert_insert_eq.
Qed.

(** [Face.dispose] clears the edges [ea] and [eb] and the face, and leaves
    the edge [ec] as it was, with its faces and its ends, when this is
    another edge: the method calls [eb.dispose()] twice and [ec.dispose()]
    never. *)
Theorem Face_dispose_leaves_ec f (s : State) F ea eb ec EA EB :
  face_objs s !! f = Some F →
  f_ea F = Some ea → f_eb F = Some eb → f_ec F = Some ec →
  edge_objs s !! ea = Some EA → edge_objs s !! eb = Some EB →
  ea ≠ eb → ec ≠ ea → ec ≠ eb →
  ∃ s',
    Face_dispose f s = Ok () s' ∧
    edge_objs s' !! ea = Some (cleared EA) ∧
    edge_objs s' !! eb = Some (cleared EB) ∧
    edge_objs s' !! ec = edge_objs s !! ec ∧
    face_objs s' !! f = Some (disposed F).
Proof.
  tidy. intros HF Hea Heb Hec HEA HEB Hab Hca Hcb.
  eexists. split.
  { eapply Face_dispose_state; try done.
    by rewrite list_lookup_insert_ne. }
  cbn. split_and!.
  - rewrite list_lookup_insert_ne by done.
    apply list_lookup_insert_eq. by eapply lookup_lt_Some.
  - apply list_lookup_insert_eq. rewrite length_insert.
    by eapply lookup_lt_Some.
  - by rewrite !list_lookup_insert_ne.
  - apply list_lookup_insert_eq. by eapply lookup_lt_Some.
Qed.

Lemma Face_dispose_complete f (s : State) :
  complete s f →
  ∃ s' F,
    Face_dispose f s = Ok () s' ∧
    face_objs s !! f = Some F ∧
    face_objs s' = <[f := disposed F]> (face_objs s) ∧
    vertex_objs s' = vertex_objs s ∧
    length (edge_objs s') = length (edge_objs s).
Proof.
  tidy.
  intros (F & normal & pa & A & pb & B & pc & C & ea & eb & ec & HF & _ & _
          & _ & _ & _ & _ & _ & Hea & Hlea & Heb & Hleb & Hec & _).
  apply lookup_lt_is_Some_2 in Hlea as [EA HEA].
  assert (is_Some (<[ea := cleared EA]> (edge_objs s) !! eb)) as [EB HEB].
  { apply lookup_lt_is_Some_2. by rewrite length_insert. }
  eexists _, F. split; [by eapply Face_dispose_state|].
  cbn. by rewrite !length_insert.
Qed.

(** The loop of [dispose]: every face of the list is left disposed, and no
    other face is written. *)
Lemma dispose_loop_faces fs (s : State) :
  Forall (complete s) fs.*2 → NoDup fs.*2 →
  ∃ s',
    dispose_loop fs s = Ok () s' ∧
    vertex_objs s' = vertex_objs s ∧
    length (edge_objs s') = length (edge_objs s) ∧
    (∀ f, f ∉ fs.*2 → face_objs s' !! f = face_objs s !! f) ∧
    (∀ f F, f ∈ fs.*2 → face_objs s !! f = Some F →
            face_objs s' !! f = Some (disposed F)).
Proof.
  tidy.
  revert s. induction fs as [|[k f] fs IH]; intros s Hc Hnd; cbn in *.
  { eexists. split; [done|]. split_and!; try done.
    by intros ? ? ?%elem_of_nil. }
  apply Forall_cons in Hc as [Hf Hc]. apply NoDup_cons in Hnd as [Hnin Hnd].
  destruct (Face_dispose_complete f s Hf) as (s1 & F & E1 & HF & Hfo & Hv & Hl).
  rewrite (bind_Ok_eq _ _ _ _ _ E1).
  destruct (IH s1) as (s' & E' & Hv' & Hl' & Hout & Hin); [|done|].
  { apply Forall_forall. intros f' Hf'.
    eapply Forall_forall in Hc; [|done].
    destruct Hc as (F' & normal & pa & A & pb & B & pc & C & ea & eb & ec
                    & HF' & ? & ? & ? & ? & ? & ? & ? & ? & ? & ? & ? & ? & ?).
    exists F', normal, pa, A, pb, B, pc, C, ea, eb, ec.
    rewrite Hfo, Hv, Hl. split_and!; try done.
    rewrite list_lookup_insert_ne; [done|]. by intros ->. }
  exists s'. split; [done|]. split; [congruence|]. split; [congruence|].
  split.
  - intros f' Hf'. apply not_elem_of_cons in Hf' as [? ?].
    rewrite Hout, Hfo by done. by rewrite list_lookup_insert_ne.
  - intros f' F' [->|Hf']%elem_of_cons HF'.
    + rewrite Hout, Hfo by done. simplify_eq.
      apply list_lookup_insert_eq. by eapply lookup_lt_Some.
    + apply Hin; [done|]. rewrite Hfo, list_lookup_insert_ne; [done|].
      by intros ->.
Qed.

(** [dispose] on a navmesh whose faces are as built returns: the vertex,
    edge and face tables are empty, the point table and the counter of ids
    are as they were, the points still bound to their faces, and a second
    [dispose] changes nothing. *)
Theorem dispose_keeps_points (s : State) :
  faces_ok s →
  ∃ s',
    dispose s = Ok () s' ∧
    verticies s' = ∅ ∧ edges s' = ∅ ∧ faces s' = [] ∧
    points s' = points s ∧ guids s' = guids s ∧
    dispose s' = Ok () s'.
Proof.
  tidy. intros Hfo. destruct (dispose_total s Hfo) as [s' Hd].
  exists s'. split; [done|].
  pose proof (dispose_Ok _ _ Hd) as (Hv & He & Hf & Hp & Hg).
  split_and!; try done.
  unfold dispose. rewrite (bind_Ok_eq (gets faces) _ s' (faces s') s') by done.
  rewrite Hf. cbn [dispose_loop].
  munfold. f_equal. destruct s'; cbn in *. by subst.
Qed.

(** [register] after [dispose] returns [null] for every position and
    stores nothing: the face table is empty. *)
Theorem dispose_then_register_null target (s s' : State) :
  dispose s = Ok () s' →
  register target s' = Ok None s'.
Proof.
  tidy. intros (_ & _ & Hf & _)%dispose_Ok.
  unfold register.
  rewrite (bind_Ok_eq (gets faces) _ s' (faces s') s') by done.
  by rewrite Hf.
Qed.

(** [move] after [dispose], for a point that was bound to a face of the
    face table: the face has lost its vertices, and the read of
    [face.pa.pos] throws a [TypeError]; nothing is written. *)
Theorem dispose_then_move_throws id newpos (s : State) p :
  faces_ok s →
  points s !! id = Some p →
  p_face p ∈ (faces s).*2 →
  ∃ s', dispose s = Ok () s' ∧ move id newpos s' = Throw TypeError s'.
Proof.
  tidy. intros [Hc Hnd] Hp Hin.
  destruct (dispose_loop_faces (faces s) s Hc Hnd)
    as (s1 & E1 & _ & _ & _ & Hd).
  pose proof Hc as Hc'. eapply Forall_forall in Hc'; [|exact Hin].
  destruct Hc' as (F & normal & ? & ? & ? & ? & ? & ? & ? & ? & ? & HF & Hn
                   & _).
  specialize (Hd _ _ Hin HF).
  pose proof (dispose_loop_points _ _ _ E1) as [Hps _].
  eexists. split.
  { unfold dispose.
    rewrite (bind_Ok_eq (gets faces) _ s (faces s) s) by done.
    rewrite (bind_Ok_eq _ _ _ _ _ E1). reflexivity. }
  unfold move. cbn [move_loop]. apply bind_Throw_eq.
  unfold move_iter.
  erewrite (bind_Ok_eq (point id));
    [|apply point_Ok; split; [cbn; by rewrite Hps|done]].
  erewrite (bind_Ok_eq (deref face_objs _));
    [|apply deref_Ok; split; [cbn; exact Hd|done]].
  apply bind_Throw_eq. unfold locate, disposed. cbn. rewrite Hn. done.
Qed.


(** ** build *)

(** [build] on a navmesh that holds a mesh already adds to it and replaces
    nothing, whether it returns or throws: a vertex index that was in the
    vertex table keeps its vertex and the position of that vertex, whatever
    the new position array holds, an edge key keeps its edge, a face key
    stays in the face table, and the points and the counter of ids are as
    they were. *)
Theorem build_keeps_existing mesh (s s' : State) :
  tables_ok s →
  leaves (build mesh) s s' →
  tables_ok s' ∧
  (∀ pid v V, verticies s !! pid = Some v → vertex_objs s !! v = Some V →
              verticies s' !! pid = Some v ∧ vertex_objs s' !! v = Some V) ∧
  (∀ k e, edges s !! k = Some e → edges s' !! k = Some e) ∧
  (∀ k, k ∈ (faces s).*1 → k ∈ (faces s').*1) ∧
  (∀ e, incident_at s e ≤ incident_at s' e) ∧
  points s' = points s ∧ guids s' = guids s.
Proof.
  intros Hok Hl.
  destruct (build_leaves mesh s s' Hok Hl)
    as (Hok' & (Hv & He & Hf & Hi & _ & _ & Hp & Hg & Hvo & _) & _).
  split_and!; try done.
  - intros pid v V Hpid HV. split; [by eapply lookup_weaken|].
    by eapply prefix_lookup_Some.
  - intros k e Hk. by eapply lookup_weaken.
Qed.


(** ** The mesh that a build leaves *)

Lemma references_sym t a b : references t a b = references t b a.
Proof.
  tidy. destruct t as [[p1 p2] p3]. unfold references.
  apply bool_decide_ext. rewrite !elem_of_cons, !elem_of_nil. naive_solver.
Qed.

Lemma sides_sym i ts a b : sides i ts a b = sides i ts b a.
Proof.
  tidy. revert i. induction ts as [|t ts IH]; intros i; cbn; [done|].
  by rewrite IH, references_sym.
Qed.

Lemma sides_app i ts t a b :
  sides i (ts ++ [t]) a b
  = sides i ts a b ++ (if references t a b then [i + length ts] else []).
Proof.
  tidy. revert i. induction ts as [|t' ts IH]; intros i; cbn.
  { by rewrite Nat.add_0_r, app_nil_r. }
  rewrite IH, <-app_assoc. do 3 f_equal. destruct (references t a b); [|done].
  f_equal. lia.
Qed.

Lemma sides_length i ts a b : length (sides i ts a b) = sharing ts a b.
Proof.
  tidy. revert i. induction ts as [|t ts IH]; intros i; cbn; [done|].
  rewrite length_app, IH. by destruct (references t a b).
Qed.

Lemma sides_lookup i ts a b n j :
  sides i ts a b !! n = Some j →
  ∃ t, i ≤ j ∧ ts !! (j - i) = Some t ∧ references t a b = true.
Proof.
  tidy. revert i n. induction ts as [|t ts IH]; intros i n; cbn; [done|].
  destruct (references t a b) eqn:Hr; cbn.
  - destruct n as [|n]; cbn.
    + intros [= <-]. exists t. rewrite Nat.sub_diag. by split_and!.
    + intros (t' & ? & ? & ?)%IH. exists t'. split; [lia|].
      replace (j - i) with (S (j - S i)) by lia. by split.
  - intros (t' & ? & ? & ?)%IH. exists t'. split; [lia|].
    replace (j - i) with (S (j - S i)) by lia. by split.
Qed.

Lemma face_table_app i ts t l :
  face_table i (ts ++ [t]) l
  = assoc_set (face_key t) (i + length ts) (face_table i ts l).
Proof.
  tidy. revert i l. induction ts as [|t' ts IH]; intros i l; cbn.
  { by rewrite Nat.add_0_r. }
  rewrite IH. cbn. by rewrite Nat.add_succ_r.
Qed.

Lemma face_of_weaken p (s s' : State) t F :
  verticies s ⊆ verticies s' → edges s ⊆ edges s' →
  face_of p s t F → face_of p s' t F.
Proof.
  tidy. intros Hv He. destruct t as [[p1 p2] p3].
  intros (v1 & v2 & v3 & e1 & e2 & e3 & ? & ? & ? & ? & ? & ? & ->).
  exists v1, v2, v3, e1, e2, e3.
  split_and!; try done; by eapply lookup_weaken.
Qed.

Lemma vertex_of_wired p ts pid (s : State) :
  wired p ts s →
  ∃ v s1,
    vertex_of p pid s = Ok v s1 ∧ wired p ts s1 ∧
    verticies s1 !! pid = Some v ∧
    verticies s ⊆ verticies s1 ∧ edges s1 = edges s.
Proof.
  intros (V1 & V2 & E1 & E2 & E3 & F1 & F2).
  unfold vertex_of, new_Vertex. munfold. cbn.
  destruct (verticies s !! pid) as [v|] eqn:Hpid.
  { exists v, s. by split_and!. }
  eexists _, _. split; [done|]. cbn.
  assert (verticies s ⊆ <[pid := length (vertex_objs s)]> (verticies s))
    as Hsub by by apply insert_subseteq.
  split; [|by rewrite lookup_insert_eq].
  unfold wired; cbn. split_and!; try done.
  - intros pid' v [[<- <-]|[? Hv]]%lookup_insert_Some.
    + by rewrite lookup_app_r, Nat.sub_diag.
    + apply lookup_app_l_Some. by apply V1.
  - intros pid1 pid2 v [[<- <-]|[? Hv1]]%lookup_insert_Some
      [[<- Hv]|[? Hv2]]%lookup_insert_Some; try done.
    + apply V1, lookup_lt_Some in Hv2. lia.
    + apply V1, lookup_lt_Some in Hv1. lia.
    + by eapply V2.
  - intros k e
      (a & b & va & vb & E & ? & ? & ? & ? & ? & ? & ? & ? & ? & ? & ?)%E1.
    exists a, b, va, vb, E. split_and!; try done; by eapply lookup_weaken.
  - eapply Forall2_impl; [done|]. intros t F. by apply face_of_weaken.
Qed.

Lemma edge_of_wired p ts pa pb va vb (s : State) :
  wired p ts s → pa ≠ pb →
  verticies s !! pa = Some va → verticies s !! pb = Some vb →
  ∃ e s1,
    edge_of (edge_key pa pb) va vb s = Ok e s1 ∧ wired p ts s1 ∧
    edges s1 !! edge_key pa pb = Some e ∧
    edges s ⊆ edges s1 ∧ verticies s1 = verticies s.
Proof.
  intros (V1 & V2 & E1 & E2 & E3 & F1 & F2) Hab Hva Hvb.
  unfold edge_of, new_Edge. munfold. cbn.
  destruct (edges s !! edge_key pa pb) as [e|] eqn:Hk.
  { exists e, s. by split_and!. }
  rewrite (V1 _ _ Hva), (V1 _ _ Hvb).
  eexists _, _. split; [done|]. cbn.
  assert (edges s ⊆ <[edge_key pa pb := length (edge_objs s)]> (edges s))
    as Hsub by by apply insert_subseteq.
  split; [|by rewrite lookup_insert_eq].
  unfold wired; cbn. split_and!; try done.
  - intros k e [[<- <-]|[? He]]%lookup_insert_Some.
    + exists pa, pb, va, vb,
        (mkEdge (edge_key pa pb) (Some va) (Some vb) None None
           (distanceTo (pos (vertex_at p pa)) (pos (vertex_at p pb)))).
      split_and!; try done.
      * by rewrite lookup_app_r, Nat.sub_diag.
      * cbn. by rewrite E3.
      * cbn. by rewrite E3.
      * rewrite E3 by done. cbn. lia.
    + apply E1 in He
        as (a & b & va' & vb' & E & ? & ? & ? & ? & ? & ? & ? & ? & ? & ?
            & ?).
      exists a, b, va', vb', E. split_and!; try done.
      by apply lookup_app_l_Some.
  - intros k1 k2 e [[<- <-]|[? He1]]%lookup_insert_Some
      [[<- He]|[? He2]]%lookup_insert_Some; try done.
    + apply E1 in He2 as (? & ? & ? & ? & ? & _ & _ & _ & _ & He2 & _).
      apply lookup_lt_Some in He2. lia.
    + apply E1 in He1 as (? & ? & ? & ? & ? & _ & _ & _ & _ & He1 & _).
      apply lookup_lt_Some in He1. lia.
    + by eapply E2.
  - intros a b ? [? _]%lookup_insert_None. by apply E3.
  - eapply Forall2_impl; [done|]. intros t F. by apply face_of_weaken.
Qed.

Lemma Edge_add_free e f (s : State) E :
  edge_objs s !! e = Some E →
  e_left E = None ∨ e_right E = None →
  Edge_add e f s = Ok () (set_edge_objs (λ l, <[e := Edge_added f E]> l) s).
Proof.
  tidy. intros HE Hfree. unfold Edge_add, Edge_added. munfold. rewrite HE.
  destruct (e_left E), (e_right E); naive_solver.
Qed.

(** The constructor of [Face] on three different edges that have a free
    side: the state it leaves. *)
Lemma new_Face_distinct id pa pb pc ea eb ec (s : State) A B C EA EB EC :
  vertex_objs s !! pa = Some A → vertex_objs s !! pb = Some B →
  vertex_objs s !! pc = Some C →
  edge_objs s !! ea = Some EA → edge_objs s !! eb = Some EB →
  edge_objs s !! ec = Some EC →
  ea ≠ eb → eb ≠ ec → ec ≠ ea →
  e_left EA = None ∨ e_right EA = None →
  e_left EB = None ∨ e_right EB = None →
  e_left EC = None ∨ e_right EC = None →
  let f := length (face_objs s) in
  new_Face id pa pb pc ea eb ec s
  = Ok f
      (set_face_objs
         (λ l, l ++ [mkFace id (Some pa) (Some pb) (Some pc)
                       (Some ea) (Some eb) (Some ec)
                       (Some (triangle_normal (pos A) (pos B) (pos C)))])
         (set_edge_objs
            (λ l, <[ec := Edge_added f EC]>
                    (<[eb := Edge_added f EB]>
                       (<[ea := Edge_added f EA]> l))) s)).
Proof.
  intros HA HB HC HEA HEB HEC Hab Hbc Hca FA FB FC f. unfold new_Face.
  set (F0 := mkFace _ _ _ _ _ _ _ None).
  rewrite (bind_Ok_eq (alloc_f F0) _ s f
             (set_face_objs (λ l, l ++ [F0]) s)) by done.
  rewrite (bind_Ok_eq (Edge_add ea f) _ _ _ _
             (Edge_add_free ea f (set_face_objs (λ l, l ++ [F0]) s) EA HEA
                FA)).
  erewrite (bind_Ok_eq (Edge_add eb f)).
  2:{ apply (Edge_add_free eb f _ EB); [|done]. cbn.
      by rewrite list_lookup_insert_ne. }
  erewrite (bind_Ok_eq (Edge_add ec f)).
  2:{ apply (Edge_add_free ec f _ EC); [|done]. cbn.
      by rewrite !list_lookup_insert_ne. }
  erewrite (bind_Ok_eq (deref vertex_objs pa)); [|by apply deref_Ok].
  erewrite (bind_Ok_eq (deref vertex_objs pb)); [|by apply deref_Ok].
  erewrite (bind_Ok_eq (deref vertex_objs pc)); [|by apply deref_Ok].
  erewrite (bind_Ok_eq (deref face_objs f)).
  2:{ apply deref_Ok. split; [|done]. cbn.
      by rewrite lookup_app_r, Nat.sub_diag. }
  unfold store_f, modify, mbind, M_bind, mret, M_ret. cbn.
  unfold set_face_objs, set_edge_objs. cbn. do 2 f_equal.
  by rewrite insert_app_r_alt, Nat.sub_diag.
Qed.

(** The edge that a wired state holds for two vertex indices. *)
Lemma wired_edge p ts (s : State) (dom : N → Prop) a b e :
  keys_distinct dom → (∀ x, indexed s x → dom x) → dom a → dom b →
  wired p ts s →
  edges s !! edge_key a b = Some e →
  ∃ va vb E,
    a ≠ b ∧
    verticies s !! a = Some va ∧ verticies s !! b = Some vb ∧
    edge_objs s !! e = Some E ∧ e_id E = edge_key a b ∧
    (e_a E = Some va ∧ e_b E = Some vb ∨ e_a E = Some vb ∧ e_b E = Some va) ∧
    e_left E = sides 0 ts a b !! 0 ∧ e_right E = sides 0 ts a b !! 1 ∧
    length (sides 0 ts a b) ≤ 2.
Proof.
  tidy. intros Hinj Hdom Da Db (_ & _ & E1 & _) He.
  apply E1 in He as (a' & b' & va & vb & E & Hab & Hk & Hva & Hvb & HE & Hid
                     & Ha & Hb & Hl & Hr & Hn).
  assert (dom a' ∧ dom b') as [Da' Db'] by (split; apply Hdom; by eexists).
  destruct (Hinj a b a' b' Da Db Da' Db' Hk) as [[-> ->]|[-> ->]].
  - exists va, vb, E. split_and!; auto.
  - exists vb, va, E. rewrite (sides_sym 0 ts b' a').
    split_and!; auto.
Qed.

Lemma Edge_added_sides f (E : Edge) (l : list nat) :
  e_left E = l !! 0 → e_right E = l !! 1 → length l ≤ 1 →
  e_left (Edge_added f E) = (l ++ [f]) !! 0 ∧
  e_right (Edge_added f E) = (l ++ [f]) !! 1 ∧
  e_id (Edge_added f E) = e_id E ∧ e_a (Edge_added f E) = e_a E ∧
  e_b (Edge_added f E) = e_b E ∧
  (e_left E = None ∨ e_right E = None).
Proof.
  tidy. unfold Edge_added. intros Hl Hr Hlen.
  destruct l as [|g [|h l]]; cbn in *; [| |lia]; rewrite Hl; cbn;
    split_and!; auto.
Qed.

(** Two keys of edges of a triangle with three different vertex indices are
    different. *)
Lemma edge_key_distinct (dom : N → Prop) a b c :
  keys_distinct dom → dom a → dom b → dom c →
  a ≠ c → edge_key a b ≠ edge_key b c.
Proof.
  tidy. intros Hinj Da Db Dc Hac Hk.
  destruct (Hinj a b b c Da Db Db Dc Hk) as [[-> ->]|[-> _]]; done.
Qed.

Lemma references_dom (dom : N → Prop) p1 p2 p3 a b :
  dom p1 → dom p2 → dom p3 →
  references (p1, p2, p3) a b = true → dom a ∧ dom b.
Proof.
  tidy. intros D1 D2 D3 Hr. unfold references in Hr.
  apply bool_decide_eq_true in Hr.
  repeat (apply elem_of_cons in Hr as [[= -> ->]|Hr]; [done|]).
  by apply elem_of_nil in Hr.
Qed.

Lemma vertex_of_indexed p pid (s : State) v s' :
  vertex_of p pid s = Ok v s' →
  ∀ x, indexed s' x → x = pid ∨ indexed s x.
Proof.
  tidy. unfold vertex_of, new_Vertex, indexed. munfold.
  destruct (verticies s !! pid) as [v0|] eqn:Hpid; intros [= <- <-] x; cbn.
  - by right.
  - rewrite lookup_insert_is_Some. naive_solver.
Qed.

Lemma keys_distinct_weaken (dom dom' : N → Prop) :
  (∀ x, dom' x → dom x) → keys_distinct dom → keys_distinct dom'.
Proof. tidy. intros Hsub Hinj a b a' b' ? ? ? ?. apply Hinj; auto. Qed.

Lemma references_own p1 p2 p3 :
  references (p1, p2, p3) p1 p2 = true ∧
  references (p1, p2, p3) p2 p3 = true ∧
  references (p1, p2, p3) p3 p1 = true.
Proof.
  tidy. unfold references. rewrite !bool_decide_eq_true. set_solver.
Qed.

(** One turn of the loop of [build] on a wired state, for a triangle that
    brings no edge to more than two triangles. *)
Lemma build_triangle_wired p pre p1 p2 p3 (s : State) (dom : N → Prop) :
  (∀ x y, _hash x y None = _hash y x None) →
  keys_distinct dom →
  (∀ x, indexed s x → dom x) → dom p1 → dom p2 → dom p3 →
  wired p pre s →
  nondegenerate (p1, p2, p3) →
  (∀ a b, sharing (pre ++ [(p1, p2, p3)]) a b ≤ 2) →
  ∃ s', build_triangle p (p1, p2, p3) s = Ok () s' ∧
        wired p (pre ++ [(p1, p2, p3)]) s' ∧
        (∀ x, indexed s' x → dom x).
Proof.
  intros Hsym Hinj Hdom D1 D2 D3 Hw (H12 & H23 & H31) Hsh.
  unfold build_triangle.
  destruct (vertex_of_wired p pre p1 s Hw) as (v1 & s1 & R1 & W1 & Hv1 & S1 & _).
  rewrite (bind_Ok_eq _ _ _ _ _ R1).
  destruct (vertex_of_wired p pre p2 s1 W1)
    as (v2 & s2 & R2 & W2 & Hv2 & S2 & _).
  rewrite (bind_Ok_eq _ _ _ _ _ R2).
  destruct (vertex_of_wired p pre p3 s2 W2)
    as (v3 & s3 & R3 & W3 & Hv3 & S3 & _).
  rewrite (bind_Ok_eq _ _ _ _ _ R3).
  assert (verticies s3 !! p1 = Some v1) as Hv1'.
  { eapply lookup_weaken, S3. eapply lookup_weaken, S2. done. }
  assert (verticies s3 !! p2 = Some v2) as Hv2'
    by (eapply lookup_weaken, S3; done).
  destruct (edge_of_wired p pre p1 p2 v1 v2 s3 W3 H12 Hv1' Hv2')
    as (e1 & s4 & R4 & W4 & He1 & S4 & T4).
  fold (edge_key p1 p2). rewrite (bind_Ok_eq _ _ _ _ _ R4).
  rewrite <-T4 in Hv1', Hv2', Hv3.
  destruct (edge_of_wired p pre p2 p3 v2 v3 s4 W4 H23 Hv2' Hv3)
    as (e2 & s5 & R5 & W5 & He2 & S5 & T5).
  fold (edge_key p2 p3). rewrite (bind_Ok_eq _ _ _ _ _ R5).
  rewrite <-T5 in Hv1', Hv2', Hv3.
  destruct (edge_of_wired p pre p3 p1 v3 v1 s5 W5 H31 Hv3 Hv1')
    as (e3 & s6 & R6 & W6 & He3 & S6 & T6).
  fold (edge_key p3 p1). rewrite (bind_Ok_eq _ _ _ _ _ R6).
  rewrite <-T6 in Hv1', Hv2', Hv3.
  assert (edges s6 !! edge_key p1 p2 = Some e1) as He1'.
  { eapply lookup_weaken, S6. eapply lookup_weaken, S5. done. }
  assert (edges s6 !! edge_key p2 p3 = Some e2) as He2'
    by (eapply lookup_weaken, S6; done).
  assert (∀ x, indexed s6 x → dom x) as Hdom6.
  { intros x. unfold indexed. rewrite T6, T5, T4.
    intros [->|[->|[->|Hx]%(vertex_of_indexed _ _ _ _ _ R1)]%
                 (vertex_of_indexed _ _ _ _ _ R2)]%
             (vertex_of_indexed _ _ _ _ _ R3); auto. }
  clear s1 s2 s3 s4 s5 R1 R2 R3 R4 R5 R6 W1 W2 W3 W4 W5 S1 S2 S3 S4 S5 S6
    Hv1 Hv2 He1 He2 T4 T5 T6 Hw.
  set (t := (p1, p2, p3)) in *.
  pose proof (references_own p1 p2 p3) as (Hr1 & Hr2 & Hr3). fold t in Hr1, Hr2, Hr3.
  (* the three edges *)
  assert (∀ a b e, references t a b = true →
            edges s6 !! edge_key a b = Some e →
            ∃ E, edge_objs s6 !! e = Some E ∧
                 e_left E = sides 0 pre a b !! 0 ∧
                 e_right E = sides 0 pre a b !! 1 ∧
                 length (sides 0 pre a b) ≤ 1) as Hedge.
  { intros a b e Hr He.
    destruct (references_dom dom p1 p2 p3 a b D1 D2 D3 Hr) as [Da Db].
    destruct (wired_edge p pre s6 dom a b e Hinj Hdom6 Da Db W6 He)
      as (va & vb & E & _ & _ & _ & HE & _ & _ & Hl & Hr' & _).
    exists E. split_and!; try done.
    specialize (Hsh a b). rewrite <-(sides_length 0), sides_app, Hr in Hsh.
    rewrite length_app in Hsh. cbn in Hsh. lia. }
  destruct (Hedge _ _ _ Hr1 He1') as (EA & HEA & HlA & HrA & HnA).
  destruct (Hedge _ _ _ Hr2 He2') as (EB & HEB & HlB & HrB & HnB).
  destruct (Hedge _ _ _ Hr3 He3) as (EC & HEC & HlC & HrC & HnC).
  pose proof W6 as (V1 & V2 & E1 & E2 & E3 & F1 & F2).
  assert (e1 ≠ e2) as D12.
  { intros ->. eapply (edge_key_distinct dom p1 p2 p3 Hinj); [done..|].
    by eapply E2. }
  assert (e2 ≠ e3) as D23.
  { intros ->. eapply (edge_key_distinct dom p2 p3 p1 Hinj); [done..|].
    by eapply E2. }
  assert (e3 ≠ e1) as D31.
  { intros ->. eapply (edge_key_distinct dom p3 p1 p2 Hinj); [done..|].
    by eapply E2. }
  set (f := length (face_objs s6)).
  assert (f = length pre) as Hf
    by (symmetry; by eapply Forall2_length).
  destruct (Edge_added_sides f EA _ HlA HrA HnA)
    as (HlA' & HrA' & HidA & HaA & HbA & FA).
  destruct (Edge_added_sides f EB _ HlB HrB HnB)
    as (HlB' & HrB' & HidB & HaB & HbB & FB).
  destruct (Edge_added_sides f EC _ HlC HrC HnC)
    as (HlC' & HrC' & HidC & HaC & HbC & FC).
  erewrite (bind_Ok_eq (new_Face _ _ _ _ _ _ _)).
  2:{ eapply (new_Face_distinct _ v1 v2 v3 e1 e2 e3 s6); try done.
      all: by apply V1. }
  eexists. split; [reflexivity|]. fold f. split; [|done].
  unfold wired; cbn. split_and!; try done.
  - (* the edges *)
    intros k e He.
    destruct (E1 k e He) as (a & b & va & vb & E & Hab & -> & Hva & Hvb & HE
                             & Hid & Ha & Hb & Hl & Hr & Hn2).
    exists a, b, va, vb.
    rewrite !sides_app, Nat.add_0_l, <-Hf.
    destruct (references t a b) eqn:Hrt.
    + destruct (Hedge a b e Hrt He) as (E' & HE' & _ & _ & Hn).
      assert (E' = E) as -> by congruence.
      destruct (Edge_added_sides f E _ Hl Hr Hn)
        as (Hl' & Hr' & Hid' & Ha' & Hb' & _).
      exists (Edge_added f E). split_and!; try done; try congruence.
      2:{ rewrite length_app. cbn. lia. }
      apply references_key in Hrt; [|done].
      rewrite !elem_of_cons, elem_of_nil in Hrt.
      destruct Hrt as [Hk|[Hk|[Hk|[]]]]; rewrite Hk in He.
      * assert (e = e1) as -> by congruence. assert (EA = E) as -> by congruence.
        rewrite list_lookup_insert_ne, list_lookup_insert_ne by done.
        apply list_lookup_insert_eq. by eapply lookup_lt_Some.
      * assert (e = e2) as -> by congruence. assert (EB = E) as -> by congruence.
        rewrite list_lookup_insert_ne by done.
        apply list_lookup_insert_eq. rewrite length_insert.
        by eapply lookup_lt_Some.
      * assert (e = e3) as -> by congruence. assert (EC = E) as -> by congruence.
        apply list_lookup_insert_eq. rewrite !length_insert.
        by eapply lookup_lt_Some.
    + exists E. rewrite !app_nil_r.
      assert (∀ x y e', references t x y = true →
                edges s6 !! edge_key x y = Some e' → e ≠ e') as Hne.
      { intros x y e' Hxy He' <-.
        assert (edge_key a b = edge_key x y) as Hk by by eapply E2.
        destruct (references_dom dom p1 p2 p3 x y D1 D2 D3 Hxy) as [Dx Dy].
        assert (dom a ∧ dom b) as [Da Db]
          by (split; apply Hdom6; by eexists).
        destruct (Hinj a b x y Da Db Dx Dy Hk) as [[-> ->]|[-> ->]];
          [congruence|].
        rewrite references_sym in Hxy. congruence. }
      rewrite !list_lookup_insert_ne by (symmetry; eauto).
      by split_and!.
  - (* no edge, no triangle *)
    intros a b Hab Hk. rewrite sides_app, (E3 a b Hab Hk).
    destruct (references t a b) eqn:Hrt; [|done].
    apply references_key in Hrt; [|done].
    rewrite !elem_of_cons, elem_of_nil in Hrt.
    destruct Hrt as [Hk'|[Hk'|[Hk'|[]]]]; rewrite Hk' in Hk; congruence.
  - (* the faces *)
    apply Forall2_app.
    + eapply Forall2_impl; [done|]. intros t' F'. by apply face_of_weaken.
    + constructor; [|constructor].
      exists v1, v2, v3, e1, e2, e3. by split_and!.
  - by rewrite F2, face_table_app, Nat.add_0_l, <-Hf.
Qed.

Lemma sharing_app ts ts' a b :
  sharing (ts ++ ts') a b = sharing ts a b + sharing ts' a b.
Proof.
  tidy. induction ts as [|t ts IH]; cbn; [done|]. rewrite IH. lia.
Qed.

Lemma build_loop_wired p pre ts (s : State) (dom : N → Prop) :
  (∀ x y, _hash x y None = _hash y x None) →
  keys_distinct dom →
  (∀ x, indexed s x → dom x) → (∀ x, occurs ts x → dom x) →
  wired p pre s →
  Forall nondegenerate ts →
  (∀ a b, sharing (pre ++ ts) a b ≤ 2) →
  ∃ s', build_loop p ts s = Ok () s' ∧ wired p (pre ++ ts) s' ∧
        (∀ x, indexed s' x → dom x).
Proof. tidy.
  intros Hsym Hinj. revert pre s.
  induction ts as [|[[p1 p2] p3] ts IH]; intros pre s Hdom Hocc Hw Hnd Hsh.
  { exists s. by rewrite app_nil_r. }
  apply Forall_cons in Hnd as [Hnd Hnds].
  assert (dom p1 ∧ dom p2 ∧ dom p3) as (D1 & D2 & D3).
  { split_and!; apply Hocc; exists p1, p2, p3; set_solver. }
  destruct (build_triangle_wired p pre p1 p2 p3 s dom Hsym Hinj Hdom D1 D2
              D3 Hw Hnd) as (s1 & E1 & W1 & Hdom1).
  { intros a b. specialize (Hsh a b). rewrite sharing_app in *.
    cbn [sharing] in *. lia. }
  destruct (IH (pre ++ [(p1, p2, p3)]) s1 Hdom1) as (s' & E' & W' & Hdom');
    try done.
  { intros x (q1 & q2 & q3 & Hin & Hx). apply Hocc.
    exists q1, q2, q3. set_solver. }
  { intros a b. by rewrite <-app_assoc. }
  exists s'. rewrite <-app_assoc in W'. split; [|done].
  by rewrite build_loop_cons, (bind_Ok_eq _ _ _ _ _ E1).
Qed.

Lemma new_Navmesh_wired p : wired p [] (new_Navmesh : State).
Proof.
  tidy. unfold wired; cbn. split_and!; try done.
  all: intros *; by rewrite lookup_empty.
Qed.

(** A mesh of triangles with three different vertex indices each, a key
    of [_hash] that does not depend on the order of the two ends of an edge,
    and edge keys that do not collide on the vertex indices of the mesh:
    [build] on a new navmesh returns exactly when no edge is in more than
    two triangles, and the state it leaves is wired as the mesh, with no
    vertex index in the vertex table but those of the mesh. *)
Theorem build_wires_manifold p ts :
  (∀ x y, _hash x y None = _hash y x None) →
  keys_distinct (occurs ts) →
  Forall nondegenerate ts →
  ((∀ a b, sharing ts a b ≤ 2) ↔
   ∃ s', build (mkMesh ts p) new_Navmesh = Ok () s') ∧
  (∀ s', build (mkMesh ts p) new_Navmesh = Ok () s' →
         wired p ts s' ∧ ∀ a, indexed s' a → occurs ts a).
Proof.
  intros Hsym Hinj Hnd.
  assert ((∃ s', build (mkMesh ts p) new_Navmesh = Ok () s') →
          ∀ a b, sharing ts a b ≤ 2) as Hback.
  { intros [s' Hb] a b.
    destruct (decide (sharing ts a b ≤ 2)) as [|Hn]; [done|exfalso].
    destruct (build_loop_sharing p a b ts new_Navmesh 0 Hsym)
      as (? & ? & ? & ? & ? & _ & _ & _ & _ & Ht); [|by left|lia|].
    - apply new_Navmesh_ok.
    - unfold build in Hb. cbn in Hb. congruence. }
  assert ((∀ a b, sharing ts a b ≤ 2) →
          ∃ s', build (mkMesh ts p) new_Navmesh = Ok () s' ∧ wired p ts s' ∧
                ∀ a, indexed s' a → occurs ts a)
    as Hfwd.
  { intros Hsh.
    assert (∀ x, indexed (new_Navmesh : State) x → occurs ts x) as Hnew.
    { intros x [v Hx]. cbn in Hx. by rewrite lookup_empty in Hx. }
    exact (build_loop_wired p [] ts new_Navmesh (occurs ts) Hsym Hinj Hnew
             (λ x Hx, Hx) (new_Navmesh_wired p) Hnd Hsh). }
  split; [split|].
  - intros Hsh. destruct (Hfwd Hsh) as (s' & ? & _). by exists s'.
  - done.
  - intros s' Hb. destruct Hfwd as (s1 & Hb1 & W1); [eauto|].
    assert (s1 = s') as -> by congruence. exact W1.
Qed.

Lemma sides_elem i ts n t a b :
  ts !! n = Some t → references t a b = true → i + n ∈ sides i ts a b.
Proof.
  tidy. revert i n. induction ts as [|t' ts IH]; intros i n; [done|].
  destruct n as [|n]; cbn.
  - intros [= ->] ->. rewrite Nat.add_0_r. set_solver.
  - intros Hn Hr. apply elem_of_app. right.
    replace (i + S n) with (S i + n) by lia. by apply IH.
Qed.

Lemma sides_NoDup i ts a b : NoDup (sides i ts a b).
Proof.
  tidy. revert i. induction ts as [|t ts IH]; intros i; cbn.
  { constructor. }
  destruct (references t a b); cbn; [|done].
  constructor; [|done].
  intros (n & Hn)%list_elem_of_lookup_1.
  apply sides_lookup in Hn as (? & ? & _). lia.
Qed.

Lemma Edge_has_ends (E : Edge) va vb :
  e_a E = Some va ∧ e_b E = Some vb ∨ e_a E = Some vb ∧ e_b E = Some va →
  ∀ v, Edge_has E v = bool_decide (v = Some va ∨ v = Some vb).
Proof.
  tidy. intros Hends v. unfold Edge_has.
  destruct Hends as [[-> ->]|[-> ->]];
    repeat case_bool_decide; naive_solver.
Qed.

(** The faces of a wired state are triangles: three different vertices and
    the edges between the first and the second, the second and the third,
    the third and the first. *)
Lemma wired_triangle p ts (s : State) i F :
  keys_distinct (indexed s) →
  wired p ts s →
  face_objs s !! i = Some F →
  triangle s F.
Proof.
  intros Hinj Hw HF. pose proof Hw as (_ & V2 & _ & _ & _ & F1 & _).
  destruct (Forall2_lookup_r _ _ _ _ _ F1 HF) as ([[p1 p2] p3] & _ & Hof).
  destruct Hof as (v1 & v2 & v3 & e1 & e2 & e3 & Hv1 & Hv2 & Hv3 & He1 & He2
                   & He3 & ->).
  assert (indexed s p1 ∧ indexed s p2 ∧ indexed s p3) as (D1 & D2 & D3)
    by (split_and!; by eexists).
  destruct (wired_edge p ts s _ _ _ _ Hinj (λ x Hx, Hx) D1 D2 Hw He1)
    as (va & vb & EA & H12 & ? & ? & HEA & _ & HendsA & _).
  destruct (wired_edge p ts s _ _ _ _ Hinj (λ x Hx, Hx) D2 D3 Hw He2)
    as (vb' & vc & EB & H23 & ? & ? & HEB & _ & HendsB & _).
  destruct (wired_edge p ts s _ _ _ _ Hinj (λ x Hx, Hx) D3 D1 Hw He3)
    as (vc' & va' & EC & H31 & ? & ? & HEC & _ & HendsC & _).
  simplify_eq.
  exists v1, v2, v3, e1, e2, e3, EA, EB, EC. cbn.
  split_and!; try done.
  - intros ->. by eapply H12, V2.
  - intros ->. by eapply H23, V2.
  - intros ->. by eapply H31, V2.
  - by apply Edge_has_ends.
  - by apply Edge_has_ends.
  - by apply Edge_has_ends.
Qed.

Lemma wired_across p ts (s : State) i t kn :
  keys_distinct (indexed s) →
  wired p ts s →
  ts !! i = Some t →
  ∃ F e E,
    face_objs s !! i = Some F ∧
    find_opposide_edge F (fget F kn) s = Ok (Some e) s ∧
    edges s !! edge_key (across t kn).1 (across t kn).2 = Some e ∧
    edge_objs s !! e = Some E ∧
    match Edge_other E i with
    | Some j =>
        j ≠ i ∧
        ∃ t', ts !! j = Some t' ∧
              references t' (across t kn).1 (across t kn).2 = true
    | None => sharing ts (across t kn).1 (across t kn).2 = 1
    end.
Proof.
  intros Hinj Hw Ht. pose proof Hw as (_ & _ & _ & _ & _ & F1 & _).
  destruct (Forall2_lookup_l _ _ _ _ _ F1 Ht) as (F & HF & Hof).
  pose proof (wired_triangle p ts s i F Hinj Hw HF) as Htri.
  apply find_opposide_edge_triangle in Htri as (Hfa & Hfb & Hfc).
  destruct t as [[p1 p2] p3].
  destruct Hof as (v1 & v2 & v3 & e1 & e2 & e3 & Hv1 & Hv2 & Hv3 & He1 & He2
                   & He3 & ->).
  cbn [f_pa f_pb f_pc f_ea f_eb f_ec] in Hfa, Hfb, Hfc.
  assert (indexed s p1 ∧ indexed s p2 ∧ indexed s p3) as (D1 & D2 & D3)
    by (split_and!; by eexists).
  pose proof (references_own p1 p2 p3) as (Hr1 & Hr2 & Hr3).
  assert (∀ a b e,
            references (p1, p2, p3) a b = true →
            edges s !! edge_key a b = Some e →
            ∃ E, edge_objs s !! e = Some E ∧
                 match Edge_other E i with
                 | Some j =>
                     j ≠ i ∧ ∃ t', ts !! j = Some t' ∧
                                   references t' a b = true
                 | None => sharing ts a b = 1
                 end) as Hother.
  { intros a b e Hr He.
    destruct (references_dom _ p1 p2 p3 a b D1 D2 D3 Hr) as [Da Db].
    destruct (wired_edge p ts s _ _ _ _ Hinj (λ x Hx, Hx) Da Db Hw He)
      as (va & vb & E & _ & _ & _ & HE & _ & _ & Hl & Hr' & Hn).
    exists E. split; [done|].
    pose proof (sides_elem 0 ts i _ a b Ht Hr) as Hin.
    pose proof (sides_NoDup 0 ts a b) as Hnd.
    pose proof (sides_length 0 ts a b) as Hlen.
    assert (∀ n j, sides 0 ts a b !! n = Some j →
                   ∃ t', ts !! j = Some t' ∧ references t' a b = true)
      as Hlook.
    { intros n j (t' & _ & Hj & ?)%sides_lookup.
      rewrite Nat.sub_0_r in Hj. eauto. }
    unfold Edge_other. rewrite Hl, Hr'. cbn in Hin.
    destruct (sides 0 ts a b) as [|x [|y [|z l]]]; cbn in *; [| | |lia].
    - by apply elem_of_nil in Hin.
    - apply list_elem_of_singleton in Hin as <-.
      rewrite bool_decide_eq_true_2 by done. done.
    - apply NoDup_cons in Hnd as [Hxy _].
      apply not_elem_of_cons in Hxy as [Hxy _].
      apply elem_of_cons in Hin as [<-|Hin].
      + rewrite bool_decide_eq_true_2 by done.
        split; [done|]. by apply (Hlook 1).
      + apply list_elem_of_singleton in Hin as <-.
        rewrite bool_decide_eq_false_2 by congruence.
        rewrite bool_decide_eq_true_2 by done.
        split; [done|]. by apply (Hlook 0). }
  destruct kn; cbn [across fst snd fget f_pa f_pb f_pc].
  - destruct (Hother _ _ _ Hr2 He2) as (E & HE & Ho).
    by eexists _, e2, E.
  - destruct (Hother _ _ _ Hr3 He3) as (E & HE & Ho).
    by eexists _, e3, E.
  - destruct (Hother _ _ _ Hr1 He1) as (E & HE & Ho).
    by eexists _, e1, E.
Qed.

(** In a wired state whose edge keys do not collide on the vertex indices
    of the vertex table, the walk goes from a triangle to its neighbour: for
    the face of the triangle at place [i] of the mesh and a vertex of it,
    [find_opposide_edge] gives the edge of the mesh across from the vertex,
    and [other] gives for the face the one other triangle of the mesh that
    has this edge, and nothing when the triangle alone has it. *)
Theorem wired_neighbour p ts (s : State) i t kn :
  keys_distinct (indexed s) →
  wired p ts s →
  ts !! i = Some t →
  ∃ F e E,
    face_objs s !! i = Some F ∧
    find_opposide_edge F (fget F kn) s = Ok (Some e) s ∧
    edges s !! edge_key (across t kn).1 (across t kn).2 = Some e ∧
    edge_objs s !! e = Some E ∧
    match Edge_other E i with
    | Some j =>
        j ≠ i ∧
        ∃ t', ts !! j = Some t' ∧
              references t' (across t kn).1 (across t kn).2 = true
    | None => sharing ts (across t kn).1 (across t kn).2 = 1
    end.
Proof. apply wired_across. Qed.

(** *** The face table *)

Lemma assoc_set_fresh (k : K) v (l : list (K * nat)) :
  k ∉ l.*1 → assoc_set k v l = l ++ [(k, v)].
Proof.
  tidy. induction l as [|[k' v'] l IH]; cbn; [done|].
  intros [? ?]%not_elem_of_cons.
  destruct (decide (k = k')); [done|]. by rewrite IH.
Qed.

Lemma assoc_set_NoDup (k : K) v (l : list (K * nat)) :
  NoDup l.*1 → NoDup (assoc_set k v l).*1.
Proof.
  tidy. induction l as [|[k' v'] l IH]; cbn.
  { intros _. apply NoDup_singleton. }
  intros [Hnin Hnd]%NoDup_cons.
  destruct (decide (k = k')) as [->|Hne]; cbn.
  - by apply NoDup_cons.
  - apply NoDup_cons. split; [|by apply IH].
    intros Hin. apply Hnin. clear IH Hnin Hnd.
    induction l as [|[k2 v2] l IH]; cbn in *; [set_solver|].
    destruct (decide (k = k2)); cbn in *; set_solver.
Qed.

Lemma assoc_set_elem (k : K) v (l : list (K * nat)) x :
  NoDup l.*1 → x ∈ assoc_set k v l → x = (k, v) ∨ x ∈ l ∧ x.1 ≠ k.
Proof.
  tidy. induction l as [|[k' v'] l IH]; cbn.
  { intros _ ->%list_elem_of_singleton. by left. }
  intros [Hnin Hnd]%NoDup_cons.
  destruct (decide (k = k')) as [->|Hne].
  - intros [->|Hin]%elem_of_cons; [by left|right].
    split; [by apply elem_of_cons; right|].
    intros <-. apply Hnin. apply list_elem_of_fmap. by exists x.
  - intros [->|Hin]%elem_of_cons.
    + right. split; [apply elem_of_cons; by left|]. cbn. congruence.
    + destruct (IH Hnd Hin) as [->|[? ?]]; [by left|right].
      split; [by apply elem_of_cons; right|done].
Qed.

(** The face table holds, for every key, the last triangle with the key. *)
Lemma face_table_last ts :
  NoDup (face_table 0 ts []).*1 ∧
  ∀ k v, (k, v) ∈ face_table 0 ts [] →
    ∃ t, ts !! v = Some t ∧ face_key t = k ∧
         ∀ j t', v < j → ts !! j = Some t' → face_key t' ≠ k.
Proof.
  tidy. induction ts as [|t ts [IHnd IH]] using rev_ind.
  { split; [constructor|]. by intros k v ?%elem_of_nil. }
  rewrite face_table_app, Nat.add_0_l.
  split; [by apply assoc_set_NoDup|].
  intros k v [[= -> ->]|[Hin Hk]]%assoc_set_elem; [| |done].
  - exists t. split; [by apply list_lookup_middle|]. split; [done|].
    intros j t' Hj Ht'%lookup_lt_Some. rewrite length_app in Ht'.
    cbn in Ht'. lia.
  - destruct (IH k v Hin) as (t0 & Ht0 & Hk0 & Hlast). cbn in Hk.
    exists t0. split; [by apply lookup_app_l_Some|]. split; [done|].
    intros j t' Hj Ht'.
    destruct (decide (j < length ts)) as [Hlt|Hge].
    + rewrite lookup_app_l in Ht' by done. by eapply Hlast.
    + assert (j = length ts) as ->.
      { apply lookup_lt_Some in Ht'. rewrite length_app in Ht'.
        cbn in Ht'. lia. }
      rewrite list_lookup_middle in Ht' by done. by simplify_eq.
Qed.

Lemma imap_keys (g : nat → nat) ts :
  (imap (λ i t, (face_key t, g i)) ts).*1 = face_key <$> ts ∧
  (imap (λ i t, (face_key t, g i)) ts).*2 = g <$> seq 0 (length ts).
Proof.
  tidy. revert g. induction ts as [|t ts IH]; intros g; [done|]. cbn.
  destruct (IH (g ∘ S)) as [IH1 IH2]. split; f_equal; [exact IH1|].
  rewrite <-fmap_S_seq, <-list_fmap_compose. exact IH2.
Qed.

Lemma face_table_distinct ts :
  NoDup (face_key <$> ts) →
  face_table 0 ts [] = imap (λ i t, (face_key t, i)) ts.
Proof.
  tidy. induction ts as [|t ts IH] using rev_ind; [done|].
  rewrite fmap_app. intros (Hnd & Hnin & _)%NoDup_app.
  rewrite face_table_app, Nat.add_0_l, IH by done.
  rewrite imap_app. cbn. rewrite Nat.add_0_r.
  apply assoc_set_fresh.
  pose proof (proj1 (imap_keys id ts)) as Hkeys. unfold id in Hkeys.
  rewrite Hkeys. intros Hin.
  eapply Hnin; [exact Hin|]. cbn. apply list_elem_of_here.
Qed.

(** When the triangles of the mesh have different face keys, the face table
    of a wired state has their faces in the order of the mesh, which is the
    order in which [register] tries them. *)
Theorem face_table_in_mesh_order p ts (s : State) :
  wired p ts s →
  NoDup (face_key <$> ts) →
  faces s = imap (λ i t, (face_key t, i)) ts ∧
  (faces s).*2 = seq 0 (length ts).
Proof.
  tidy. intros (_ & _ & _ & _ & _ & _ & F2) Hnd.
  rewrite F2, face_table_distinct by done. split; [done|].
  pose proof (proj2 (imap_keys id ts)) as Hrefs. unfold id in Hrefs.
  rewrite Hrefs. apply list_fmap_id.
Qed.

(** Two triangles of the mesh with the same face key: the face of the
    earlier one is not in the face table, the later one took its place, and
    [register] never returns a point on it. *)
Theorem face_key_collision_loses_face p ts (s : State) i j t t' :
  wired p ts s →
  ts !! i = Some t → ts !! j = Some t' → i < j →
  face_key t = face_key t' →
  i ∉ (faces s).*2 ∧
  ∀ target id s',
    register target s = Ok (Some id) s' →
    ∃ pt, points s' !! id = Some pt ∧ p_face pt ≠ i.
Proof.
  tidy. intros (_ & _ & _ & _ & _ & _ & F2) Hi Hj Hij Hk.
  assert (i ∉ (faces s).*2) as Hnin.
  { rewrite F2. intros ([k v] & -> & Hin)%list_elem_of_fmap. cbn in *.
    destruct (face_table_last ts) as [_ Hlast].
    destruct (Hlast k v Hin) as (t0 & Ht0 & Hk0 & Hno).
    apply (Hno j t'); [done|done|]. congruence. }
  split; [done|].
  intros target id s' Hr. unfold register in Hr.
  apply bind_Ok in Hr as (fs & ? & [-> ->]%gets_Ok & Hr).
  pose proof (register_scan_outcome target (faces s) s) as Ho.
  rewrite Hr in Ho.
  destruct Ho as (pre & k & face & post & pr & bc & Hfs & _ & _ & _ & _ & ->).
  eexists. split; [cbn; apply lookup_insert_eq|]. cbn.
  intros ->. apply Hnin. rewrite Hfs, fmap_app, fmap_cons. cbn. set_solver.
Qed.

(** *** The walk on a wired state *)

Lemma wired_set_points p ts (s : State) g :
  wired p ts s → wired p ts (set_points g s).
Proof. done. Qed.

Lemma wired_complete p ts (s : State) i F :
  wired p ts s → face_objs s !! i = Some F → complete s i.
Proof.
  intros (V1 & _ & E1 & _ & _ & F1 & _) HF.
  destruct (Forall2_lookup_r _ _ _ _ _ F1 HF) as ([[p1 p2] p3] & _ & Hof).
  destruct Hof as (v1 & v2 & v3 & e1 & e2 & e3 & Hv1 & Hv2 & Hv3 & He1 & He2
                   & He3 & ->).
  eexists _, _, v1, _, v2, _, v3, _, e1, e2, e3. cbn.
  split_and!; try done; try (by apply V1).
  - apply E1 in He1 as (? & ? & ? & ? & ? & _ & _ & _ & _ & HE & _).
    by eapply lookup_lt_Some.
  - apply E1 in He2 as (? & ? & ? & ? & ? & _ & _ & _ & _ & HE & _).
    by eapply lookup_lt_Some.
  - apply E1 in He3 as (? & ? & ? & ? & ? & _ & _ & _ & _ & HE & _).
    by eapply lookup_lt_Some.
Qed.

(** The [for] loop of an iteration on a face of a wired state: it finds
    its edges, and what it finds is a face of the mesh or an edge with its
    two ends. *)
Lemma scan_wired p ts (s : State) i F bcpos tested ks :
  keys_distinct (indexed s) →
  wired p ts s →
  face_objs s !! i = Some F →
  ∃ tested' found,
    scan i F bcpos tested ks s = Ok (tested', found) s ∧
    match found with
    | NoEdge => True
    | Crossed e f => f < length (face_objs s)
    | Noface e =>
        ∃ E a A b B,
          edge_objs s !! e = Some E ∧
          e_a E = Some a ∧ vertex_objs s !! a = Some A ∧
          e_b E = Some b ∧ vertex_objs s !! b = Some B
    end.
Proof.
  intros Hinj Hw HF. pose proof Hw as (V1 & _ & _ & _ & _ & F1 & _).
  destruct (Forall2_lookup_r _ _ _ _ _ F1 HF) as (t & Ht & _).
  revert tested. induction ks as [|[k kn] ks IH]; intros tested; cbn.
  { by eexists _, NoEdge. }
  destruct (lt0 (vget bcpos k)); [|apply IH].
  destruct (wired_across p ts s i t kn Hinj Hw Ht)
    as (F' & e & E & HF' & Hfind & He & HE & Ho).
  assert (F' = F) as -> by congruence.
  rewrite (bind_Ok_eq _ _ _ _ _ Hfind). cbn [nonnull].
  erewrite (bind_Ok_eq (mret e)) by done.
  erewrite (bind_Ok_eq (deref edge_objs e)); [|by apply deref_Ok].
  destruct (tested !! e_id E); [apply IH|].
  destruct (Edge_other E i) as [j|].
  - eexists _, (Crossed e j). split; [done|].
    destruct Ho as (_ & t' & Hj%lookup_lt_Some & _).
    by rewrite <-(Forall2_length _ _ _ F1).
  - eexists _, (Noface e). split; [done|].
    assert (indexed s (across t kn).1 ∧ indexed s (across t kn).2)
      as [Da Db].
    { destruct (Forall2_lookup_r _ _ _ _ _ F1 HF) as (t0 & Ht0 & Hof).
      assert (t0 = t) as -> by congruence.
      destruct t as [[p1 p2] p3].
      destruct Hof as (v1 & v2 & v3 & ? & ? & ? & Hv1 & Hv2 & Hv3 & _).
      destruct kn; cbn; split; by eexists. }
    destruct (wired_edge p ts s _ _ _ _ Hinj (λ x Hx, Hx) Da Db Hw He)
      as (va & vb & E' & _ & Hva & Hvb & HE' & _ & Hends & _).
    assert (E' = E) as -> by congruence.
    apply V1 in Hva, Hvb.
    destruct Hends as [[? ?]|[? ?]]; eexists E, _, _, _, _; by split_and!.
Qed.

(** An iteration of the walk on a wired state, for a point on a face of the
    heap: it returns, and leaves such a state. *)
Lemma move_iter_wired p ts id (w : Walk) (s : State) pt :
  keys_distinct (indexed s) →
  wired p ts s →
  points s !! id = Some pt → p_face pt < length (face_objs s) →
  (deadlock w ≤ 10)%Z →
  ∃ w' found s' pt',
    move_iter id w s = Ok (w', found) s' ∧
    wired p ts s' ∧
    points s' !! id = Some pt' ∧ p_face pt' < length (face_objs s') ∧
    (deadlock w' ≤ 10)%Z ∧ verticies s' = verticies s.
Proof.
  intros Hinj Hw Hpt Hlt Hd.
  apply lookup_lt_is_Some_2 in Hlt as HF. destruct HF as [F HF].
  pose proof (wired_complete p ts s _ F Hw HF) as Hc.
  destruct (locate_complete F _ (np w) s Hc HF) as (pr & bc & Hloc).
  destruct (scan_wired p ts s _ F bc (tested_edges w) vecnames_to_facenames
              Hinj Hw HF) as (tested' & found & Hscan & Hfound).
  assert (∀ tested np' (s1 : State),
            deadlock_check (mkWalk np' tested (deadlock w)) s1 = Ok () s1)
    as Hdc.
  { intros. unfold deadlock_check. cbn.
    by destruct (Z.ltb_spec 10 (deadlock w)); [lia|]. }
  unfold move_iter.
  erewrite (bind_Ok_eq (point id)); [|by apply point_Ok].
  erewrite (bind_Ok_eq (deref face_objs _)); [|by apply deref_Ok].
  rewrite (bind_Ok_eq _ _ _ _ _ Hloc). cbv beta iota.
  rewrite (bind_Ok_eq _ _ _ _ _ Hscan). cbv beta iota.
  destruct found as [|e f|e].
  - destruct Hc as (F' & normal & pa & A & pb & B & pc & C & ea & eb & ec
                    & HF' & Hn & Hpa & HA & Hpb & HB & Hpc & HC & _).
    assert (F' = F) as -> by congruence.
    rewrite (bind_Ok_eq (modify _) _ s () _) by done.
    erewrite (bind_Ok_eq (point id));
      [|apply point_Ok; split; [cbn; apply lookup_insert_eq|done]].
    erewrite (bind_Ok_eq (deref face_objs _)); [|by apply deref_Ok].
    cbn [p_face p_bcpos p_id]. rewrite Hpa, Hpb, Hpc. cbn [nonnull].
    erewrite (bind_Ok_eq (mret pa)) by done.
    erewrite (bind_Ok_eq (deref vertex_objs pa)); [|by apply deref_Ok].
    erewrite (bind_Ok_eq (mret pb)) by done.
    erewrite (bind_Ok_eq (deref vertex_objs pb)); [|by apply deref_Ok].
    erewrite (bind_Ok_eq (mret pc)) by done.
    erewrite (bind_Ok_eq (deref vertex_objs pc)); [|by apply deref_Ok].
    erewrite (bind_Ok_eq (modify _)) by done.
    erewrite (bind_Ok_eq (deadlock_check _)) by apply Hdc.
    eexists _, _, _, _. split; [reflexivity|]. cbn.
    split; [done|]. by rewrite lookup_insert_eq.
  - rewrite (bind_Ok_eq (modify _) _ s () _) by done.
    erewrite (bind_Ok_eq (deadlock_check _)) by apply Hdc.
    eexists _, _, _, _. split; [reflexivity|]. cbn.
    split; [done|]. by rewrite lookup_insert_eq.
  - destruct Hfound as (E & a & A & b & B & HE & Ha & HA & Hb & HB).
    erewrite (bind_Ok_eq (deref edge_objs _)); [|by apply deref_Ok].
    rewrite Ha, Hb. cbn [nonnull].
    erewrite (bind_Ok_eq (mret a)) by done.
    erewrite (bind_Ok_eq (deref vertex_objs a)); [|by apply deref_Ok].
    erewrite (bind_Ok_eq (mret b)) by done.
    erewrite (bind_Ok_eq (deref vertex_objs b)); [|by apply deref_Ok].
    erewrite (bind_Ok_eq (deadlock_check _)) by apply Hdc.
    eexists _, _, _, pt. split; [reflexivity|]. by split_and!.
Qed.

Lemma move_loop_wired p ts fuel id (w : Walk) (s : State) pt :
  keys_distinct (indexed s) →
  wired p ts s →
  points s !! id = Some pt → p_face pt < length (face_objs s) →
  (deadlock w ≤ 10)%Z →
  move_loop fuel id w s = OutOfFuel ∨
  ∃ s' pt',
    move_loop fuel id w s = Ok (p_worldpos pt') s' ∧
    wired p ts s' ∧
    points s' !! id = Some pt' ∧ p_face pt' < length (face_objs s').
Proof.
  revert w s pt.
  induction fuel as [|fuel IH]; intros w s pt Hinj Hw Hpt Hlt Hd; [by left|].
  destruct (move_iter_wired p ts id w s pt Hinj Hw Hpt Hlt Hd)
    as (w' & found & s1 & pt1 & Hi & Hw1 & Hpt1 & Hlt1 & Hd1 & Hv1).
  assert (keys_distinct (indexed s1)) as Hinj1.
  { eapply keys_distinct_weaken, Hinj. intros x. unfold indexed.
    by rewrite Hv1. }
  cbn [move_loop]. rewrite (bind_Ok_eq _ _ _ _ _ Hi). cbv beta iota.
  destruct (changed found); [by eapply IH|].
  right. exists s1, pt1.
  erewrite (bind_Ok_eq (point id)); [|by apply point_Ok].
  by split_and!.
Qed.

(** [move] on a wired state whose edge keys do not collide on the vertex
    indices of the vertex table returns for every point that is on a face
    of the mesh and for every target: no read in the walk meets [null], the
    state it leaves is wired as before, and the point is on a face of the
    mesh, at the position returned. *)
Theorem move_returns_on_wired p ts id newpos (s : State) pt :
  keys_distinct (indexed s) →
  wired p ts s →
  points s !! id = Some pt → p_face pt < length ts →
  ∃ v s' pt',
    move id newpos s = Ok v s' ∧
    wired p ts s' ∧
    points s' !! id = Some pt' ∧ p_face pt' < length ts ∧
    p_worldpos pt' = v.
Proof.
  intros Hinj Hw Hpt Hlt.
  pose proof Hw as (_ & _ & _ & _ & _ & F1 & _).
  apply Forall2_length in F1.
  destruct (move_loop_wired p ts (S (length (edge_objs s))) id
              (walk_start newpos) s pt Hinj Hw Hpt)
    as [Hout|(s' & pt' & Hm & Hw' & Hpt' & Hlt')]; [lia|done|..].
  - by apply move_returns in Hout.
  - exists (p_worldpos pt'), s', pt'. split_and!; try done.
    destruct Hw' as (_ & _ & _ & _ & _ & F1' & _).
    apply Forall2_length in F1'. lia.
Qed.

(** [register] on a wired state that returns an id has stored a point on a
    face of the mesh, one of the face table, and the state is wired as
    before: the hypotheses of [move_returns_on_wired] hold for the point. *)
Theorem register_on_wired p ts target (s : State) id s' :
  wired p ts s →
  register target s = Ok (Some id) s' →
  wired p ts s' ∧
  ∃ pt k,
    points s' !! id = Some pt ∧ (k, p_face pt) ∈ faces s ∧
    p_face pt < length ts.
Proof.
  tidy. intros Hw Hr. pose proof Hw as (_ & _ & _ & _ & _ & _ & F2).
  unfold register in Hr.
  apply bind_Ok in Hr as (fs & ? & [-> ->]%gets_Ok & Hr).
  pose proof (register_scan_outcome target (faces s) s) as Ho.
  rewrite Hr in Ho.
  destruct Ho as (pre & k & face & post & pr & bc & Hfs & _ & _ & _ & _ & ->).
  split; [done|].
  eexists _, k. split; [cbn; apply lookup_insert_eq|]. cbn.
  assert ((k, face) ∈ faces s) as Hin by (rewrite Hfs; set_solver).
  split; [done|]. rewrite F2 in Hin.
  destruct (face_table_last ts) as [_ Hlast].
  destruct (Hlast k face Hin) as (t & Ht & _).
  by eapply lookup_lt_Some.
Qed.

(** ** Every state of a navmesh *)

(** In a state that calls of [build], [register], [move] and [dispose] on
    a new navmesh have led to, whether they returned or threw, [register]
    and [dispose] return: they throw nothing. *)
Theorem reachable_calls_return target (s : State) :
  reachable s →
  (∃ r s', register target s = Ok r s') ∧ (∃ s', dispose s = Ok () s').
Proof.
  intros (_ & Hfo & _)%reachable_ok.
  split; [by apply register_total|by apply dispose_total].
Qed.

Lemma sharing_le_length ts a b : sharing ts a b ≤ length ts.
Proof.
  tidy. induction ts as [|t ts IH]; cbn; [done|].
  destruct (references t a b); lia.
Qed.

(** [wired] looks at the heap and the three tables of the mesh only. *)
Lemma wired_same_mesh p ts (s s' : State) :
  vertex_objs s' = vertex_objs s → edge_objs s' = edge_objs s →
  face_objs s' = face_objs s → verticies s' = verticies s →
  edges s' = edges s → faces s' = faces s →
  wired p ts s → wired p ts s'.
Proof.
  tidy. unfold wired, face_of. intros -> -> -> -> -> ->. done.
Qed.

End Properties.


(** * The methods on concrete meshes *)

(** ** The quad: locating, crossing and clamping *)

Lemma quad_register :
  Exact.register (Exact.vec (3 # 4) (1 # 4) 0) quad_built
  = Ok (Some "p0") quad_registered.
Proof. vm_compute. reflexivity. Qed.

Lemma quad_crossing_step :
  Exact.move_iter "p0" quad_crossing quad_registered
  = Ok (quad_crossed.1, Crossed 2 1) quad_crossed.2.
Proof. vm_compute. reflexivity. Qed.

Lemma quad_clamping_step :
  Exact.move_iter "p0" quad_leaving quad_registered
  = Ok (quad_clamped.1, Noface 1) quad_clamped.2.
Proof. vm_compute. reflexivity. Qed.

(** The point moved into the other triangle is bound to it, and the point
    moved to (5, 1/2, 0) ends at (1, 1/2, 0) on the edge from (1,0,0) to
    (1,1,0). *)
Lemma quad_move_across :
  match Exact.move "p0" (Exact.vec (1 # 4) (3 # 4) 0) quad_registered with
  | Ok v s =>
      v = Exact.vec (1 # 4) (3 # 4) 0 ∧
      points s !! "p0"
      = Some (mkNavmeshPoint (Exact.vec (1 # 4) (3 # 4) 0)
                (Exact.vec (1 # 4) (1 # 4) (1 # 2)) "p0" 1)
  | _ => False
  end.
Proof. vm_compute. by split. Qed.

Lemma quad_move_outside :
  match Exact.move "p0" (Exact.vec 5 (1 # 2) 0) quad_registered with
  | Ok v s =>
      v = Exact.vec 1 (1 # 2) 0 ∧
      points s !! "p0"
      = Some (mkNavmeshPoint (Exact.vec 1 (1 # 2) 0)
                (Exact.vec 0 (1 # 2) (1 # 2)) "p0" 0)
  | _ => False
  end.
Proof. vm_compute. by split. Qed.

(** A target beyond the corner (1,1,0) ends at the corner, the end of the
    segment, and not on the line through the edge. *)
Lemma quad_move_beyond_corner :
  match Exact.move "p0" (Exact.vec 5 5 0) quad_registered with
  | Ok v s =>
      v = Exact.vec 1 1 0 ∧
      points s !! "p0"
      = Some (mkNavmeshPoint (Exact.vec 1 1 0) (Exact.vec 0 0 1) "p0" 0)
  | _ => False
  end.
Proof. vm_compute. by split. Qed.

Lemma Exact_hash_sym x y : Exact._hash x y None = Exact._hash y x None.
Proof. unfold Exact._hash. f_equal; lia. Qed.

Lemma new_Navmesh_tables_ok : tables_ok Exact.new_Navmesh.
Proof. split; intros ? ?; cbn; by rewrite lookup_empty. Qed.

Lemma quad_built_points_fresh : points_fresh quad_built.
Proof.
  intros id. assert (points quad_built = ∅) as -> by (vm_compute; reflexivity).
  rewrite lookup_empty. by intros [? ?].
Qed.

(** The quad is a state of a navmesh. *)
Lemma quad_built_reachable :
  reachable Exact.zero Exact.lt0 Exact.ge0 Exact.project_on_plane
    Exact.triangle_normal Exact.get_barycentric_coordinates
    Exact.barycentric_to_cartesian Exact.project_on_line Exact.distanceTo
    Exact._hash quad_built.
Proof.
  eapply (reachable_build _ _ _ _ _ _ _ _ _ _ quad); [apply reachable_new|].
  left. exists (). vm_compute. reflexivity.
Qed.

Lemma quad_built_faces_ok : faces_ok quad_built.
Proof.
  by destruct (reachable_ok _ _ _ _ _ _ _ _ _ _ _ quad_built_reachable)
    as (_ & ? & _).
Qed.

(** The faces of the quad are wired as triangles. *)
Lemma quad_faces_are_triangles F :
  F ∈ face_objs quad_registered → triangle quad_registered F.
Proof.
  assert (face_objs quad_registered
          = [mkFace (90, 0)%N (Some 0) (Some 1) (Some 2) (Some 0) (Some 1)
               (Some 2) (Some (Exact.vec 0 0 1));
             mkFace (150, 0)%N (Some 0) (Some 2) (Some 3) (Some 2) (Some 3)
               (Some 4) (Some (Exact.vec 0 0 1))]) as ->
    by (vm_compute; reflexivity).
  intros [->|[->|[]%elem_of_nil]%elem_of_cons]%elem_of_cons.
  - exists 0, 1, 2, 0, 1, 2.
    exists (mkEdge (41, 0)%N (Some 0) (Some 1) (Some 0) None 1%Q),
      (mkEdge (101, 198)%N (Some 1) (Some 2) (Some 0) None 1%Q),
      (mkEdge (71, 0)%N (Some 2) (Some 0) (Some 0) (Some 1) 1%Q).
    split_and!; try done; try (vm_compute; reflexivity).
    all: intros v; unfold Edge_has; cbn;
      repeat case_bool_decide; naive_solver.
  - exists 0, 2, 3, 2, 3, 4.
    exists (mkEdge (71, 0)%N (Some 2) (Some 0) (Some 0) (Some 1) 1%Q),
      (mkEdge (161, 594)%N (Some 2) (Some 3) (Some 1) None 1%Q),
      (mkEdge (101, 0)%N (Some 3) (Some 0) (Some 1) None 1%Q).
    split_and!; try done; try (vm_compute; reflexivity).
    all: intros v; unfold Edge_has; cbn;
      repeat case_bool_decide; naive_solver.
Qed.

(** ** Witnesses of the theorems above *)

Lemma move_never_deadlocks_witness :
  Exact.iterates "p0" quad_crossing quad_registered
    quad_crossed.1 quad_crossed.2 ∧
  deadlock quad_crossed.1 = 0%Z ∧
  ∀ s', Exact.move "p0" (Exact.vec (1 # 4) (3 # 4) 0) quad_registered
        ≠ Throw DeadlockError s'.
Proof.
  assert (Exact.iterates "p0" quad_crossing quad_registered
            quad_crossed.1 quad_crossed.2) as Hi.
  { eapply iterates_step;
      [apply iterates_refl|apply quad_crossing_step|reflexivity]. }
  split; [exact Hi|].
  destruct (move_never_deadlocks _ _ _ _ _ _ _ _ _ _ Hi)
    as (? & _ & _ & ? & _).
  by split.
Defined.

Lemma build_rejects_third_face_witness :
  (∀ x y, Exact._hash x y None = Exact._hash y x None) ∧
  tables_ok Exact.new_Navmesh ∧
  3 ≤ sharing (indices three_on_an_edge) 0 1 ∧
  ∃ s', Exact.build three_on_an_edge Exact.new_Navmesh
        = Throw EdgeAddError s'.
Proof.
  split; [exact Exact_hash_sym|]. split; [exact new_Navmesh_tables_ok|].
  split; [vm_compute; lia|].
  destruct (build_rejects_third_face Exact.zero Exact.triangle_normal
              Exact.distanceTo Exact._hash (positions three_on_an_edge)
              (indices three_on_an_edge) 0 1 Exact.new_Navmesh
              Exact_hash_sym new_Navmesh_tables_ok)
    as (_ & _ & _ & _ & s' & _ & _ & _ & _ & Hb & _); [vm_compute; lia|].
  by exists s'.
Defined.

Lemma build_failure_keeps_prefix_witness :
  tables_ok Exact.new_Navmesh ∧
  Exact.build late_third Exact.new_Navmesh
  = Throw EdgeAddError (Exact.after (Exact.build late_third)
                          Exact.new_Navmesh) ∧
  extends Exact.new_Navmesh
    (Exact.after (Exact.build late_third) Exact.new_Navmesh) ∧
  (∃ F, last (face_objs (Exact.after (Exact.build late_third)
                           Exact.new_Navmesh)) = Some F ∧
        f_normal F = None) ∧
  (∃ e E, edges (Exact.after (Exact.build late_third) Exact.new_Navmesh)
            !! edge_key Exact._hash 2 0 = Some e ∧
          edge_objs (Exact.after (Exact.build late_third) Exact.new_Navmesh)
            !! e = Some E ∧
          e_left E = Some 0 ∧ e_right E = Some 2) ∧
  length (faces (Exact.after (Exact.build late_third) Exact.new_Navmesh)) = 2.
Proof.
  assert (Exact.build late_third Exact.new_Navmesh
          = Throw EdgeAddError (Exact.after (Exact.build late_third)
                                  Exact.new_Navmesh)) as Hb
    by (vm_compute; reflexivity).
  split; [exact new_Navmesh_tables_ok|]. split; [exact Hb|].
  destruct (build_failure_keeps_prefix _ _ _ _ _ _ _ _ _
              new_Navmesh_tables_ok Hb)
    as (pre & p1 & p2 & p3 & post & s1 & v1 & v2 & v3 & e1 & e2 & e3 & added
        & full & rest & _ & _ & _ & _ & Hx1 & Hx2 & _ & _ & _ & _ & _ & _ & _
        & _ & _ & Hf & _).
  split; [by eapply extends_trans|]. split.
  { rewrite Hf, last_snoc. eexists. split; reflexivity. }
  split; [|vm_compute; reflexivity].
  eexists _, _. split; [vm_compute; reflexivity|].
  split; [vm_compute; reflexivity|]. split; reflexivity.
Defined.

Lemma Ok_result {A} (a a' : A) (s s' : Exact.State) :
  Ok a s = Ok a' s' → a = a' ∧ s = s'.
Proof. by intros [= -> ->]. Qed.

Lemma quad_register_second :
  Exact.register (Exact.vec (1 # 4) (3 # 4) 0) quad_built
  = Ok (Some "p0")
      (Exact.after (Exact.register (Exact.vec (1 # 4) (3 # 4) 0)) quad_built).
Proof. vm_compute. reflexivity. Qed.

Lemma register_first_accepting_witness :
  faces_ok quad_built ∧
  points_fresh quad_built ∧
  (guids quad_built < 2 ^ 53)%N ∧
  ∃ pre k post projected bcpos,
    faces quad_built = pre ++ (k, 1) :: post ∧
    pre ≠ [] ∧
    Forall (rejects Exact.ge0 Exact.project_on_plane
              Exact.get_barycentric_coordinates quad_built
              (Exact.vec (1 # 4) (3 # 4) 0)) pre ∧
    Exact.ge0 (v_x bcpos) = true ∧ Exact.ge0 (v_y bcpos) = true ∧
    Exact.ge0 (v_z bcpos) = true ∧
    points (Exact.after (Exact.register (Exact.vec (1 # 4) (3 # 4) 0))
              quad_built) !! "p0"
    = Some (mkNavmeshPoint projected bcpos "p0" 1).
Proof.
  assert (guids quad_built < 2 ^ 53)%N as Hg by (vm_compute; reflexivity).
  split; [exact quad_built_faces_ok|].
  split; [exact quad_built_points_fresh|]. split; [exact Hg|].
  destruct (register_first_accepting Exact.ge0 Exact.project_on_plane
              Exact.get_barycentric_coordinates
              (Exact.vec (1 # 4) (3 # 4) 0) quad_built
              quad_built_faces_ok quad_built_points_fresh Hg)
    as (r & s' & Hr & Hm).
  change (register _ _ _ _ _) with
    (Exact.register (Exact.vec (1 # 4) (3 # 4) 0) quad_built) in Hr.
  rewrite quad_register_second in Hr. apply Ok_result in Hr as [<- Hs'].
  destruct Hm as (pre & k & face & post & projected & bcpos & Hfs & Hpre & _
                  & Hx & Hy & Hz & _ & _ & Hs & _).
  assert (points s' !! "p0" = Some (mkNavmeshPoint projected bcpos "p0" face))
    as Hp.
  { rewrite Hs. apply lookup_insert_eq. }
  rewrite <-Hs' in Hp.
  assert (face = 1) as ->.
  { apply (f_equal (fmap p_face)) in Hp. vm_compute in Hp.
    injection Hp as Hp. symmetry. exact Hp. }
  exists pre, k, post, projected, bcpos.
  split; [exact Hfs|]. split.
  { intros ->. apply (f_equal (λ l, snd <$> head l)) in Hfs.
    vm_compute in Hfs. discriminate Hfs. }
  split; [exact Hpre|]. split; [exact Hx|]. split; [exact Hy|].
  split; [exact Hz|]. exact Hp.
Defined.

Lemma move_crosses_opposite_edge_witness :
  (deadlock quad_crossing ≤ 10)%Z ∧
  points quad_crossed.2 !! "p0"
  = Some (mkNavmeshPoint (Exact.vec (3 # 4) (1 # 4) 0)
            (Exact.vec (1 # 4) (1 # 2) (1 # 4)) "p0" 1).
Proof.
  assert (deadlock quad_crossing ≤ 10)%Z as Hd by (vm_compute; discriminate).
  split; [exact Hd|].
  destruct (move_crosses_opposite_edge Exact.lt0 Exact.project_on_plane
              Exact.get_barycentric_coordinates
              Exact.barycentric_to_cartesian Exact.project_on_line
              "p0" quad_crossing quad_registered quad_crossed.1 2 1
              quad_crossed.2 Hd) as [_ Hc].
  destruct (Hc quad_crossing_step) as (p & F & k & kn & Hp & _ & _ & _ & _
                                       & Hp' & _).
  vm_compute in Hp. injection Hp as <-. exact Hp'.
Defined.

Lemma move_clamps_at_boundary_witness :
  (deadlock quad_leaving ≤ 10)%Z ∧
  points quad_clamped.2 !! "p0"
  = Some (mkNavmeshPoint (Exact.vec (3 # 4) (1 # 4) 0)
            (Exact.vec (1 # 4) (1 # 2) (1 # 4)) "p0" 0).
Proof.
  assert (deadlock quad_leaving ≤ 10)%Z as Hd by (vm_compute; discriminate).
  split; [exact Hd|].
  destruct (move_clamps_at_boundary Exact.lt0 Exact.project_on_plane
              Exact.get_barycentric_coordinates
              Exact.barycentric_to_cartesian Exact.project_on_line
              "p0" quad_leaving quad_registered quad_clamped.1 1
              quad_clamped.2 Hd) as [_ Hc].
  destruct (Hc quad_clamping_step) as (p & E & Hp & _ & _ & Hp' & _).
  vm_compute in Hp. injection Hp as <-. exact Hp'.
Defined.

(** ** Where the code leaves what the specification asks for *)

Lemma corner_register :
  Exact.register (Exact.vec (1 # 4) (1 # 4) 0) corner_built
  = Ok (Some "p0") corner_registered ∧
  points corner_registered !! "p0"
  = Some (mkNavmeshPoint (Exact.vec (1 # 4) (1 # 4) 0)
            (Exact.vec (1 # 2) (1 # 4) (1 # 4)) "p0" 0).
Proof. split; vm_compute; reflexivity. Qed.

(** C1 (code bug): the point on the floor is moved to a target below the
    floor and behind the wall.  The walk crosses the common edge to the
    wall, finds the third coordinate negative there, passes over the edge
    because it is tested, and commits: the stored barycentric coordinates
    are (1/2, 3/2, -1) in the face of the wall. *)
Theorem move_commits_outside_face :
  match Exact.move "p0" corner_target corner_registered with
  | Ok v s =>
      s = corner_moved ∧
      v = Exact.vec (1 # 2) 0 (-1) ∧
      points s !! "p0"
      = Some (mkNavmeshPoint (Exact.vec (1 # 2) 0 (-1))
                (Exact.vec (1 # 2) (3 # 2) (-1)) "p0" 1) ∧
      Exact.lt0 (-1)%Q = true ∧
      inside Exact.ge0 (Exact.vec (1 # 2) (3 # 2) (-1)) = false
  | _ => False
  end.
Proof. vm_compute. by split_and!. Qed.

(** C9 (code bug): the same call once more.  The first call left the point
    in the face of the wall; the second one starts with no tested edge,
    crosses the common edge back and commits in the face of the floor, at
    another position. *)
Theorem move_twice_changes_face :
  match Exact.move "p0" corner_target corner_moved with
  | Ok v s =>
      points corner_moved !! "p0"
      = Some (mkNavmeshPoint (Exact.vec (1 # 2) 0 (-1))
                (Exact.vec (1 # 2) (3 # 2) (-1)) "p0" 1) ∧
      points s !! "p0"
      = Some (mkNavmeshPoint (Exact.vec (1 # 2) (-1) 0)
                (Exact.vec (3 # 2) (1 # 2) (-1)) "p0" 0) ∧
      v = Exact.vec (1 # 2) (-1) 0
  | _ => False
  end.
Proof. vm_compute. by split_and!. Qed.

(** C2 (code bug): a walk across the twelve triangles of the fan.  Eleven
    iterations each cross an edge and ask for another iteration, the twelfth
    commits in the last triangle, and [move] returns: the counter is 0 all
    along and nothing stops the walk after ten iterations. *)
Theorem move_walks_past_the_cap :
  Exact.move_loop 11 "p0" (walk_start fan_target) fan_registered = OutOfFuel ∧
  Exact.move_loop 12 "p0" (walk_start fan_target) fan_registered
  = Exact.move "p0" fan_target fan_registered ∧
  match Exact.move "p0" fan_target fan_registered with
  | Ok v s =>
      v = fan_target ∧
      points s !! "p0"
      = Some (mkNavmeshPoint fan_target (Exact.vec (1 # 2) (1 # 4) (1 # 4))
                "p0" 11)
  | _ => False
  end.
Proof. vm_compute. by split_and!. Qed.

(** C5, as the claim has it, fails: the build of three triangles on one edge
    throws and leaves the vertices, edges and faces it has entered. *)
Lemma build_failure_mutates_tables :
  ∃ s', Exact.build three_on_an_edge Exact.new_Navmesh
        = Throw EdgeAddError s' ∧
        verticies s' ≠ verticies Exact.new_Navmesh ∧
        edges s' ≠ edges Exact.new_Navmesh ∧
        faces s' ≠ faces Exact.new_Navmesh.
Proof.
  eexists. split; [vm_compute; reflexivity|].
  split_and!; intros Heq.
  - apply (f_equal size) in Heq. vm_compute in Heq. discriminate.
  - apply (f_equal size) in Heq. vm_compute in Heq. discriminate.
  - apply (f_equal length) in Heq. vm_compute in Heq. discriminate.
Qed.

(** C10 (code bug): a triangle is built, a point is registered and the
    navmesh is disposed.  The vertex, edge and face tables are empty, but
    the point is still in the point table, bound to the disposed face, and
    the third edge of the face still holds the face and its two vertices.
    A [move] of the point then throws on the [null] vertex of its face; a
    [register] finds no face and returns [null]. *)
Theorem dispose_leaves_points_and_edge :
  Exact.dispose single_registered = Ok () single_disposed ∧
  verticies single_disposed = ∅ ∧
  edges single_disposed = ∅ ∧
  faces single_disposed = [] ∧
  points single_disposed !! "p0"
  = Some (mkNavmeshPoint (Exact.vec (1 # 4) (1 # 4) 0)
            (Exact.vec (1 # 2) (1 # 4) (1 # 4)) "p0" 0) ∧
  face_objs single_disposed !! 0
  = Some (mkFace (90, 0)%N None None None None None None
            (Some (Exact.vec 0 0 1))) ∧
  edge_objs single_disposed !! 2
  = Some (mkEdge (71, 0)%N (Some 2) (Some 0) (Some 0) None 1%Q) ∧
  Exact.move "p0" (Exact.vec (1 # 4) (1 # 4) 0) single_disposed
  = Throw TypeError single_disposed ∧
  Exact.register (Exact.vec (1 # 4) (1 # 4) 0) single_disposed
  = Ok None single_disposed.
Proof. split_and!; vm_compute; reflexivity. Qed.

(** ** The further properties on the meshes *)

Lemma quad_registered_reachable :
  reachable Exact.zero Exact.lt0 Exact.ge0 Exact.project_on_plane
    Exact.triangle_normal Exact.get_barycentric_coordinates
    Exact.barycentric_to_cartesian Exact.project_on_line Exact.distanceTo
    Exact._hash quad_registered.
Proof.
  eapply (reachable_register _ _ _ _ _ _ _ _ _ _
            (Exact.vec (3 # 4) (1 # 4) 0));
    [apply quad_built_reachable|].
  left. exists (Some "p0"). exact quad_register.
Qed.

Lemma quad_registered_faces_ok : faces_ok quad_registered.
Proof.
  by destruct (reachable_ok _ _ _ _ _ _ _ _ _ _ _ quad_registered_reachable)
    as (_ & ? & _).
Qed.

Lemma quad_built_tables_ok : tables_ok quad_built.
Proof.
  by destruct (reachable_ok _ _ _ _ _ _ _ _ _ _ _ quad_built_reachable)
    as (? & _).
Qed.

Lemma move_unknown_id_witness :
  points quad_built !! "p0" = None ∧
  Exact.move "p0" (Exact.vec 0 0 0) quad_built = Throw TypeError quad_built.
Proof.
  assert (points quad_built !! "p0" = None) as Hp
    by (vm_compute; reflexivity).
  split; [exact Hp|].
  exact (move_unknown_id Exact.lt0 Exact.project_on_plane
           Exact.get_barycentric_coordinates Exact.barycentric_to_cartesian
           Exact.project_on_line "p0" (Exact.vec 0 0 0) quad_built Hp).
Defined.

Lemma move_writes_only_its_point_witness :
  Exact.move "p0" (Exact.vec (1 # 4) (3 # 4) 0) quad_registered
  = Ok (Exact.vec (1 # 4) (3 # 4) 0)
      (Exact.after (Exact.move "p0" (Exact.vec (1 # 4) (3 # 4) 0))
         quad_registered) ∧
  faces (Exact.after (Exact.move "p0" (Exact.vec (1 # 4) (3 # 4) 0))
           quad_registered)
  = faces quad_registered.
Proof.
  assert (Exact.move "p0" (Exact.vec (1 # 4) (3 # 4) 0) quad_registered
          = Ok (Exact.vec (1 # 4) (3 # 4) 0)
              (Exact.after (Exact.move "p0" (Exact.vec (1 # 4) (3 # 4) 0))
                 quad_registered)) as Hm by (vm_compute; reflexivity).
  split; [exact Hm|].
  destruct (move_writes_only_its_point Exact.lt0 Exact.project_on_plane
              Exact.get_barycentric_coordinates
              Exact.barycentric_to_cartesian Exact.project_on_line
              "p0" (Exact.vec (1 # 4) (3 # 4) 0) quad_registered
              (Exact.after (Exact.move "p0" (Exact.vec (1 # 4) (3 # 4) 0))
                 quad_registered))
    as (_ & _ & _ & _ & _ & Hf & _); [|exact Hf].
  left. eexists. exact Hm.
Defined.

Lemma quad_located_inside :
  located Exact.project_on_plane Exact.get_barycentric_coordinates
    quad_registered (Exact.vec (1 # 2) (1 # 4) 0) 0
    (Exact.vec (1 # 2) (1 # 4) 0) (Exact.vec (1 # 2) (1 # 4) (1 # 4)).
Proof.
  exists (mkFace (90, 0)%N (Some 0) (Some 1) (Some 2) (Some 0) (Some 1)
            (Some 2) (Some (Exact.vec 0 0 1))),
    (Exact.vec 0 0 1), 0, (mkVertex (Exact.vec 0 0 0)),
    1, (mkVertex (Exact.vec 1 0 0)), 2, (mkVertex (Exact.vec 1 1 0)).
  split_and!; vm_compute; reflexivity.
Qed.

Lemma move_inside_is_idempotent_witness :
  ∃ v s',
    Exact.move "p0" (Exact.vec (1 # 2) (1 # 4) 0) quad_registered
    = Ok v s' ∧
    Exact.move "p0" (Exact.vec (1 # 2) (1 # 4) 0) s' = Ok v s'.
Proof.
  destruct (move_inside_is_idempotent Exact.lt0 Exact.project_on_plane
              Exact.get_barycentric_coordinates
              Exact.barycentric_to_cartesian Exact.project_on_line
              "p0" (Exact.vec (1 # 2) (1 # 4) 0) quad_registered
              (mkNavmeshPoint (Exact.vec (3 # 4) (1 # 4) 0)
                 (Exact.vec (1 # 4) (1 # 2) (1 # 4)) "p0" 0)
              (Exact.vec (1 # 2) (1 # 4) 0)
              (Exact.vec (1 # 2) (1 # 4) (1 # 4)))
    as (F & pa & A & pb & B & pc & C & v & s' & _ & _ & _ & _ & _ & _ & _
        & _ & _ & Hm & Hm').
  - vm_compute. reflexivity.
  - exact quad_located_inside.
  - intros []; vm_compute; reflexivity.
  - exists v, s'. split; [exact Hm|exact Hm'].
Defined.

Lemma Exact_ge0_lt0 v : Exact.ge0 v = true → Exact.lt0 v = false.
Proof. unfold Exact.ge0, Exact.lt0. by intros ->. Qed.

Lemma register_then_move_stays_witness :
  (∀ v, Exact.ge0 v = true → Exact.lt0 v = false) ∧
  Exact.register (Exact.vec (3 # 4) (1 # 4) 0) quad_built
  = Ok (Some "p0") quad_registered ∧
  ∃ v s', Exact.move "p0" (Exact.vec (3 # 4) (1 # 4) 0) quad_registered
          = Ok v s'.
Proof.
  split; [exact Exact_ge0_lt0|]. split; [exact quad_register|].
  destruct (register_then_move_stays Exact.lt0 Exact.ge0
              Exact.project_on_plane Exact.get_barycentric_coordinates
              Exact.barycentric_to_cartesian Exact.project_on_line
              (Exact.vec (3 # 4) (1 # 4) 0) quad_built "p0" quad_registered
              Exact_ge0_lt0 quad_register)
    as (p & F & pa & A & pb & B & pc & C & v & _ & _ & _ & _ & _ & _ & _ & _
        & _ & Hm).
  eexists v, _. exact Hm.
Defined.

Lemma Edge_other_involutive_witness :
  Edge_other (mkEdge (71, 0)%N (Some 2) (Some 0) (Some 0) (Some 1) 1%Q) 0
  = Some 1 ∧
  Edge_other (mkEdge (71, 0)%N (Some 2) (Some 0) (Some 0) (Some 1) 1%Q) 1
  = Some 0.
Proof.
  assert (Edge_other
            (mkEdge (71, 0)%N (Some 2) (Some 0) (Some 0) (Some 1) 1%Q) 0
          = Some 1) as Ho by (vm_compute; reflexivity).
  split; [exact Ho|].
  exact (proj1 (Edge_other_involutive _ _ _ Ho)).
Defined.

Lemma Edge_add_then_other_witness :
  ∃ E s',
    edge_objs quad_built !! 0 = Some E ∧
    Edge_add 0 7 quad_built = Ok () s' ∧
    ∃ E', edge_objs s' !! 0 = Some E' ∧ Edge_other E' 7 = Some 0.
Proof.
  eexists _, _. split; [vm_compute; reflexivity|].
  split; [vm_compute; reflexivity|].
  edestruct (Edge_add_then_other (num:=Q) (K:=(N * N)%type) 0 7 quad_built)
    as (E' & HE' & Ho & _); [vm_compute; reflexivity..|].
  exists E'. split; [|exact Ho].
  rewrite HE'. apply list_lookup_insert_eq. vm_compute. lia.
Defined.

Lemma Face_dispose_leaves_ec_witness :
  ∃ s',
    Face_dispose 0 single_built = Ok () s' ∧
    edge_objs s' !! 2 = edge_objs single_built !! 2.
Proof.
  edestruct (Face_dispose_leaves_ec (num:=Q) (K:=(N * N)%type) 0
               single_built)
    as (s' & Hd & _ & _ & Hec & _);
    [vm_compute; reflexivity..|lia|lia|lia|].
  exists s'. split; [exact Hd|exact Hec].
Defined.

Lemma dispose_keeps_points_witness :
  faces_ok quad_registered ∧
  ∃ s', Exact.dispose quad_registered = Ok () s' ∧
        points s' = points quad_registered.
Proof.
  split; [exact quad_registered_faces_ok|].
  destruct (dispose_keeps_points quad_registered quad_registered_faces_ok)
    as (s' & Hd & _ & _ & _ & Hp & _).
  exists s'. split; [exact Hd|exact Hp].
Defined.

Lemma dispose_then_register_null_witness :
  Exact.dispose single_registered = Ok () single_disposed ∧
  Exact.register (Exact.vec (1 # 4) (1 # 4) 0) single_disposed
  = Ok None single_disposed.
Proof.
  assert (Exact.dispose single_registered = Ok () single_disposed) as Hd
    by (vm_compute; reflexivity).
  split; [exact Hd|].
  exact (dispose_then_register_null Exact.ge0 Exact.project_on_plane
           Exact.get_barycentric_coordinates (Exact.vec (1 # 4) (1 # 4) 0)
           single_registered single_disposed Hd).
Defined.

Lemma dispose_then_move_throws_witness :
  faces_ok quad_registered ∧
  ∃ s', Exact.dispose quad_registered = Ok () s' ∧
        Exact.move "p0" (Exact.vec (1 # 4) (3 # 4) 0) s'
        = Throw TypeError s'.
Proof.
  split; [exact quad_registered_faces_ok|].
  edestruct (dispose_then_move_throws Exact.lt0 Exact.project_on_plane
               Exact.get_barycentric_coordinates
               Exact.barycentric_to_cartesian Exact.project_on_line
               "p0" (Exact.vec (1 # 4) (3 # 4) 0) quad_registered)
    as (s' & Hd & Hm).
  - exact quad_registered_faces_ok.
  - vm_compute. reflexivity.
  - vm_compute. apply list_elem_of_here.
  - exists s'. split; [exact Hd|exact Hm].
Defined.

Lemma build_keeps_existing_witness :
  tables_ok quad_built ∧
  Exact.build single quad_built
  = Throw EdgeAddError (Exact.after (Exact.build single) quad_built) ∧
  verticies (Exact.after (Exact.build single) quad_built) !! 2%N = Some 2.
Proof.
  assert (Exact.build single quad_built
          = Throw EdgeAddError (Exact.after (Exact.build single) quad_built))
    as Hb by (vm_compute; reflexivity).
  split; [exact quad_built_tables_ok|]. split; [exact Hb|].
  edestruct (build_keeps_existing Exact.zero Exact.triangle_normal
               Exact.distanceTo Exact._hash single quad_built
               (Exact.after (Exact.build single) quad_built)
               quad_built_tables_ok)
    as (_ & Hv & _); [right; eexists; exact Hb|].
  edestruct (Hv 2%N 2) as [Hpid _]; [vm_compute; reflexivity..|].
  exact Hpid.
Defined.

(** *** The mesh that a build leaves, on the quad and on the twins *)

Lemma Exact_hash_inj a b a' b' :
  edge_key Exact._hash a b = edge_key Exact._hash a' b' →
  a = a' ∧ b = b' ∨ a = b' ∧ b = a'.
Proof.
  unfold edge_key, Exact._hash. intros [= Hs Hp].
  assert (a + b = a' + b')%N as Hsum by lia.
  assert (a * b = a' * b')%N as Hprod by lia.
  assert ((a - a') * (a - b') = 0 ∨ a < a' ∨ a < b')%N as Hz by lia.
  destruct (decide (a = a')) as [->|Ha]; [left; split; [done|lia]|].
  destruct (decide (a = b')) as [->|Hb]; [right; split; [done|lia]|].
  exfalso. nia.
Qed.

Lemma Exact_keys_distinct (dom : N → Prop) : keys_distinct Exact._hash dom.
Proof. intros a b a' b' _ _ _ _. apply Exact_hash_inj. Qed.

Lemma Ok_state {A} (a a' : A) (s s' : Exact.State) :
  Ok a s = Ok a' s' → s = s'.
Proof. by intros [= _ ->]. Qed.

Lemma quad_nondegenerate : Forall nondegenerate (indices quad).
Proof. repeat constructor; cbn; lia. Qed.

Lemma twins_nondegenerate : Forall nondegenerate (indices twins).
Proof. repeat constructor; cbn; lia. Qed.

Lemma quad_build :
  Exact.build quad Exact.new_Navmesh = Ok () quad_built.
Proof. vm_compute. reflexivity. Qed.

Lemma twins_build :
  Exact.build twins Exact.new_Navmesh = Ok () twins_built.
Proof. vm_compute. reflexivity. Qed.

Lemma quad_built_wired :
  wired Exact.zero Exact.triangle_normal Exact._hash (positions quad)
    (indices quad) quad_built.
Proof.
  destruct (build_loop_wired Exact.zero Exact.triangle_normal
              Exact.distanceTo Exact._hash (positions quad) []
              (indices quad) Exact.new_Navmesh (λ _, True) Exact_hash_sym
              (Exact_keys_distinct _) (λ _ _, I) (λ _ _, I)
              (new_Navmesh_wired Exact.zero Exact.triangle_normal Exact._hash
                 (positions quad))
              quad_nondegenerate)
    as (s' & Hb & Hw & _).
  { intros a b. apply (sharing_le_length (indices quad) a b). }
  change (build_loop _ _ _ _ _ _ _) with (Exact.build quad Exact.new_Navmesh)
    in Hb.
  rewrite quad_build in Hb. apply Ok_state in Hb. by rewrite Hb.
Qed.

Lemma twins_built_wired :
  wired Exact.zero Exact.triangle_normal Exact._hash (positions twins)
    (indices twins) twins_built.
Proof.
  destruct (build_loop_wired Exact.zero Exact.triangle_normal
              Exact.distanceTo Exact._hash (positions twins) []
              (indices twins) Exact.new_Navmesh (λ _, True) Exact_hash_sym
              (Exact_keys_distinct _) (λ _ _, I) (λ _ _, I)
              (new_Navmesh_wired Exact.zero Exact.triangle_normal Exact._hash
                 (positions twins))
              twins_nondegenerate)
    as (s' & Hb & Hw & _).
  { intros a b. apply (sharing_le_length (indices twins) a b). }
  change (build_loop _ _ _ _ _ _ _)
    with (Exact.build twins Exact.new_Navmesh) in Hb.
  rewrite twins_build in Hb. apply Ok_state in Hb. by rewrite Hb.
Qed.

Lemma quad_registered_wired :
  wired Exact.zero Exact.triangle_normal Exact._hash (positions quad)
    (indices quad) quad_registered.
Proof.
  apply (wired_same_mesh Exact.zero Exact.triangle_normal Exact._hash
           (positions quad) (indices quad) quad_built quad_registered);
    [vm_compute; reflexivity..|exact quad_built_wired].
Qed.

Lemma build_wires_manifold_witness :
  (∀ x y, Exact._hash x y None = Exact._hash y x None) ∧
  keys_distinct Exact._hash (occurs (indices quad)) ∧
  Forall nondegenerate (indices quad) ∧
  wired Exact.zero Exact.triangle_normal Exact._hash (positions quad)
    (indices quad) quad_built ∧
  (∀ a, indexed quad_built a → occurs (indices quad) a).
Proof.
  split; [exact Exact_hash_sym|]. split; [exact (Exact_keys_distinct _)|].
  split; [exact quad_nondegenerate|].
  destruct (build_wires_manifold Exact.zero Exact.triangle_normal
              Exact.distanceTo Exact._hash (positions quad) (indices quad)
              Exact_hash_sym (Exact_keys_distinct _) quad_nondegenerate)
    as [_ Hw].
  apply Hw. exact quad_build.
Defined.

Lemma wired_neighbour_witness :
  keys_distinct Exact._hash (indexed quad_built) ∧
  wired Exact.zero Exact.triangle_normal Exact._hash (positions quad)
    (indices quad) quad_built ∧
  indices quad !! 0 = Some (0, 1, 2)%N ∧
  ∃ e, edges quad_built !! edge_key Exact._hash 2 0 = Some e.
Proof.
  split; [exact (Exact_keys_distinct _)|]. split; [exact quad_built_wired|].
  split; [reflexivity|].
  destruct (wired_neighbour Exact.zero Exact.triangle_normal Exact._hash
              (positions quad) (indices quad) quad_built 0 (0, 1, 2)%N Pb
              (Exact_keys_distinct _) quad_built_wired eq_refl)
    as (F & e & E & _ & _ & He & _).
  exists e. exact He.
Defined.

Lemma quad_face_keys : NoDup (face_key Exact._hash <$> indices quad).
Proof.
  apply (bool_decide_unpack _). vm_compute. exact I.
Qed.

Lemma face_table_in_mesh_order_witness :
  wired Exact.zero Exact.triangle_normal Exact._hash (positions quad)
    (indices quad) quad_built ∧
  NoDup (face_key Exact._hash <$> indices quad) ∧
  (faces quad_built).*2 = [0; 1].
Proof.
  split; [exact quad_built_wired|]. split; [exact quad_face_keys|].
  exact (proj2 (face_table_in_mesh_order Exact.zero Exact.triangle_normal
                  Exact._hash (positions quad) (indices quad) quad_built
                  quad_built_wired quad_face_keys)).
Defined.

(** On the twins the two triangles have the same face key, and a position
    inside the first one gets no point. *)
Lemma twins_same_key :
  face_key Exact._hash (0, 1, 4)%N = face_key Exact._hash (0, 2, 3)%N.
Proof. vm_compute. reflexivity. Qed.

Lemma twins_register_first :
  Exact.register (Exact.vec (3 # 4) (1 # 4) 0) twins_built
  = Ok None twins_built.
Proof. vm_compute. reflexivity. Qed.

Lemma face_key_collision_loses_face_witness :
  wired Exact.zero Exact.triangle_normal Exact._hash (positions twins)
    (indices twins) twins_built ∧
  indices twins !! 0 = Some (0, 1, 4)%N ∧
  indices twins !! 1 = Some (0, 2, 3)%N ∧
  face_key Exact._hash (0, 1, 4)%N = face_key Exact._hash (0, 2, 3)%N ∧
  0 ∉ (faces twins_built).*2.
Proof.
  split; [exact twins_built_wired|]. split; [reflexivity|].
  split; [reflexivity|]. split; [exact twins_same_key|].
  assert (0 < 1) as H01 by lia.
  exact (proj1 (face_key_collision_loses_face Exact.zero Exact.ge0
                  Exact.project_on_plane Exact.triangle_normal
                  Exact.get_barycentric_coordinates Exact._hash
                  (positions twins) (indices twins) twins_built 0 1
                  (0, 1, 4)%N (0, 2, 3)%N twins_built_wired eq_refl eq_refl
                  H01 twins_same_key)).
Defined.

Lemma move_returns_on_wired_witness :
  keys_distinct Exact._hash (indexed quad_registered) ∧
  wired Exact.zero Exact.triangle_normal Exact._hash (positions quad)
    (indices quad) quad_registered ∧
  ∃ v s', Exact.move "p0" (Exact.vec 5 5 0) quad_registered = Ok v s'.
Proof.
  split; [exact (Exact_keys_distinct _)|].
  split; [exact quad_registered_wired|].
  edestruct (move_returns_on_wired Exact.zero Exact.lt0
               Exact.project_on_plane Exact.triangle_normal
               Exact.get_barycentric_coordinates
               Exact.barycentric_to_cartesian Exact.project_on_line
               Exact._hash (positions quad) (indices quad) "p0"
               (Exact.vec 5 5 0) quad_registered)
    as (v & s' & pt' & Hm & _).
  - exact (Exact_keys_distinct _).
  - exact quad_registered_wired.
  - vm_compute. reflexivity.
  - vm_compute. lia.
  - exists v, s'. exact Hm.
Defined.

Lemma register_on_wired_witness :
  wired Exact.zero Exact.triangle_normal Exact._hash (positions quad)
    (indices quad) quad_built ∧
  Exact.register (Exact.vec (3 # 4) (1 # 4) 0) quad_built
  = Ok (Some "p0") quad_registered ∧
  wired Exact.zero Exact.triangle_normal Exact._hash (positions quad)
    (indices quad) quad_registered.
Proof.
  split; [exact quad_built_wired|]. split; [exact quad_register|].
  exact (proj1 (register_on_wired Exact.zero Exact.ge0
                  Exact.project_on_plane Exact.triangle_normal
                  Exact.get_barycentric_coordinates Exact._hash
                  (positions quad) (indices quad)
                  (Exact.vec (3 # 4) (1 # 4) 0) quad_built "p0"
                  quad_registered quad_built_wired quad_register)).
Defined.

Lemma reachable_calls_return_witness :
  reachable Exact.zero Exact.lt0 Exact.ge0 Exact.project_on_plane
    Exact.triangle_normal Exact.get_barycentric_coordinates
    Exact.barycentric_to_cartesian Exact.project_on_line Exact.distanceTo
    Exact._hash quad_built ∧
  ∃ s', Exact.dispose quad_built = Ok () s'.
Proof.
  split; [exact quad_built_reachable|].
  exact (proj2 (reachable_calls_return Exact.zero Exact.lt0 Exact.ge0
                  Exact.project_on_plane Exact.triangle_normal
                  Exact.get_barycentric_coordinates
                  Exact.barycentric_to_cartesian Exact.project_on_line
                  Exact.distanceTo Exact._hash (Exact.vec 0 0 0) quad_built
                  quad_built_reachable)).
Defined.
